(* ===== verification/_CoqProject ===== *)
-Q . S2P
Prelude.v
ArgSort.v
Sparse.v
Config.v
Evaluator.v
Matcher.v
UnsupAlign.v
Pipeline.v
Aligner.v
Main.v
EdgeList.v
