(* ===== verification/Prelude.v ===== *)
(** * CONE-Align: a verification development of [src/conealign.py]

    ** The program

    [src/conealign.py] aligns the nodes of two graphs given as the two
    diagonal blocks of one combined graph.  [parse_args] (lines 18-60)
    builds the global [args].  [main] (154-199) reads the combined edge
    list with networkx, splits its adjacency matrix into [adjA]/[adjB],
    embeds each block ([embedding.netmf]), calls [align_embeddings]
    (62-107) and scores the result with [get_counterpart] (110-133).
    [align_embeddings] optionally builds a one-hot prior from the
    row-wise [np.argmax] of a similarity matrix, runs the convex
    initialisation and the alternating optimisation of [unsup_align],
    multiplies the first embedding by the learnt map and matches nodes:
    with [kd_align] (136-151, a KD-tree top-k query whose distances
    become [exp(-d)] scores in a sparse CSR matrix) or with a dense
    pairwise similarity.  [get_counterpart] takes, for every row, the
    column that comes last in the ascending [np.argsort] of the row (of
    its stored non-zeros for a sparse row, [sps.find]) and counts the
    rows whose counterpart is the true one; [main] divides by the number
    of nodes and may save the one-hot matrix of the counterparts.

    ** Files (in dependency order) and what they model

    - [Prelude] (this file): the Python exceptions ([py_error]) and the
      error monad [res] (a sum; stdpp's [←] notation, tactic [res_red]),
      Python indexing ([py_get], [py_last], [py_last_slice],
      [py_getattr]), 2-D array shapes, the scalar class [Scalar] for
      float64 with its laws [ScalarOrder] and [ScalarLaws], the integer
      instance [Z_scalar], the hint databases [cone]/[cone_res] and
      shared list lemmas.
    - [ArgSort]: [np.argsort] as the class [ArgSort] (a permutation of
      the indices, ascending by value: what every numpy sort kind
      guarantees), a stable insertion-sort instance; [np.argmax]
      ([np_argmax]) with its specification: the first maximal index.
    - [Sparse]: the part of [scipy.sparse] the code relies on: the
      records [coo] and [csr] (a CSR matrix is its shape and, per row,
      the (column, value) entries), [coo_matrix] with its checks,
      [tocsr] (rows sorted by column, duplicates summed),
      [csr_matrix(dense)], [sps.find] of a row, [todense], with the
      lemmas the claims use: [tocsr] yields a canonical matrix,
      [csr_matrix]/[todense] round-trip.
    - [Config]: [parse_args] over a [gmap] namespace: declared options,
      kinds, defaults, options applied in order, [SystemExit] (C12-C14,
      C35).
    - [Evaluator]: [get_counterpart] line by line, its loop as a
      [Fixpoint] over [range(n_nodes)] threading
      ([correct_nodes], [counterpart_dict]), both matrix kinds, the
      ground truth as a list or a dict ([py_truth]), and the score of
      line 186 (C1-C7, C23-C24).
    - [Matcher]: [kd_align] against the class [SkLearn] (the KD-tree
      query contract [knn_correct], sklearn's [ValueError] checks) and
      the dense pairwise similarity (C8-C11, C22, C28).
    - [UnsupAlign]: the collaborators outside [src/]
      ([unsup_align.convex_init], [convex_init_sparse], [align],
      [embedding.netmf]) modelled from the spec as the class
      [UnsupAlign] with their shape laws and the spec's sparse/dense
      law of the convex initialisation, and an integer instance.
    - [Pipeline]: [align_embeddings] with [args] as a Section variable,
      split into step 2 ([align_spaces]) and step 3 ([greedy_match]),
      and the options line 89 passes to the optimiser ([align_options])
      (C15-C17, C29).
    - [Aligner]: the loops of [unsup_align.align] as the spec describes
      them (spec-modelled): mini-batches by well-founded recursion
      (Equations), gradient steps and re-estimation per batch, epochs,
      with lemmas on the number of steps; no claim rests on them.
    - [Main]: networkx's graph from an edge list (first-occurrence node
      order, nodes of any type with decidable equality, [NetworkXError]
      for the adjacency matrix of a graph without nodes), the block
      split, the netMF dispatch, [evaluate_adj]/[evaluate] (lines
      163-186) and [main_adj]/[main] with the one-hot [binary_sim] loop
      (C18-C21, C25-C27).
    - [EdgeList]: [nx.read_edgelist(..., nodetype=int, comments="%")]
      on the text of the file, as networkx's [parse_edgelist] does it
      (lines of a binary file, comment cut, [str.split()], [int()],
      edge data through [dict(literal_eval(...))] behind the class
      [PyLiteral]), the weighted graph [add_edge] builds, [main] on the
      file ([main_text]) and the script of lines 202-204 ([program])
      (C30-C34).

    Components talk through interfaces: the Evaluator is proved against
    any [ArgSort] instance, the Matcher against any [SkLearn] instance,
    the Pipeline and [main] against any [UnsupAlign] instance; the
    executable instances on [Z] discharge the interfaces and run the
    witnesses ([vm_compute]).

    ** What the theorems show

    - Evaluator (C1-C7): the exact result of [get_counterpart] (correct
      nodes, counterpart dict), its exception exactly on a node without
      target or candidate (an all-zero sparse row), the first such
      node's ([KeyError] for a dict ground truth), optimality
      of the counterpart on both paths, sortedness of [correct_nodes],
      the identity property of the spec, the score in [0, 1].
    - Matcher (C8-C11): [kd_align]'s [ValueError]s (["cosine"] among
      them), row contents, CSR shape with [num_top] entries per row,
      and the refinement: with [num_top = n] the sparse path gives the
      same evaluation as the dense path (spec section 8); without
      underflow the top-k matrix always evaluates (C22); with any
      [num_top >= 1] the sparse path gives the dense path's evaluation
      when every dense row has a single maximum (C28: the nearest row
      is always among the [num_top] returned, [knn_nearest]).
    - Config (C12-C14, C35): typed namespace after parsing, [numtop]
      never [None], no range checks, and [SystemExit] exactly for an
      unknown option or a value of the wrong kind.
    - Evaluator, further (C23-C24): with a stable argsort the
      counterpart is the last maximal column while [np.argmax] takes
      the first, the two agreeing exactly on a unique maximum; every
      counterpart is a column of the matrix.
    - Pipeline and Main (C15-C21): output shape of [align_embeddings],
      [UnboundLocalError] for a non-greedy method, or for a non-netMF
      embedding of a graph with an edge ([NetworkXError] without one),
      the one-hot prior by first argmax, the [binary_sim] loop against
      the spec's one-hot matrix, the block split right for id-ordered
      files, and [--embsim cosine] never producing a score.
    - Main, end to end (C25-C27): the score of [main] lies in [0, 1];
      with an even number of nodes the saved matrix is the one-hot
      matrix of the counterparts; with an odd number [--store_align]
      raises [IndexError] after scoring exactly when a counterpart is
      the extra column of [adjB].
    - Pipeline, sparse/dense (C29): dense adjacency blocks and any CSR
      matrices standing for them give the same [align_embeddings].
    - EdgeList (C30-C34): writing edges as ["u v"] lines and reading
      them back is the identity; a non-integer node raises [TypeError];
      a one-field line is dropped silently and a conflicting weight
      silently overrides (both against spec section 6); a file whose
      every line is skipped gives an empty graph and [main] then raises
      networkx's [NetworkXError].

    The spec-modelled optimiser loops ([Aligner]) carry lemmas only
    (termination after [nepoch * ceil(n / bsz) * niter] steps, the
    batch partition): what they show is fixed by the spec's text, not
    by code of this repository.  The node order networkx gives an
    interleaved file (the split of lines 165-167 is then not by id) is
    shown on an example, [split_blocks_not_by_id], not as a claim.

    ** Numbers, loops and bounds

    Float64 values are abstracted by [Scalar]; each theorem assumes only
    the laws it states (a total preorder for sorting and argmax,
    antitonicity of [np.exp(-x)]).  NaN is outside the model: numpy
    sorts NaN last, which the total-preorder law excludes.  [exp(-d)]
    underflowing to [0.0] is kept: [Z_scalar] stands for it with
    [max 0 (100 - d)], which reaches 0.  Indices and sizes are [nat]
    (numpy's shapes are non-negative); [--numtop] is an [int] and a
    negative value takes the [ValueError] path.  Every loop of the code
    runs over a finite list ([range(n)], rows, the edge list), so every
    definition of the code is structurally recursive and total: no fuel
    is needed.  The one recursion that is not structural, the
    mini-batch partition of the spec-modelled optimiser, is defined by
    well-founded recursion on [n - start].

    ** Not modelled

    File I/O other than the edge list (pickle, the log file,
    [np.save]), timing and printing (the [np.max] calls inside the
    prints are kept as they can raise); UTF-8 decoding of the edge list
    (the text is taken as ASCII) and what [ast.literal_eval] accepts
    (only the weight it yields, [PyLiteral]); argparse's string
    conversion and prefix matching; what [unsup_align] and [netmf]
    compute (only their contracts); the [int()] of line 122 on a
    ground truth holding floats or strings (its values are taken as
    non-negative ints).

    ** Plan left

    [mat_dot] against a reference product with ring laws; the KD-tree
    path against the dense path for [num_top < n] when dense rows have
    tied maxima (the two rankings may then break the tie differently).
*)

From stdpp Require Export base list gmap.
From Stdlib Require Export ZArith Sorted.

Declare Scope cone_scope.
Delimit Scope cone_scope with cone.
Open Scope cone_scope.

Create HintDb cone discriminated.
Create Rewrite HintDb cone_res.

(** ** Python exceptions and the error monad *)

(** The exceptions the modelled code can raise. *)
Inductive py_error :=
  | IndexError          (** [l[-1]] on an empty list, [l[i]] out of range *)
  | ValueError          (** scipy / sklearn argument checks *)
  | UnboundLocalError   (** a variable read before any assignment *)
  | ZeroDivisionError   (** [x / 0.0] *)
  | KeyError            (** [d[k]] for a key [k] not in the dict [d] *)
  | AttributeError      (** [args.name] for an option the parser lacks *)
  | TypeError           (** networkx failing to convert an edge-list line *)
  | NetworkXError       (** networkx's adjacency matrix of a graph with no node *)
  | SystemExit.         (** argparse rejecting the command line *)

#[export] Instance py_error_eq_dec : EqDecision py_error.
Proof. solve_decision. Defined.

(** A computation that returns an [A] or raises. *)
Definition res (A : Type) : Type := py_error + A.

#[export] Instance res_ret : MRet res := λ A x, inr x.
#[export] Instance res_bind : MBind res := λ A B f m,
  match m with inl e => inl e | inr x => f x end.

Definition raise {A} (e : py_error) : res A := inl e.

(** ** Python list indexing *)

(** [l[i]] for a non-negative [i]. *)
Definition py_get {A} (l : list A) (i : nat) : res A :=
  match l !! i with Some x => inr x | None => raise IndexError end.

(** [d[k]] on a dict. *)
Definition py_dict_get {A} (d : gmap nat A) (k : nat) : res A :=
  match d !! k with Some v => inr v | None => raise KeyError end.

(** [l[-1]]. *)
Definition py_last {A} (l : list A) : res A :=
  match last l with Some x => inr x | None => raise IndexError end.

(** [l[-1:]]: never raises. *)
Definition py_last_slice {A} (l : list A) : list A :=
  match last l with Some x => [x] | None => [] end.

(** [obj.name], the attribute looked up as an option. *)
Definition py_getattr {A} (o : option A) : res A :=
  match o with Some x => inr x | None => raise AttributeError end.

(** A 2-D array of [r] rows of [c] columns, as a list of rows. *)
Definition has_shape {A} (M : list (list A)) (r c : nat) : Prop :=
  length M = r ∧ Forall (λ x, length x = c) M.

(** ** Scalars: the float64 operations the code uses *)

Class Scalar (K : Type) := {
  szero : K;
  sone : K;
  sadd : K → K → K;
  smul : K → K → K;
  sleb : K → K → bool;   (** [x <= y] *)
  seqb : K → K → bool;   (** [x == y] *)
  sexpn : K → K          (** [np.exp(-x)] *)
}.

Definition sle {K} `{Scalar K} (x y : K) : Prop := sleb x y = true.
Notation "x ≤ₛ y" := (sle x y) (at level 70) : cone_scope.

#[export] Instance sle_dec {K} `{Scalar K} : RelDecision (@sle K _).
Proof. intros x y. unfold sle. apply _. Defined.

(** A total preorder: what sorting and [argmax] rely on (no NaN). *)
Class ScalarOrder (K : Type) `{Scalar K} := {
  sle_refl x : x ≤ₛ x;
  sle_trans x y z : x ≤ₛ y → y ≤ₛ z → x ≤ₛ z;
  sle_total x y : x ≤ₛ y ∨ y ≤ₛ x
}.

(** [seqb] is equality, and [np.exp(-x)] is antitone. *)
Class ScalarLaws (K : Type) `{Scalar K} := {
  seqb_eq x y : seqb x y = true ↔ x = y;
  sexpn_antitone x y : x ≤ₛ y → sexpn y ≤ₛ sexpn x
}.

#[export] Hint Resolve sle_refl : cone.

(** The executable instance the witnesses run on.  [np.exp(-d)] is stood
    for by [max 0 (100 - d)]: antitone, positive on small distances, and
    zero on large ones as float64 [exp] underflows to [0.0]. *)
#[export] Instance Z_scalar : Scalar Z := {|
  szero := 0%Z; sone := 1%Z; sadd := Z.add; smul := Z.mul;
  sleb := Z.leb; seqb := Z.eqb; sexpn := λ d, Z.max 0 (100 - d)
|}.

#[export] Instance Z_scalar_order : ScalarOrder Z.
Proof.
  split; unfold sle; simpl; intros; rewrite ?Z.leb_le in *; lia.
Qed.

#[export] Instance Z_scalar_laws : ScalarLaws Z.
Proof.
  split; unfold sle; simpl; intros.
  - apply Z.eqb_eq.
  - rewrite Z.leb_le in *. lia.
Qed.

Section order_facts.
Context {K : Type} `{ScalarOrder K}.

Lemma sle_not x y : ¬ x ≤ₛ y → y ≤ₛ x.
Proof. intros Hn. destruct (sle_total x y); tauto. Qed.

#[export] Instance sle_Transitive : Transitive (@sle K _).
Proof. intros ???. apply sle_trans. Qed.
#[export] Instance sle_Reflexive : Reflexive (@sle K _).
Proof. intros ?. apply sle_refl. Qed.
End order_facts.

(** ** Shared lemmas on the monad and on lists *)

Lemma res_bind_inr {A B} (x : A) (k : A → res B) :
  (inr x : res A) ≫= k = k x.
Proof. reflexivity. Qed.

Lemma res_bind_inl {A B} (e : py_error) (k : A → res B) :
  (inl e : res A) ≫= k = inl e.
Proof. reflexivity. Qed.

(** A [for] loop that raises at the first failing element. *)
Lemma res_mapM_inr {A B} (f : A → res B) (l : list A) (ys : list B) :
  mapM f l = inr ys → Forall2 (λ x y, f x = inr y) l ys.
Proof.
  revert ys. induction l as [|x l IH]; intros ys; simpl.
  { intros [= <-]. constructor. }
  destruct (f x) as [e|y] eqn:Hx; [discriminate|]. simpl.
  destruct (mapM f l) as [e|ys'] eqn:Hl; [discriminate|]. simpl.
  intros [= <-]. constructor; auto.
Qed.

(** A loop threading a state through [res] stays failed once an
    iteration has raised. *)
Lemma foldl_res_inl {A B} (f : A → B → res A) (l : list B) e :
  foldl (λ acc j, x ← acc; f x j) (inl e) l = inl e.
Proof. induction l; simpl; auto. Qed.

(** A [for] loop that raises raises at one of its elements. *)
Lemma res_mapM_inl {A B} (f : A → res B) (l : list A) e :
  mapM f l = inl e → ∃ x, x ∈ l ∧ f x = inl e.
Proof.
  induction l as [|x l IH]; simpl; [discriminate|].
  destruct (f x) as [e'|y] eqn:Hx; simpl.
  { intros [= ->]. exists x. split; [set_solver|done]. }
  destruct (mapM f l) as [e'|ys] eqn:Hl; simpl; [|discriminate].
  intros [= ->]. destruct IH as (x' & ? & ?); [done|]. exists x'. split; [set_solver|done].
Qed.

Lemma res_mapM_elem_inr {A B} (f : A → res B) (l : list A) ys x :
  mapM f l = inr ys → x ∈ l → ∃ y, f x = inr y.
Proof.
  intros Hm%res_mapM_inr Hx. apply list_elem_of_lookup in Hx as [i Hi].
  destruct (Forall2_lookup_l _ _ _ _ _ Hm Hi) as (y & _ & Hy). by exists y.
Qed.

Lemma py_last_ok {A} (l : list A) x : py_last l = inr x ↔ last l = Some x.
Proof. unfold py_last, raise. destruct (last l); split; congruence. Qed.

Lemma py_last_err {A} (l : list A) e : py_last l = inl e ↔ l = [] ∧ e = IndexError.
Proof.
  unfold py_last, raise. destruct (last l) eqn:E.
  - split; [congruence|]. intros [-> _]. discriminate.
  - apply last_None in E. split; [intros [=]; auto | intros [_ ->]; auto].
Qed.

Lemma py_last_slice_last {A} (l : list A) x :
  last l = Some x → py_last_slice l = [x].
Proof. unfold py_last_slice. by intros ->. Qed.

Lemma py_get_ok {A} (l : list A) i x : py_get l i = inr x ↔ l !! i = Some x.
Proof. unfold py_get, raise. destruct (l !! i); split; congruence. Qed.

Lemma last_In {A} (l : list A) x : last l = Some x → x ∈ l.
Proof. intros (l' & ->)%last_Some. set_solver. Qed.

#[export] Hint Rewrite @res_bind_inr @res_bind_inl : cone_res.

(** A [for] loop whose every iteration succeeds. *)
Lemma res_mapM_app {A B} (f : A → res B) (l1 l2 : list A) :
  mapM f (l1 ++ l2) = (ys1 ← mapM f l1; ys2 ← mapM f l2; mret (ys1 ++ ys2)).
Proof.
  induction l1 as [|x l1 IH]; simpl; [by destruct (mapM f l2)|].
  destruct (f x); simpl; [done|]. rewrite IH.
  by destruct (mapM f l1), (mapM f l2).
Qed.

Lemma res_mapM_map_inr {A B} (f : A → res B) (h : A → B) (l : list A) :
  (∀ x, x ∈ l → f x = inr (h x)) → mapM f l = inr (map h l).
Proof.
  induction l as [|x l IH]; intros Hall; simpl; [done|].
  rewrite Hall, IH by set_solver. done.
Qed.

Lemma res_mapM_map_ext {A B C} (f : A → res B) (g : C → A) (h : C → res B) (l : list C) :
  (∀ x, x ∈ l → f (g x) = h x) → mapM f (map g l) = mapM h l.
Proof.
  induction l as [|x l IH]; intros Hall; simpl; [done|].
  rewrite Hall, IH by set_solver. done.
Qed.

(** Where [range(n)] splits around one of its elements. *)
Lemma seq_split_at n pre i post : seq 0 n = pre ++ i :: post → pre = seq 0 i ∧ i < n.
Proof.
  intros Hs. assert (seq 0 n !! length pre = Some i) as Hl
    by (rewrite Hs, lookup_app_r, Nat.sub_diag by lia; done).
  apply lookup_seq in Hl as [-> Hlt]. simpl. split; [|lia].
  apply (f_equal (take (length pre))) in Hs. rewrite take_app_length, take_seq in Hs.
  by rewrite Nat.min_l in Hs by lia.
Qed.

Lemma seq_at n i : i < n → seq 0 n = seq 0 i ++ i :: seq (S i) (n - S i).
Proof.
  intros Hi. replace n with (i + S (n - S i)) at 1 by lia. rewrite seq_app. done.
Qed.

Lemma res_mapM_ok {A B} (f : A → res B) (l : list A) :
  (∀ x, x ∈ l → ∃ y, f x = inr y) → ∃ ys, mapM f l = inr ys.
Proof.
  induction l as [|x l IH]; intros Hall; simpl; [by eexists|].
  destruct (Hall x) as [y ->]; [set_solver|]. destruct IH as [ys ->]; [set_solver|].
  by eexists.
Qed.

(** Reduce the monad's bind and return and the raising helpers. *)
Ltac res_red := cbn [mbind res_bind mret res_ret raise py_getattr] in *.

(** Unfold the monad and Python helpers and split on what blocks. *)
Ltac res_simpl :=
  repeat (autorewrite with cone_res in *; simpl in *;
          match goal with
          | H : inr _ = inr _ |- _ => injection H as H
          | H : inl _ = inr _ |- _ => discriminate H
          | H : inr _ = inl _ |- _ => discriminate H
          end).

(** Two lists strictly sorted by an asymmetric relation that are
    permutations of each other are equal. *)
Lemma StronglySorted_perm_unique {A} (R : A → A → Prop)
    (R_asym : ∀ x y, R x y → R y x → False) (l1 l2 : list A) :
  StronglySorted R l1 → StronglySorted R l2 → l1 ≡ₚ l2 → l1 = l2.
Proof.
  intros H1. revert l2. induction H1 as [|x l1 H1 IH Hx]; intros l2 H2 Hp.
  { by apply Permutation_nil_l. }
  destruct H2 as [|y l2 H2 Hy]; [by apply Permutation_nil_r in Hp|].
  assert (x ∈ y :: l2) as Hxl by (rewrite <-Hp; set_solver).
  apply elem_of_cons in Hxl as [<-|Hxl].
  { f_equal. apply IH; [done|]. by eapply Permutation_cons_inv. }
  exfalso. rewrite Forall_forall in Hx, Hy.
  assert (y ∈ x :: l1) as Hyl by (rewrite Hp; set_solver).
  apply elem_of_cons in Hyl as [->|Hyl]; [apply (R_asym x x)|apply (R_asym x y)]; auto.
Qed.

Lemma Forall_zip_fst {A B} (P : A → Prop) (l1 : list A) (l2 : list B) :
  Forall P l1 → Forall (λ x, P x.1) (zip l1 l2).
Proof.
  intros Hl. revert l2. induction Hl; intros [|b l2]; simpl; constructor; auto.
Qed.

Lemma Forall_zip_snd {A B} (P : B → Prop) (l1 : list A) (l2 : list B) :
  Forall P l2 → Forall (λ x, P x.2) (zip l1 l2).
Proof.
  intros Hl. revert l1. induction Hl; intros [|a l1]; simpl; constructor; auto.
Qed.

Lemma Forall_filter_l {A} (P Q : A → Prop) `{!∀ x, Decision (Q x)} (l : list A) :
  Forall P l → Forall P (filter Q l).
Proof. rewrite !Forall_forall. intros HP x [_ Hx]%list_elem_of_filter. auto. Qed.

Lemma last_map {A B} (f : A → B) (l : list A) : last (map f l) = f <$> last l.
Proof. induction l as [|x [|y l] IH]; simpl in *; auto. Qed.

Lemma nth_fmap_lookup {A B} (f : A → B) (l : list A) k x d :
  l !! k = Some x → nth k (f <$> l) d = f x.
Proof. intros Hk. by rewrite nth_lookup, list_lookup_fmap, Hk. Qed.

Lemma filter_all {A} (P : A → Prop) `{!∀ x, Decision (P x)} (l : list A) :
  Forall P l → filter P l = l.
Proof. induction 1; [done|]. rewrite filter_cons, decide_True by done. by f_equal. Qed.

Lemma StronglySorted_filter {A} (R : A → A → Prop) (P : A → Prop)
    `{!∀ x, Decision (P x)} (l : list A) :
  StronglySorted R l → StronglySorted R (filter P l).
Proof.
  induction 1 as [|x l Hl IH Hx]; [constructor|]. rewrite filter_cons.
  case_decide; [|done]. constructor; [done|]. by apply Forall_filter_l.
Qed.

Lemma StronglySorted_seq s n : StronglySorted lt (seq s n).
Proof.
  revert s. induction n as [|n IH]; intros s; simpl; constructor; [done|].
  apply Forall_seq. lia.
Qed.

Lemma StronglySorted_app_inv {A} (R : A → A → Prop) (l1 l2 : list A) :
  StronglySorted R (l1 ++ l2) →
  StronglySorted R l1 ∧ StronglySorted R l2 ∧ ∀ x y, x ∈ l1 → y ∈ l2 → R x y.
Proof.
  induction l1 as [|a l1 IH]; simpl; intros Hs.
  { split; [constructor|]. split; [done|]. intros ? ? Hx. by apply elem_of_nil in Hx. }
  apply StronglySorted_inv in Hs as [Hs Ha]. destruct (IH Hs) as (H1 & H2 & H12).
  rewrite Forall_forall in Ha. split; [|split; [done|]].
  - constructor; [done|]. apply Forall_forall. intros x Hx. apply Ha. set_solver.
  - intros x y [->|Hx]%elem_of_cons Hy; [apply Ha; set_solver|auto].
Qed.

Lemma StronglySorted_map {A B} (R : B → B → Prop) (f : A → B) (l : list A) :
  StronglySorted (λ a b, R (f a) (f b)) l → StronglySorted R (map f l).
Proof.
  induction 1 as [|a l Hl IH Ha]; simpl; constructor; [done|].
  apply Forall_map. exact Ha.
Qed.

Lemma StronglySorted_take {A} (R : A → A → Prop) (l : list A) k :
  StronglySorted R l → StronglySorted R (take k l).
Proof. rewrite <-(take_drop k l) at 1. intros []%StronglySorted_app_inv. done. Qed.

Lemma elem_of_take_l {A} (x : A) n l : x ∈ take n l → x ∈ l.
Proof. intros Hx. rewrite <-(take_drop n l). set_solver. Qed.

Lemma NoDup_take_l {A} (l : list A) n : NoDup l → NoDup (take n l).
Proof. rewrite <-(take_drop n l) at 1. rewrite NoDup_app. naive_solver. Qed.

Lemma length_concat_const {A} (ls : list (list A)) k :
  Forall (λ l, length l = k) ls → length (concat ls) = length ls * k.
Proof. induction 1; simpl; rewrite ?length_app; lia. Qed.

Lemma fmap_is_map {A B} (f : A → B) (l : list A) : f <$> l = map f l.
Proof. induction l; simpl; f_equal; auto. Qed.

Lemma map_seq_nth {A B} (f : A → B) (l : list A) d :
  map (λ j, f (nth j l d)) (seq 0 (length l)) = map f l.
Proof.
  induction l as [|x l IH]; [done|]. simpl. f_equal.
  rewrite <-seq_shift, map_map. apply IH.
Qed.

Lemma StronglySorted_impl {A} (R1 R2 : A → A → Prop) (l : list A) :
  (∀ x y, R1 x y → R2 x y) → StronglySorted R1 l → StronglySorted R2 l.
Proof.
  intros HR. induction 1; constructor; [done|]. eapply Forall_impl; eauto.
Qed.

Lemma nth_map_lt {A B} (f : A → B) (l : list A) i d d' :
  i < length l → nth i (map f l) d = f (nth i l d').
Proof. intros Hi. rewrite (nth_indep _ d (f d')) by (rewrite length_map; lia). apply map_nth. Qed.
