(* ===== verification/ArgSort.v ===== *)
(** * ArgSort: [np.argsort] and [np.argmax] on a row of scalars

    [get_counterpart] (src/conealign.py, lines 117 and 125) reads the
    last index of [np.argsort] of a row; [align_embeddings] (line 74)
    uses [np.argmax].  numpy's default sort kind is introsort, which is
    not stable, so the order of equal values is not specified: the class
    [ArgSort] states only what every argsort guarantees (a permutation of
    the indices, ascending by value).  [stable_argsort] is an instance
    (insertion sort, the kind numpy runs on short rows), on which the
    witnesses compute; it keeps equal values in index order, so its
    last index is the last maximal one ([stable_argsort_last]), where
    [np.argmax] gives the first. *)

From S2P Require Import Prelude.

Section row.
Context {K : Type} `{Scalar K}.

(** [row[i]] for an index known to be in range. *)
Definition row_at (l : list K) (i : nat) : K := nth i l szero.

(** Index [i] sorts before index [j] in the row [l]. *)
Definition idx_le (l : list K) (i j : nat) : Prop := row_at l i ≤ₛ row_at l j.
End row.

Class ArgSort (K : Type) `{Scalar K} := {
  argsort : list K → list nat;
  argsort_perm l : argsort l ≡ₚ seq 0 (length l);
  argsort_sorted l : Sorted (idx_le l) (argsort l)
}.

Section stable.
Context {K : Type} `{ScalarOrder K}.

(** Insert index [i] after every index whose value is [<=] its own. *)
Fixpoint ins_idx (l : list K) (i : nat) (s : list nat) : list nat :=
  match s with
  | [] => [i]
  | j :: s' =>
      if sleb (row_at l j) (row_at l i) then j :: ins_idx l i s' else i :: s
  end.

Definition stable_argsort (l : list K) : list nat :=
  fold_left (λ s i, ins_idx l i s) (seq 0 (length l)) [].

Lemma ins_idx_perm l i s : ins_idx l i s ≡ₚ i :: s.
Proof.
  induction s as [|j s IH]; simpl; [done|].
  destruct (sleb _ _); [|done]. rewrite IH. apply perm_swap.
Qed.

Lemma ins_idx_sorted l i s : Sorted (idx_le l) s → Sorted (idx_le l) (ins_idx l i s).
Proof.
  induction 1 as [|j s Hs IH Hhd]; simpl; [by repeat constructor|].
  destruct (sleb _ _) eqn:E.
  - constructor; [done|]. destruct s as [|j' s]; simpl in *.
    + by constructor.
    + inversion Hhd; subst. destruct (sleb (row_at l j') _); by constructor.
  - assert (idx_le l i j) by (apply sle_not; unfold sle; congruence).
    by constructor; [constructor|constructor].
Qed.

Lemma stable_argsort_perm l : stable_argsort l ≡ₚ seq 0 (length l).
Proof.
  unfold stable_argsort.
  enough (∀ s xs, fold_left (λ s i, ins_idx l i s) xs s ≡ₚ rev xs ++ s) as ->.
  { by rewrite app_nil_r, <-Permutation_rev. }
  intros s xs. revert s. induction xs as [|x xs IH]; intros s; simpl; [done|].
  by rewrite IH, ins_idx_perm, <-app_assoc.
Qed.

Lemma stable_argsort_sorted l : Sorted (idx_le l) (stable_argsort l).
Proof.
  unfold stable_argsort.
  enough (∀ s xs, Sorted (idx_le l) s →
            Sorted (idx_le l) (fold_left (λ s i, ins_idx l i s) xs s)) by auto.
  intros s xs. revert s. induction xs; simpl; auto using ins_idx_sorted.
Qed.

#[export] Instance stable_argsort_inst : ArgSort K := {|
  argsort := stable_argsort;
  argsort_perm := stable_argsort_perm;
  argsort_sorted := stable_argsort_sorted
|}.
End stable.

(** ** What every argsort gives: its last index is a maximum *)

Section argsort_facts.
Context {K : Type} `{ScalarOrder K} `{!ArgSort K}.

Lemma argsort_length l : length (argsort l) = length l.
Proof. by rewrite (Permutation_length (argsort_perm l)), length_seq. Qed.

Lemma argsort_nil l : argsort l = [] ↔ l = [].
Proof.
  split; intros Hl; [|subst; by apply length_zero_iff_nil; rewrite argsort_length].
  apply length_zero_iff_nil. by rewrite <-argsort_length, Hl.
Qed.

Lemma elem_of_argsort l i : i ∈ argsort l ↔ i < length l.
Proof. rewrite (argsort_perm l), elem_of_seq. lia. Qed.

Lemma idx_le_trans l : Relations_1.Transitive (idx_le l).
Proof. intros ???. unfold idx_le. apply sle_trans. Qed.

(** The last index of a strongly sorted list dominates every member. *)
Lemma StronglySorted_last {A} (R : A → A → Prop) (s : list A) j :
  StronglySorted R s → last s = Some j → ∀ x, x ∈ s → x ≠ j → R x j.
Proof.
  induction 1 as [|a s Hs IH Hall]; [done|]. intros Hj x Hx Hne.
  destruct s as [|b s]; simpl in Hj.
  - injection Hj as ->. by apply list_elem_of_singleton in Hx.
  - apply elem_of_cons in Hx as [->|Hx].
    + rewrite Forall_forall in Hall. apply Hall, last_In, Hj.
    + by apply IH.
Qed.

(** [np.argsort(row)[-1]] is an index of the row holding its maximum. *)
Lemma argsort_last_max l j :
  last (argsort l) = Some j →
  j < length l ∧ ∀ k, k < length l → row_at l k ≤ₛ row_at l j.
Proof.
  intros Hj. split; [apply elem_of_argsort, last_In, Hj|].
  intros k Hk. destruct (decide (k = j)) as [->|Hne]; [apply sle_refl|].
  eapply (StronglySorted_last (idx_le l)); eauto.
  - apply Sorted_StronglySorted; [apply idx_le_trans|apply argsort_sorted].
  - by apply elem_of_argsort.
Qed.
End argsort_facts.

(** ** [np.argmax]: the first index holding the maximum *)

Section argmax.
Context {K : Type} `{Scalar K}.

Fixpoint argmax_from (l : list K) (i best : nat) (bv : K) : nat :=
  match l with
  | [] => best
  | x :: l' =>
      if sleb x bv then argmax_from l' (S i) best bv else argmax_from l' (S i) i x
  end.

(** numpy raises [ValueError] on an empty sequence. *)
Definition np_argmax (l : list K) : res nat :=
  match l with
  | [] => raise ValueError
  | x :: l' => inr (argmax_from l' 1 0 x)
  end.
End argmax.

(** [j] is the first index of [l] holding its maximum. *)
Definition is_first_max {K} `{Scalar K} (l : list K) (j : nat) : Prop :=
  j < length l ∧ (∀ k, k < length l → row_at l k ≤ₛ row_at l j) ∧
  (∀ k, k < j → ¬ row_at l j ≤ₛ row_at l k).

Section argmax_facts.
Context {K : Type} `{ScalarOrder K}.

Lemma row_at_app_l (p l : list K) k : k < length p → row_at (p ++ l) k = row_at p k.
Proof. intros Hk. unfold row_at. by rewrite app_nth1. Qed.

Lemma row_at_snoc (p : list K) x : row_at (p ++ [x]) (length p) = x.
Proof. unfold row_at. rewrite app_nth2, Nat.sub_diag by lia. done. Qed.

(** The scan keeps the first maximum of the prefix it has read. *)
Lemma argmax_from_spec l pre best bv :
  best < length pre → row_at pre best = bv →
  (∀ k, k < length pre → row_at pre k ≤ₛ bv) →
  (∀ k, k < best → ¬ bv ≤ₛ row_at pre k) →
  is_first_max (pre ++ l) (argmax_from l (length pre) best bv).
Proof.
  revert pre best bv.
  induction l as [|x l IH]; intros pre best bv Hb Hbv Hmax Hfirst; cbn [argmax_from].
  { rewrite app_nil_r. subst bv. split_and!; auto. }
  replace (pre ++ x :: l) with ((pre ++ [x]) ++ l) by (by rewrite <-app_assoc).
  assert (S (length pre) = length (pre ++ [x])) as -> by (rewrite length_app; simpl; lia).
  assert (∀ k, k < length (pre ++ [x]) → k ≠ length pre → k < length pre) as Hlt
    by (intros k; rewrite length_app; simpl; lia).
  destruct (sleb x bv) eqn:Hxb; apply IH.
  - rewrite length_app. lia.
  - by rewrite row_at_app_l.
  - intros k Hk. destruct (decide (k = length pre)) as [->|Hne]; [by rewrite row_at_snoc|].
    rewrite row_at_app_l by auto. auto.
  - intros k Hk. rewrite row_at_app_l by lia. auto.
  - rewrite length_app. simpl. lia.
  - apply row_at_snoc.
  - assert (bv ≤ₛ x) as Hbx by (apply sle_not; unfold sle; by rewrite Hxb).
    intros k Hk. destruct (decide (k = length pre)) as [->|Hne]; [by rewrite row_at_snoc|].
    rewrite row_at_app_l by auto. eapply sle_trans; [apply Hmax|exact Hbx]. auto.
  - intros k Hk Hle. rewrite row_at_app_l in Hle by lia.
    assert (x ≤ₛ bv) as Hxb' by (eapply sle_trans; [exact Hle|apply Hmax; lia]).
    unfold sle in Hxb'. congruence.
Qed.

(** [np.argmax] returns the first maximal index of a non-empty row. *)
Lemma np_argmax_spec (l : list K) j : np_argmax l = inr j → is_first_max l j.
Proof.
  destruct l as [|x l]; [discriminate|]. intros [= <-].
  apply (argmax_from_spec l [x] 0 x); simpl; try done; [lia| |lia].
  intros k Hk. assert (k = 0) as -> by lia. apply sle_refl.
Qed.
End argmax_facts.

(** ** Ties under the stable argsort *)

(** [j] is the last index of [l] holding its maximum. *)
Definition is_last_max {K} `{Scalar K} (l : list K) (j : nat) : Prop :=
  j < length l ∧ (∀ k, k < length l → row_at l k ≤ₛ row_at l j) ∧
  (∀ k, j < k < length l → ¬ row_at l j ≤ₛ row_at l k).

Section stable_ties.
Context {K : Type} `{ScalarOrder K}.

(** [i] sorts before [j] and, when [j < i], strictly: equal values keep
    the order of their indices. *)
Definition idx_stable (l : list K) (i j : nat) : Prop :=
  idx_le l i j ∧ (j < i → ¬ idx_le l j i).

Lemma ins_idx_stable l i s :
  StronglySorted (idx_stable l) s → Forall (λ j, j < i) s →
  StronglySorted (idx_stable l) (ins_idx l i s).
Proof.
  induction 1 as [|j s Hs IH Hall]; intros Hlt; simpl; [by repeat constructor|].
  apply Forall_cons in Hlt as [Hji Hlt]. unfold idx_stable, idx_le in *.
  destruct (sleb (row_at l j) (row_at l i)) eqn:E.
  - constructor; [by apply IH|]. rewrite ins_idx_perm. constructor; [|done].
    split; [done|lia].
  - assert (¬ row_at l j ≤ₛ row_at l i) as Hn by (unfold sle; congruence).
    constructor; [by constructor|]. constructor; [split; [by apply sle_not|done]|].
    eapply Forall_impl; [exact Hall|]. intros b [Hjb _].
    split; [by eapply sle_trans; [apply sle_not|]|]. intros _ Hbi. apply Hn.
    by eapply sle_trans.
Qed.

Lemma stable_argsort_stable l : StronglySorted (idx_stable l) (stable_argsort l).
Proof.
  unfold stable_argsort.
  enough (∀ m k s, StronglySorted (idx_stable l) s → Forall (λ j, j < m) s →
            StronglySorted (idx_stable l) (fold_left (λ s i, ins_idx l i s) (seq m k) s)) as Hf
    by (apply (Hf 0); constructor).
  intros m k. revert m. induction k as [|k IH]; intros m s Hs Hlt; simpl; [done|].
  apply IH; [by apply ins_idx_stable|]. rewrite ins_idx_perm. constructor; [lia|].
  eapply Forall_impl; [exact Hlt|]. simpl. lia.
Qed.

(** The stable argsort ends with the last maximal index. *)
Lemma stable_argsort_last l j : last (stable_argsort l) = Some j → is_last_max l j.
Proof.
  intros Hj. pose proof (argsort_last_max (K:=K) l j) as Hl. destruct (Hl Hj) as [Hlt Hmax].
  split; [done|]. split; [done|]. intros k [Hjk Hk].
  pose proof (elem_of_argsort (K:=K) l k) as Hel.
  refine (proj2 (StronglySorted_last _ _ _ (stable_argsort_stable l) Hj k _ _) Hjk);
    [apply Hel; lia|lia].
Qed.

(** The first and the last maximal index of a row coincide exactly when
    its maximum is held once. *)
Lemma first_last_max (l : list K) a c :
  is_first_max l a → is_last_max l c →
  a ≤ c ∧ (a = c ↔ ∀ k, k < length l → k ≠ c → ¬ row_at l c ≤ₛ row_at l k).
Proof.
  intros (Ha & Hamax & Hafirst) (Hc & Hcmax & Hclast).
  assert (a ≤ c) as Hac.
  { destruct (decide (a ≤ c)) as [|Hca]; [done|]. exfalso. apply (Hafirst c); [lia|auto]. }
  split; [done|]. split.
  - intros -> k Hk Hne. destruct (decide (k < c)); [by apply Hafirst|]. apply Hclast. lia.
  - intros Huniq. destruct (decide (a = c)) as [|Hne]; [done|]. exfalso.
    by apply (Huniq a); [| |apply Hamax].
Qed.
End stable_ties.
