(* ===== verification/Sparse.v ===== *)
(** * Sparse: the scipy.sparse behaviour src/conealign.py relies on

    - [coo_matrix((data, (row, col)), shape=...)] (line 150): the index
      and length checks that raise [ValueError];
    - [.tocsr()] (line 151): every row's entries sorted by column, the
      entries of a repeated (row, col) position summed;
    - [csr_matrix(dense)] (lines 79-80, 180): the non-zero entries of each
      row, in column order;
    - [sps.find(m[i])] (line 124): the stored entries of row [i] whose
      value is non-zero, in column order;
    - [.todense()]: the dense matrix a CSR matrix stands for.

    A CSR matrix is modelled by its shape and, for every row, the pairs
    (column, value) of [indices[indptr[r]:indptr[r+1]]] and
    [data[indptr[r]:indptr[r+1]]].  [csr_wf] is the canonical-format
    invariant scipy keeps after [tocsr] (rows strictly sorted by column,
    columns in range). *)

From S2P Require Import Prelude.

Record csr (K : Type) := mk_csr {
  csr_shape : nat * nat;
  csr_rows : list (list (nat * K))
}.
Arguments mk_csr {K}.
Arguments csr_shape {K}.
Arguments csr_rows {K}.

Record coo (K : Type) := mk_coo {
  coo_shape : nat * nat;
  coo_entries : list (nat * nat * K)   (** (row, col, value) *)
}.
Arguments mk_coo {K}.
Arguments coo_shape {K}.
Arguments coo_entries {K}.

Section sparse.
Context {K : Type} `{Scalar K}.

(** [coo_matrix((data, (row, col)), shape=(n1, n2))]: the three arrays
    must have one length, and every index must lie within the shape. *)
Definition coo_matrix (data : list K) (row col : list nat) (shape : nat * nat)
    : res (coo K) :=
  if decide (length row = length data ∧ length col = length data) then
    if decide (Forall (λ r, r < shape.1) row ∧ Forall (λ c, c < shape.2) col)
    then inr (mk_coo shape (zip (zip row col) data))
    else raise ValueError
  else raise ValueError.

(** Add an entry to a row kept sorted by column, summing it into an
    entry already stored at the same column. *)
Fixpoint csr_insert (c : nat) (v : K) (r : list (nat * K)) : list (nat * K) :=
  match r with
  | [] => [(c, v)]
  | (c', v') :: r' =>
      if decide (c < c') then (c, v) :: r
      else if decide (c = c') then (c', sadd v' v) :: r'
      else (c', v') :: csr_insert c v r'
  end.

(** The canonical row built from the entries of one row, in order. *)
Definition csr_canon_row (es : list (nat * K)) : list (nat * K) :=
  fold_left (λ r '(c, v), csr_insert c v r) es [].

(** The (column, value) pairs of the COO entries that lie in row [r]. *)
Definition coo_row_entries (es : list (nat * nat * K)) (r : nat) : list (nat * K) :=
  omap (λ '(r', c, v), if decide (r' = r) then Some (c, v) else None) es.

(** [coo.tocsr()]. *)
Definition tocsr (m : coo K) : csr K :=
  mk_csr (coo_shape m)
    (map (λ r, csr_canon_row (coo_row_entries (coo_entries m) r))
         (seq 0 (coo_shape m).1)).

Definition nonzero (v : K) : bool := negb (seqb v szero).

(** [csr_matrix(A)] for a dense [A] with [n2] columns. *)
Definition csr_from_dense (n2 : nat) (A : list (list K)) : csr K :=
  mk_csr (length A, n2)
    (map (λ row, filter (λ cv, nonzero cv.2 = true) (zip (seq 0 (length row)) row)) A).

(** Row [i] of a CSR matrix, [m[i]]. *)
Definition csr_row (m : csr K) (i : nat) : list (nat * K) := nth i (csr_rows m) [].

(** [sps.find(m[i])]: the stored non-zero entries of row [i]. *)
Definition sps_find_row (m : csr K) (i : nat) : list (nat * K) :=
  filter (λ cv, nonzero cv.2 = true) (csr_row m i).

(** The value at column [j] of a sparse row, zero when nothing is stored. *)
Fixpoint row_lookup (r : list (nat * K)) (j : nat) : K :=
  match r with
  | [] => szero
  | (c, v) :: r' => if decide (c = j) then v else row_lookup r' j
  end.

(** [m.todense()]. *)
Definition todense (m : csr K) : list (list K) :=
  map (λ r, map (row_lookup r) (seq 0 (csr_shape m).2)) (csr_rows m).

(** The canonical CSR format: one row per matrix row, each row strictly
    increasing in column, every column within the shape. *)
Definition col_lt (a b : nat * K) : Prop := a.1 < b.1.

Definition csr_row_wf (n2 : nat) (r : list (nat * K)) : Prop :=
  StronglySorted col_lt r ∧ Forall (λ cv, cv.1 < n2) r.

Definition csr_wf (m : csr K) : Prop :=
  length (csr_rows m) = (csr_shape m).1 ∧ Forall (csr_row_wf (csr_shape m).2) (csr_rows m).
End sparse.

Section sparse_facts.
Context {K : Type} `{Scalar K}.

Lemma col_lt_asym (a b : nat * K) : col_lt a b → col_lt b a → False.
Proof. unfold col_lt. lia. Qed.

(** A property of columns holding of [c] and of the row holds after
    the insertion. *)
Lemma csr_insert_Forall (P : nat → Prop) c v r :
  P c → Forall (λ cv, P cv.1) r → Forall (λ cv, P cv.1) (csr_insert c v r).
Proof.
  intros Hc Hr. induction Hr as [|[c' v'] r' Hc' Hr IH]; simpl; [by constructor|].
  repeat case_decide; subst; repeat constructor; auto.
Qed.

Lemma csr_insert_sorted c v r :
  StronglySorted col_lt r → StronglySorted col_lt (csr_insert c v r).
Proof.
  induction 1 as [|[c' v'] r' Hr IH Hall]; simpl; [by repeat constructor|].
  repeat case_decide; subst.
  - constructor; [by constructor|]. constructor; [done|].
    eapply Forall_impl; [exact Hall|]. unfold col_lt; simpl; intros; lia.
  - by constructor.
  - constructor; [done|]. apply (csr_insert_Forall (λ x, c' < x)); [lia|done].
Qed.

Lemma csr_insert_fresh c v r :
  c ∉ r.*1 → csr_insert c v r ≡ₚ (c, v) :: r.
Proof.
  induction r as [|[c' v'] r IH]; simpl; intros Hc; [done|].
  repeat case_decide; subst; [done|set_solver|].
  rewrite IH by set_solver. apply perm_swap.
Qed.

Lemma csr_canon_row_gen (P : nat → Prop) es acc :
  Forall (λ cv, P cv.1) es → Forall (λ cv, P cv.1) acc →
  StronglySorted col_lt acc →
  Forall (λ cv, P cv.1) (fold_left (λ r '(c, v), csr_insert c v r) es acc) ∧
  StronglySorted col_lt (fold_left (λ r '(c, v), csr_insert c v r) es acc).
Proof.
  revert acc. induction es as [|[c v] es IH]; intros acc Hes Hacc Hs; simpl; [done|].
  inversion Hes; subst.
  apply IH; auto using csr_insert_Forall, csr_insert_sorted.
Qed.

Lemma csr_canon_row_sorted es : StronglySorted col_lt (csr_canon_row es).
Proof.
  apply (csr_canon_row_gen (λ _, True)); [|constructor|constructor].
  apply Forall_forall. done.
Qed.

(** [tocsr] rows are canonical: strictly sorted, columns in range. *)
Lemma csr_canon_row_wf n2 es :
  Forall (λ cv, cv.1 < n2) es → csr_row_wf n2 (csr_canon_row es).
Proof.
  intros Hes. destruct (csr_canon_row_gen (λ c, c < n2) es []) as [? ?];
    [done|constructor|constructor|]. by split.
Qed.

(** With distinct columns nothing is summed: the canonical row is a
    reordering of the entries. *)
Lemma csr_canon_row_perm es :
  NoDup es.*1 → csr_canon_row es ≡ₚ es.
Proof.
  unfold csr_canon_row.
  enough (∀ acc, NoDup (es.*1 ++ acc.*1) →
            fold_left (λ r '(c, v), csr_insert c v r) es acc ≡ₚ rev es ++ acc) as He.
  { intros Hnd. rewrite He, app_nil_r; [by rewrite <-Permutation_rev|]. by rewrite app_nil_r. }
  induction es as [|[c v] es IH]; intros acc Hnd; simpl; [done|].
  simpl in Hnd. apply NoDup_cons in Hnd as [Hc Hnd].
  assert (csr_insert c v acc ≡ₚ (c, v) :: acc) as Hins.
  { apply csr_insert_fresh. set_solver. }
  rewrite IH, Hins, <-app_assoc; [done|].
  rewrite (fmap_Permutation fst _ _ Hins). simpl.
  rewrite <-Permutation_middle. by constructor.
Qed.
End sparse_facts.

Section sparse_theorems.
Context {K : Type} `{Scalar K}.

Lemma coo_row_entries_Forall (P : nat → Prop) (es : list (nat * nat * K)) r :
  Forall (λ e, P e.1.2) es → Forall (λ cv, P cv.1) (coo_row_entries es r).
Proof.
  induction 1 as [|[[r' c] v] es Hc Hes IH]; simpl; [constructor|].
  case_decide; [by constructor|done].
Qed.

(** The entries of a validated COO matrix have their columns in range. *)
Lemma coo_matrix_cols (data : list K) row col (shape : nat * nat) m :
  coo_matrix data row col shape = inr m →
  coo_shape m = shape ∧ Forall (λ e : nat * nat * K, e.1.2 < shape.2) (coo_entries m).
Proof.
  unfold coo_matrix, raise. repeat case_decide; intros Hm; try discriminate.
  injection Hm as <-. split; [done|]. simpl.
  apply (Forall_zip_fst (λ rc : nat * nat, rc.2 < shape.2)), (Forall_zip_snd (λ c, c < shape.2)). naive_solver.
Qed.

(** A matrix built by [coo_matrix(...).tocsr()] (line 150-151) is
    in canonical CSR format: one row per matrix row, each row strictly
    increasing in column (duplicates summed), every column within the
    shape. *)
Theorem tocsr_wf data row col shape m :
  coo_matrix data row col shape = inr m → csr_wf (tocsr m).
Proof.
  intros Hm. apply coo_matrix_cols in Hm as [Hsh Hcols].
  split; simpl; [by rewrite length_map, length_seq|].
  apply Forall_map, Forall_forall. intros r _.
  apply csr_canon_row_wf, (coo_row_entries_Forall (λ c, c < (coo_shape m).2)). by rewrite Hsh.
Qed.

Context `{!ScalarLaws K}.

Lemma row_lookup_absent r j :
  Forall (λ cv, j < cv.1) r → row_lookup r j = szero.
Proof.
  induction 1 as [|[c v] r Hc Hr IH]; simpl in *; [done|].
  case_decide; [lia|done].
Qed.

Lemma dense_row_roundtrip k (row : list K) :
  map (row_lookup (filter (λ cv, nonzero cv.2 = true) (zip (seq k (length row)) row)))
      (seq k (length row)) = row.
Proof.
  revert k. induction row as [|x row IH]; intros k; [done|]. simpl.
  assert (Forall (λ cv, k < cv.1)
            (filter (λ cv, nonzero cv.2 = true) (zip (seq (S k) (length row)) row)))
    as Hrest.
  { apply Forall_filter_l, (Forall_zip_fst (λ c, k < c)), Forall_seq. lia. }
  rewrite filter_cons. case_decide as Hnz; simpl.
  - rewrite decide_True by done. f_equal. rewrite <-(IH (S k)) at 2.
    apply map_ext_in. intros j Hj%list_elem_of_In%elem_of_seq. simpl.
    case_decide; [lia|done].
  - rewrite (row_lookup_absent _ k Hrest). unfold nonzero in Hnz. simpl in Hnz.
    apply not_true_iff_false, negb_false_iff, seqb_eq in Hnz as ->.
    f_equal. apply IH.
Qed.

Lemma csr_from_dense_todense n2 (A : list (list K)) :
  Forall (λ row, length row = n2) A → todense (csr_from_dense n2 A) = A.
Proof.
  intros HA. unfold todense, csr_from_dense. simpl. rewrite map_map.
  induction HA as [|row A Hrow HA IH]; simpl; [done|].
  rewrite IH, <-Hrow. f_equal. apply dense_row_roundtrip.
Qed.

End sparse_theorems.

Section coo_rows.
Context {K : Type}.

Lemma coo_row_entries_app (l1 l2 : list (nat * nat * K)) r :
  coo_row_entries (l1 ++ l2) r = coo_row_entries l1 r ++ coo_row_entries l2 r.
Proof. apply omap_app. Qed.

Lemma coo_row_entries_cons rr c (v : K) es r :
  coo_row_entries ((rr, c, v) :: es) r =
    if decide (rr = r) then (c, v) :: coo_row_entries es r else coo_row_entries es r.
Proof. unfold coo_row_entries. simpl. by case_decide. Qed.

(** The entries of one block of rows [s] (the COO arrays of one query). *)
Lemma coo_row_entries_block k s (I : list nat) (D : list K) r :
  length I = k → length D = k →
  coo_row_entries (zip (zip (replicate k s) I) D) r = if decide (s = r) then zip I D else [].
Proof.
  revert k D. induction I as [|c I IH]; intros k [|v D] HI HD; subst k;
    simpl in HD; try discriminate.
  { by case_decide. }
  cbn [length replicate zip_with]. rewrite coo_row_entries_cons, (IH (length I) D) by lia.
  by case_decide.
Qed.

(** The entries of row [r] of consecutive blocks of [k] entries, the
    block of index [i] holding row [s + i]. *)
Lemma coo_row_entries_blocks k s (blocks : list (list nat * list K)) r :
  Forall (λ b, length b.1 = k ∧ length b.2 = k) blocks →
  coo_row_entries (zip (zip (concat (map (λ i, replicate k i) (seq s (length blocks))))
                            (concat (map fst blocks))) (concat (map snd blocks))) r =
  if decide (s ≤ r) then default [] ((λ b, zip b.1 b.2) <$> blocks !! (r - s)) else [].
Proof.
  revert s. induction blocks as [|[I D] bs IH]; intros s Hb; simpl.
  { by case_decide. }
  apply Forall_cons in Hb as [[HI HD] Hb]; simpl in HI, HD.
  rewrite !zip_with_app by (rewrite ?length_zip_with, ?length_replicate; lia).
  rewrite coo_row_entries_app, (coo_row_entries_block k) by done.
  rewrite IH by done.
  destruct (decide (s = r)) as [<-|Hne].
  - rewrite decide_False by lia. rewrite decide_True by lia.
    by rewrite Nat.sub_diag, app_nil_r.
  - repeat case_decide; try lia; simpl; [|done].
    by replace (r - s) with (S (r - S s)) by lia.
Qed.
End coo_rows.

Section tocsr_rows.
Context {K : Type} `{Scalar K}.

Lemma csr_row_tocsr (m : coo K) r :
  r < (coo_shape m).1 → csr_row (tocsr m) r = csr_canon_row (coo_row_entries (coo_entries m) r).
Proof.
  intros Hr. unfold csr_row, tocsr. simpl.
  rewrite nth_lookup, list_lookup_fmap, lookup_seq_lt by done. done.
Qed.

(** [tocsr] is canonical as soon as the columns are within the shape. *)
Lemma tocsr_wf_entries (m : coo K) :
  Forall (λ e : nat * nat * K, e.1.2 < (coo_shape m).2) (coo_entries m) → csr_wf (tocsr m).
Proof.
  intros Hcols. split; simpl; [by rewrite length_map, length_seq|].
  apply Forall_map, Forall_forall. intros r _.
  by apply csr_canon_row_wf, (coo_row_entries_Forall (λ c, c < (coo_shape m).2)).
Qed.
End tocsr_rows.
