(* ===== verification/Config.v ===== *)
(** * Config: [parse_args] (src/conealign.py, lines 18-60)

    argparse's [Namespace] is a dictionary from option names to values;
    it is modelled as a [gmap string arg_value].  [parser_spec] lists the
    options the parser declares, each with its kind ([type=int],
    [type=float], a string with [nargs='?'], or [action='store_true']) and
    its default.  [parse_args] starts from the defaults and applies the
    options of the command line in order (a later occurrence overrides an
    earlier one); an unknown option or a value of the wrong kind makes
    argparse exit ([SystemExit]).  Command-line values are taken already
    converted by their [type=] (the string-to-number conversion and
    option-prefix abbreviations are not modelled).  Floats are rationals
    here: the options are only passed on to [unsup_align]. *)

From S2P Require Import Prelude.
From stdpp Require Import strings.
From Stdlib Require Import QArith.
Local Open Scope string_scope.

Inductive arg_value :=
  | AStr (s : string)
  | AInt (n : Z)
  | AFloat (q : Q)
  | ABool (b : bool)
  | ANone.

(** How argparse handles an option. *)
Inductive arg_kind :=
  | KStr     (** [nargs='?']: a string, or [None] when given without value *)
  | KInt     (** [type=int] *)
  | KFloat   (** [type=float] *)
  | KFlag.   (** [action='store_true'] *)

Abbreviation namespace := (gmap string arg_value).

(** Lines 21-58: the declared options, their kinds and defaults. *)
Definition parser_spec : list (string * arg_kind * arg_value) := [
  ("true_align", KStr,
    AStr "data/synthetic-combined/arenas/arenas950-1/arenas_edges-mapping-permutation.txt");
  ("combined_graph", KStr,
    AStr "data/synthetic-combined/arenas/arenas950-1/arenas_combined_edges.txt");
  ("output_stats", KStr, AStr "output/stats/arenas/arenas950-1.log");
  ("store_align", KFlag, ABool false);
  ("output_alignment", KStr, AStr "output/alignment_matrix/arenas/arenas950-1");
  ("embmethod", KStr, AStr "netMF");
  ("rank", KInt, AInt 256);
  ("dim", KInt, AInt 128);
  ("window", KInt, AInt 10);
  ("negative", KFloat, AFloat 1);
  ("store_emb", KFlag, ABool false);
  ("embeddingA", KStr, AStr "emb/netMF/arenas/arenas950-1.graph1.npy");
  ("embeddingB", KStr, AStr "emb/netMF/arenas/arenas950-1.graph2.npy");
  ("niter_init", KInt, AInt 10);
  ("reg_init", KFloat, AFloat 1);
  ("nepoch", KInt, AInt 5);
  ("niter_align", KInt, AInt 10);
  ("reg_align", KFloat, AFloat (5 # 100));
  ("bsz", KInt, AInt 10);
  ("lr", KFloat, AFloat 1);
  ("embsim", KStr, AStr "euclidean");
  ("alignmethod", KStr, AStr "greedy");
  ("numtop", KInt, AInt 10)
]%Z.

(** The value an option of this kind can hold once parsed. *)
Definition value_fits (k : arg_kind) (v : arg_value) : Prop :=
  match k, v with
  | KStr, (AStr _ | ANone) => True
  | KInt, AInt _ => True
  | KFloat, AFloat _ => True
  | KFlag, ABool _ => True
  | _, _ => False
  end.

(** The kind argparse registered for an option name. *)
Definition kind_of (name : string) : option arg_kind :=
  match List.find (λ e, bool_decide (e.1.1 = name)) parser_spec with
  | Some (_, k, _) => Some k
  | None => None
  end.

(** One option of the command line: its name and its value, [None] when
    the option is given without a value. *)
Definition apply_option (ns : namespace) (opt : string * option arg_value) : res namespace :=
  let '(name, given) := opt in
  match kind_of name, given with
  | Some KFlag, None => inr (<[name := ABool true]> ns)
  | Some KStr, None => inr (<[name := ANone]> ns)
  | Some KStr, Some (AStr s) => inr (<[name := AStr s]> ns)
  | Some KInt, Some (AInt n) => inr (<[name := AInt n]> ns)
  | Some KFloat, Some (AFloat q) => inr (<[name := AFloat q]> ns)
  | Some KFloat, Some (AInt n) => inr (<[name := AFloat (inject_Z n)]> ns)
  | _, _ => raise SystemExit
  end.

(** What argparse accepts for an option of kind [k]: a flag takes no
    value, [nargs='?'] a string or nothing, [type=int] an int,
    [type=float] a float or an int. *)
Definition option_accepted (k : arg_kind) (given : option arg_value) : bool :=
  match k, given with
  | KFlag, None | KStr, None | KStr, Some (AStr _) | KInt, Some (AInt _)
  | KFloat, Some (AFloat _) | KFloat, Some (AInt _) => true
  | _, _ => false
  end.

(** The defaults of every declared option. *)
Definition default_namespace : namespace :=
  list_to_map ((λ '(name, _, d), (name, d)) <$> parser_spec).

(** Lines 18-60. *)
Definition parse_args (argv : list (string * option arg_value)) : res namespace :=
  foldl (λ acc opt, ns ← acc; apply_option ns opt) (inr default_namespace) argv.

#[export] Instance Q_eq_dec : EqDecision Q.
Proof. intros [a b] [c d]. destruct (decide (a = c)), (decide (b = d)); subst;
  [left; done|right; congruence..]. Defined.
#[export] Instance arg_value_eq_dec : EqDecision arg_value.
Proof. solve_decision. Defined.
#[export] Instance arg_kind_eq_dec : EqDecision arg_kind.
Proof. solve_decision. Defined.

#[export] Instance value_fits_dec k v : Decision (value_fits k v).
Proof. destruct k, v; simpl; apply _. Defined.

(** [args.<name>] for an int option. *)
Definition arg_int (ns : namespace) (name : string) : option Z :=
  match ns !! name with Some (AInt n) => Some n | _ => None end.

(** [args.<name>] for a float option. *)
Definition arg_float (ns : namespace) (name : string) : option Q :=
  match ns !! name with Some (AFloat q) => Some q | _ => None end.

(** Every declared option holds a value of its kind. *)
Definition ns_wf (ns : namespace) : Prop :=
  Forall (λ '(name, k, _), ∃ v, ns !! name = Some v ∧ value_fits k v) parser_spec.

Definition ns_wfb (ns : namespace) : bool :=
  forallb (λ '(name, k, _),
    match ns !! name with Some v => bool_decide (value_fits k v) | None => false end)
    parser_spec.

Lemma ns_wfb_spec ns : ns_wfb ns = true → ns_wf ns.
Proof.
  unfold ns_wfb, ns_wf. rewrite forallb_forall, Forall_forall.
  intros Hall [[name k] d] Hin. apply list_elem_of_In, Hall in Hin.
  destruct (ns !! name) as [v|]; [|discriminate].
  exists v. split; [done|]. by apply bool_decide_eq_true in Hin.
Qed.

Lemma default_namespace_wf : ns_wf default_namespace.
Proof. apply ns_wfb_spec. vm_compute. reflexivity. Qed.

(** The option table maps every declared name to its own kind. *)
Lemma kind_of_spec : Forall (λ '(name, k, _), kind_of name = Some k) parser_spec.
Proof. vm_compute. repeat constructor. Qed.

Lemma apply_option_wf ns opt ns' :
  ns_wf ns → apply_option ns opt = inr ns' → ns_wf ns'.
Proof.
  destruct opt as [name given]. unfold ns_wf. intros Hwf Happ.
  pose proof kind_of_spec as Hkinds. rewrite Forall_forall in Hwf, Hkinds |- *.
  intros [[n k] d] Hin. specialize (Hkinds _ Hin). specialize (Hwf _ Hin). simpl in *.
  unfold apply_option in Happ.
  destruct (decide (n = name)) as [<-|Hne].
  - rewrite Hkinds in Happ.
    destruct k, given as [[]|]; try discriminate; injection Happ as <-;
      rewrite lookup_insert_eq; eexists; split; done.
  - destruct (kind_of name) as [[]|], given as [[]|]; try discriminate;
      injection Happ as <-; by rewrite lookup_insert_ne.
Qed.

Lemma parse_args_wf_gen argv ns : parse_args argv = inr ns → ns_wf ns.
Proof.
  unfold parse_args.
  enough (∀ acc, (∀ ns, acc = inr ns → ns_wf ns) →
            ∀ ns, foldl (λ acc opt, ns ← acc; apply_option ns opt) acc argv = inr ns →
            ns_wf ns) as Hgen.
  { apply Hgen. intros ? [= <-]. apply default_namespace_wf. }
  induction argv as [|opt argv IH]; intros acc Hacc ns'; simpl; [apply Hacc|].
  apply IH. intros ns'' Hstep. destruct acc as [e|ns0]; [discriminate|].
  eapply apply_option_wf; [by apply Hacc|exact Hstep].
Qed.

(** One option raises, and raises [SystemExit], exactly when its name
    is unknown or its value is not one argparse accepts for its kind,
    whatever the namespace so far. *)
Lemma apply_option_err ns name given e :
  apply_option ns (name, given) = inl e ↔
  e = SystemExit ∧ match kind_of name with Some k => option_accepted k given = false | None => True end.
Proof.
  unfold apply_option, raise.
  destruct (kind_of name) as [[]|], given as [[]|]; simpl; split;
    solve [intros [=]; auto | intros [-> ?]; done || discriminate].
Qed.

(** A well-formed namespace holds an integer [numtop]. *)
Lemma ns_wf_numtop ns : ns_wf ns → ∃ n, ns !! "numtop" = Some (AInt n).
Proof.
  unfold ns_wf. rewrite Forall_forall. intros Hwf.
  assert (("numtop", KInt, AInt 10%Z) ∈ parser_spec) as Hin
    by (unfold parser_spec; repeat constructor).
  destruct (Hwf _ Hin) as ([] & Hv & Hfit); simpl in Hfit; try done. eauto.
Qed.

(** C35: [parse_args] raises exactly when some option of the command
    line has an unknown name, a value given to a [store_true] flag, or a
    value of another type than the option's [type=] ([int] for a
    [type=float] option being accepted), and it then raises argparse's
    [SystemExit], before [main] runs. *)
Theorem parse_args_error argv e :
  parse_args argv = inl e ↔
  e = SystemExit ∧ ∃ name given, (name, given) ∈ argv ∧
    match kind_of name with Some k => option_accepted k given = false | None => True end.
Proof.
  unfold parse_args. generalize default_namespace as ns0.
  induction argv as [|[name given] argv IH]; intros ns0; cbn [foldl].
  { split; [discriminate|]. intros (_ & ? & ? & Hin & _). by apply elem_of_nil in Hin. }
  rewrite res_bind_inr. destruct (apply_option ns0 (name, given)) as [e'|ns1] eqn:Ha.
  - rewrite foldl_res_inl. apply apply_option_err in Ha as [-> Hrej].
    split; [intros [= <-]; split; [done|]; exists name, given; split; [left|done]|].
    by intros [-> _].
  - rewrite IH. split.
    + intros [-> (n & g & Hin & Hrej)]. split; [done|]. exists n, g. split; [by right|done].
    + intros [-> (n & g & Hin & Hrej)]. split; [done|]. exists n, g. split; [|done].
      apply elem_of_cons in Hin as [[= -> ->]|]; [|done].
      exfalso. destruct (apply_option_err ns0 name given SystemExit) as [_ Hb].
      rewrite Hb in Ha; [discriminate|done].
Qed.

(** C12: after any successful parse every option the parser declares
    holds a value of its declared kind (an int for [type=int], a string
    or [None] for [nargs='?'], a bool for [store_true]). *)
Theorem parse_args_wf argv ns : parse_args argv = inr ns → ns_wf ns.
Proof. apply parse_args_wf_gen. Qed.

(** C13: [args.numtop] is always an integer after parsing, so the
    all-pairs branch of [align_embeddings] ([args.numtop is None],
    line 101) cannot be reached from the command line, although the help
    text of [--numtop] says "If None, computes all pairwise similarities". *)
Theorem parse_args_numtop argv ns :
  parse_args argv = inr ns → ∃ n, arg_int ns "numtop" = Some n.
Proof.
  intros Hp. destruct (ns_wf_numtop ns (parse_args_wf_gen _ _ Hp)) as [n Hn].
  exists n. unfold arg_int. by rewrite Hn.
Qed.

(** C14: [parse_args] checks no range: any integer, zero or negative, is
    accepted for an int option such as [--bsz] or [--numtop], whereas the
    spec (section 6) requires a configuration error before computing. *)
Theorem parse_args_no_range_check name n :
  kind_of name = Some KInt →
  parse_args [(name, Some (AInt n))] = inr (<[name := AInt n]> default_namespace).
Proof. intros Hk. unfold parse_args. simpl. unfold apply_option. by rewrite Hk. Qed.

Lemma parse_args_wf_witness :
  parse_args [("numtop", Some (AInt 5)); ("embsim", None)] =
    inr (<["embsim" := ANone]> (<["numtop" := AInt 5]> default_namespace)) ∧
  ns_wf (<["embsim" := ANone]> (<["numtop" := AInt 5]> default_namespace)).
Proof.
  assert (parse_args [("numtop", Some (AInt 5)); ("embsim", None)] =
            inr (<["embsim" := ANone]> (<["numtop" := AInt 5]> default_namespace))) as Hp
    by (vm_compute; reflexivity).
  split; [exact Hp|]. exact (parse_args_wf _ _ Hp).
Defined.

Lemma parse_args_numtop_witness :
  parse_args [("numtop", Some (AInt 5))] = inr (<["numtop" := AInt 5]> default_namespace) ∧
  ∃ n, arg_int (<["numtop" := AInt 5]> default_namespace) "numtop" = Some n.
Proof.
  assert (parse_args [("numtop", Some (AInt 5))] =
            inr (<["numtop" := AInt 5]> default_namespace)) as Hp by (vm_compute; reflexivity).
  split; [exact Hp|]. exact (parse_args_numtop _ _ Hp).
Defined.

Lemma parse_args_no_range_check_witness :
  kind_of "bsz" = Some KInt ∧
  parse_args [("bsz", Some (AInt (-1)))] = inr (<["bsz" := AInt (-1)]> default_namespace).
Proof.
  assert (kind_of "bsz" = Some KInt) as Hk by (vm_compute; reflexivity).
  split; [exact Hk|]. exact (parse_args_no_range_check "bsz" (-1) Hk).
Defined.

Lemma parse_args_error_witness :
  parse_args [("numtop", Some (AStr "x"))] = inl SystemExit.
Proof.
  apply (proj2 (parse_args_error _ _)). split; [done|].
  exists "numtop", (Some (AStr "x")). split; [left|reflexivity].
Defined.
