(* ===== verification/Evaluator.v ===== *)
(** * Evaluator: [get_counterpart] and the score (src/conealign.py, 110-133, 186)

    The alignment matrix is either a dense numpy array or a scipy CSR
    matrix ([align_matrix]); [get_counterpart] branches on
    [sps.issparse].  The loop over the nodes threads the pair
    ([correct_nodes], [counterpart_dict]) through [counterpart_step]; an
    exception in any iteration aborts the whole call.  The dict is a
    [gmap nat nat].

    For a node [i] the code ranks the candidate columns ascending by
    score: the dense path reads row [i] of [np.argsort(alignment_matrix)],
    the sparse path sorts the stored non-zero entries of row [i]
    ([sps.find]) by value.  The counterpart is the last column of that
    ranking ([node_sorted_indices[-1]], an [IndexError] when the ranking
    is empty) and the node is correct when its target is in
    [node_sorted_indices[-1:]].  The ground truth is what [pickle.load]
    returns ([py_truth]): a list or array, read past its end with
    [IndexError], or a dict, read at a missing node with [KeyError]. *)

From S2P Require Import Prelude ArgSort Sparse.

Inductive align_matrix (K : Type) :=
  | DenseM (rows : list (list K))
  | SparseM (m : csr K).
Arguments DenseM {K}.
Arguments SparseM {K}.

(** The ground truth [pickle.load] returns (line 157): a list or 1-D
    array of counterparts, or a dict from nodes to counterparts.  A list
    stands for itself where a ground truth is expected. *)
Inductive py_truth :=
  | TList (l : list nat)
  | TDict (d : gmap nat nat).
Coercion TList : list >-> py_truth.

Section get_counterpart.
Context {K : Type} `{Scalar K} `{!ArgSort K}.

(** [alignment_matrix.shape[0]]. *)
Definition am_nrows (am : align_matrix K) : nat :=
  match am with DenseM rows => length rows | SparseM m => (csr_shape m).1 end.

(** Lines 116-117: [np.argsort] of every row, computed for a dense
    matrix only. *)
Definition dense_sorted_indices (am : align_matrix K) : list (list nat) :=
  match am with DenseM rows => map argsort rows | SparseM _ => [] end.

(** Lines 123-127: the candidate columns of node [i], ascending by score. *)
Definition node_sorted_indices (am : align_matrix K) (sorted_indices : list (list nat))
    (i : nat) : list nat :=
  match am with
  | SparseM m =>
      let found := sps_find_row m i in
      let possible_alignments := found.*1 in
      let possible_values := found.*2 in
      map (λ k, nth k possible_alignments 0) (argsort possible_values)
  | DenseM _ => nth i sorted_indices []
  end.

(** Lines 120-122: the target of node [i]: itself without ground truth,
    [int(true_alignments[i])] otherwise, on a list or array ([IndexError]
    past its end) or on a dict ([KeyError] for a missing node). *)
Definition target_of (true_alignments : option py_truth) (i : nat) : res nat :=
  match true_alignments with
  | None => inr i
  | Some (TList l) => py_get l i
  | Some (TDict d) => py_dict_get d i
  end.

(** Lines 120-131: one iteration of the loop. *)
Definition counterpart_step (am : align_matrix K) (sorted_indices : list (list nat))
    (true_alignments : option py_truth) (st : list nat * gmap nat nat) (i : nat)
    : res (list nat * gmap nat nat) :=
  let '(correct_nodes, counterpart_dict) := st in
  target_alignment ← target_of true_alignments i;
  let node_sorted := node_sorted_indices am sorted_indices i in
  let correct_nodes' :=
    if decide (target_alignment ∈ py_last_slice node_sorted)
    then correct_nodes ++ [i] else correct_nodes in
  counterpart ← py_last node_sorted;
  mret (correct_nodes', <[i := counterpart]> counterpart_dict).

(** Line 119: [for node_index in range(n_nodes)]. *)
Fixpoint counterpart_loop (am : align_matrix K) (sorted_indices : list (list nat))
    (true_alignments : option py_truth) (nodes : list nat)
    (st : list nat * gmap nat nat) : res (list nat * gmap nat nat) :=
  match nodes with
  | [] => inr st
  | i :: rest =>
      st' ← counterpart_step am sorted_indices true_alignments st i;
      counterpart_loop am sorted_indices true_alignments rest st'
  end.

(** Lines 110-133. *)
Definition get_counterpart (am : align_matrix K) (true_alignments : option py_truth)
    : res (list nat * gmap nat nat) :=
  let n_nodes := am_nrows am in
  let sorted_indices := dense_sorted_indices am in
  counterpart_loop am sorted_indices true_alignments (seq 0 n_nodes) ([], ∅).

(** ** Derived notions the theorems speak about *)

(** The ranking the loop reads for node [i]. *)
Definition node_candidates (am : align_matrix K) (i : nat) : list nat :=
  node_sorted_indices am (dense_sorted_indices am) i.

(** The counterpart of node [i], when its ranking is not empty. *)
Definition counterpart_of (am : align_matrix K) (i : nat) : option nat :=
  last (node_candidates am i).

(** Node [i] is counted as correct. *)
Definition is_correct (am : align_matrix K) (ta : option py_truth) (i : nat) : bool :=
  match target_of ta i, counterpart_of am i with
  | inr t, Some c => bool_decide (t = c)
  | _, _ => false
  end.

(** Node [i] can be processed without an exception. *)
Definition node_ok (am : align_matrix K) (ta : option py_truth) (i : nat) : Prop :=
  (∃ t, target_of ta i = inr t) ∧ node_candidates am i ≠ [].

(** The exception node [i] raises when it is not [node_ok]: that of the
    lookup of its target (line 122) first, else that of
    [node_sorted_indices[-1]] (line 130). *)
Definition node_error (am : align_matrix K) (ta : option py_truth) (i : nat) : py_error :=
  match target_of ta i with inl e => e | inr _ => IndexError end.
End get_counterpart.

Section loop_facts.
Context {K : Type} `{Scalar K} `{!ArgSort K}.
Implicit Types (am : align_matrix K) (ta : option py_truth).

#[global] Instance node_ok_dec am ta i : Decision (node_ok am ta i).
Proof.
  unfold node_ok. destruct (target_of ta i) as [e|t].
  - right. intros [[t Ht] _]. discriminate.
  - destruct (decide (node_candidates am i = [])); [right; naive_solver|left; eauto].
Defined.


Lemma counterpart_step_ok am ta c d i t x :
  target_of ta i = inr t → counterpart_of am i = Some x →
  counterpart_step am (dense_sorted_indices am) ta (c, d) i =
    inr (if is_correct am ta i then c ++ [i] else c, <[i := x]> d).
Proof.
  intros Ht Hx. unfold is_correct. rewrite Ht, Hx.
  unfold counterpart_of, node_candidates in Hx. simpl. rewrite Ht. simpl.
  rewrite (py_last_slice_last _ _ Hx). unfold py_last. rewrite Hx. simpl.
  repeat f_equal.
  case_decide as Hin; case_bool_decide as Heq; try done;
    rewrite list_elem_of_singleton in Hin; congruence.
Qed.

Lemma counterpart_step_err am ta st i e :
  counterpart_step am (dense_sorted_indices am) ta st i = inl e ↔
  ¬ node_ok am ta i ∧ e = node_error am ta i.
Proof.
  destruct st as [c d]. unfold node_ok, node_error, node_candidates. simpl.
  destruct (target_of ta i) as [e'|t] eqn:Ht; simpl.
  - split; [intros [= <-]; naive_solver|]. by intros [_ ->].
  - destruct (py_last _) as [e'|x] eqn:Hl; simpl.
    + apply py_last_err in Hl as [Hnil ->]. naive_solver.
    + apply py_last_ok, last_Some in Hl as [l' Hl]. rewrite Hl.
      split; [discriminate|]. intros [[] _]. split; [eauto|]. by destruct l'.
Qed.

Lemma counterpart_step_inr am ta st i :
  node_ok am ta i → ∃ st', counterpart_step am (dense_sorted_indices am) ta st i = inr st'.
Proof.
  intros Hok. destruct (counterpart_step _ _ ta st i) as [e|st'] eqn:Hs; [|by eexists].
  by apply counterpart_step_err in Hs as [? _].
Qed.

Lemma counterpart_loop_ok am ta nodes c d :
  Forall (node_ok am ta) nodes →
  ∃ d', counterpart_loop am (dense_sorted_indices am) ta nodes (c, d) =
          inr (c ++ filter (λ i, is_correct am ta i = true) nodes, d') ∧
        ∀ j, d' !! j = if decide (j ∈ nodes) then counterpart_of am j else d !! j.
Proof.
  revert c d. induction nodes as [|i nodes IH]; intros c d Hok; cbn [counterpart_loop].
  { exists d. rewrite app_nil_r. split; [done|]. by intros j. }
  apply Forall_cons in Hok as [[[t Ht] Hne] Hok].
  destruct (counterpart_of am i) as [x|] eqn:Hx;
    [|by apply last_None in Hx].
  rewrite (counterpart_step_ok _ _ _ _ _ _ _ Ht Hx). cbn [mbind res_bind].
  destruct (IH (if is_correct am ta i then c ++ [i] else c) (<[i:=x]> d) Hok)
    as (d' & -> & Hd'). exists d'. split.
  - rewrite filter_cons. f_equal. case_decide as Hc; rewrite ?Hc.
    + by rewrite <-app_assoc.
    + by destruct (is_correct am ta i).
  - intros j. rewrite Hd'. destruct (decide (j = i)) as [->|Hji].
    + rewrite lookup_insert_eq. by repeat case_decide; set_solver.
    + rewrite lookup_insert_ne by done. repeat case_decide; set_solver.
Qed.

(** The loop raises the exception of the first node that is not
    [node_ok]. *)
Lemma counterpart_loop_err am ta nodes st e :
  counterpart_loop am (dense_sorted_indices am) ta nodes st = inl e ↔
  ∃ pre i post, nodes = pre ++ i :: post ∧ Forall (node_ok am ta) pre ∧
                ¬ node_ok am ta i ∧ e = node_error am ta i.
Proof.
  revert st. induction nodes as [|i nodes IH]; intros st; simpl.
  { split; [discriminate|]. intros (pre & i & post & Hn & _). by destruct pre. }
  destruct (counterpart_step _ _ _ st i) as [e'|st'] eqn:Hs; simpl.
  - apply counterpart_step_err in Hs as [Hbad ->]. split.
    + intros [= <-]. by exists [], i, nodes.
    + intros ([|j pre] & i' & post & [= -> ->] & Hpre & Hbad' & ->); [done|].
      apply Forall_cons in Hpre as [Hj _]. done.
  - assert (node_ok am ta i) as Hi.
    { destruct (decide (node_ok am ta i)) as [|Hbad]; [done|].
      pose proof (proj2 (counterpart_step_err am ta st i _) (conj Hbad eq_refl)). congruence. }
    rewrite IH. split.
    + intros (pre & j & post & -> & Hpre & Hbad & ->). exists (i :: pre), j, post.
      repeat split; [by constructor|done].
    + intros ([|k pre] & j & post & [= <- Hn] & Hpre & Hbad & ->); [done|].
      apply Forall_cons in Hpre as [_ Hpre]. by exists pre, j, post.
Qed.

Lemma counterpart_loop_inr_ok am ta nodes st r :
  counterpart_loop am (dense_sorted_indices am) ta nodes st = inr r → Forall (node_ok am ta) nodes.
Proof.
  revert st. induction nodes as [|i nodes IH]; intros st; simpl; [by constructor|].
  destruct (counterpart_step _ _ _ st i) as [e|st'] eqn:Hs; simpl; [discriminate|].
  intros Hr. constructor; [|by eapply IH].
  destruct (decide (node_ok am ta i)) as [|Hbad]; [done|].
  pose proof (proj2 (counterpart_step_err am ta st i _) (conj Hbad eq_refl)). congruence.
Qed.

(** The loop depends on the matrix only through the rankings. *)
Lemma counterpart_loop_ext am1 am2 ta nodes st :
  (∀ i, i ∈ nodes → node_candidates am1 i = node_candidates am2 i) →
  counterpart_loop am1 (dense_sorted_indices am1) ta nodes st =
  counterpart_loop am2 (dense_sorted_indices am2) ta nodes st.
Proof.
  revert st. induction nodes as [|i nodes IH]; intros st Heq; [done|]. cbn [counterpart_loop].
  assert (counterpart_step am1 (dense_sorted_indices am1) ta st i =
          counterpart_step am2 (dense_sorted_indices am2) ta st i) as ->.
  { destruct st. unfold counterpart_step. unfold node_candidates in Heq.
    rewrite Heq by set_solver. done. }
  destruct (counterpart_step am2 _ ta st i); simpl; [done|].
  apply IH. intros j Hj. apply Heq. set_solver.
Qed.

Lemma get_counterpart_ext am1 am2 ta :
  am_nrows am1 = am_nrows am2 →
  (∀ i, i < am_nrows am1 → node_candidates am1 i = node_candidates am2 i) →
  get_counterpart am1 ta = get_counterpart am2 ta.
Proof.
  intros Hn Heq. unfold get_counterpart. rewrite <-Hn.
  apply counterpart_loop_ext. intros i Hi%elem_of_seq. apply Heq. lia.
Qed.
End loop_facts.

Section evaluator_theorems.
Context {K : Type} `{ScalarOrder K} `{!ArgSort K}.
Implicit Types (am : align_matrix K) (ta : option py_truth).

(** Every node of a successful run was processed without exception. *)
Lemma get_counterpart_inr_ok am ta r :
  get_counterpart am ta = inr r → ∀ i, i < am_nrows am → node_ok am ta i.
Proof.
  unfold get_counterpart. intros Hgc%counterpart_loop_inr_ok i Hi.
  rewrite Forall_forall in Hgc. apply Hgc, elem_of_seq. lia.
Qed.

Lemma get_counterpart_ok_gen am ta :
  (∀ i, i < am_nrows am → node_ok am ta i) →
  ∃ d, get_counterpart am ta =
         inr (filter (λ i, is_correct am ta i = true) (seq 0 (am_nrows am)), d) ∧
       ∀ j, d !! j = if decide (j < am_nrows am) then counterpart_of am j else None.
Proof.
  intros Hok. destruct (counterpart_loop_ok am ta (seq 0 (am_nrows am)) [] ∅)
    as (d & Hd & Hl).
  { apply Forall_seq. intros j Hj. apply Hok. lia. }
  exists d. split; [exact Hd|]. intros j. rewrite Hl, lookup_empty.
  repeat case_decide; rewrite ?elem_of_seq in *; done || lia.
Qed.

Lemma get_counterpart_inr am ta correct d :
  get_counterpart am ta = inr (correct, d) →
  correct = filter (λ i, is_correct am ta i = true) (seq 0 (am_nrows am)) ∧
  ∀ j, d !! j = if decide (j < am_nrows am) then counterpart_of am j else None.
Proof.
  intros Hgc. destruct (get_counterpart_ok_gen am ta) as (d' & Hd' & Hl).
  { eapply get_counterpart_inr_ok, Hgc. }
  rewrite Hgc in Hd'. injection Hd' as -> ->. auto.
Qed.

Lemma get_counterpart_lookup am ta correct d i c :
  get_counterpart am ta = inr (correct, d) → d !! i = Some c →
  i < am_nrows am ∧ counterpart_of am i = Some c.
Proof.
  intros Hgc Hi. apply get_counterpart_inr in Hgc as [_ Hl].
  rewrite Hl in Hi. case_decide; [done|discriminate].
Qed.

Lemma dense_candidates rows i :
  node_candidates (DenseM rows) i = argsort (nth i rows []).
Proof.
  unfold node_candidates. simpl. rewrite <-(proj2 (argsort_nil [])) at 1 by done.
  apply map_nth.
Qed.

(** C1: when every node has a target and a non-empty ranking,
    [get_counterpart] returns the nodes whose target is the last
    column of their ranking, in increasing order, and a dict mapping
    every node of graph A, and nothing else, to that column. *)
Theorem get_counterpart_spec am ta :
  (∀ i, i < am_nrows am → node_ok am ta i) →
  ∃ d, get_counterpart am ta =
         inr (filter (λ i, is_correct am ta i = true) (seq 0 (am_nrows am)), d) ∧
       ∀ j, d !! j = if decide (j < am_nrows am) then counterpart_of am j else None.
Proof. apply get_counterpart_ok_gen. Qed.

(** C2: [get_counterpart] raises exactly when some node of A has no
    target or an empty ranking (a sparse row without stored non-zero
    entry, a dense row of length 0), and the exception is that of the
    first such node: [IndexError] for a list ground truth too short,
    [KeyError] for a node missing from a dict ground truth, and
    [IndexError] for an empty ranking. *)
Theorem get_counterpart_error am ta e :
  get_counterpart am ta = inl e ↔
  ∃ i, i < am_nrows am ∧ (∀ j, j < i → node_ok am ta j) ∧ ¬ node_ok am ta i ∧
       e = node_error am ta i.
Proof.
  unfold get_counterpart. rewrite counterpart_loop_err. split.
  - intros (pre & i & post & Hs & Hpre & Hbad & ->).
    destruct (seq_split_at _ _ _ _ Hs) as [-> Hi]. exists i.
    rewrite Forall_seq in Hpre. split; [done|]. split; [intros j Hj; apply Hpre; lia|done].
  - intros (i & Hi & Hpre & Hbad & ->). exists (seq 0 i), i, (seq (S i) (am_nrows am - S i)).
    split; [by apply seq_at|]. split; [|done]. apply Forall_seq. intros j Hj. apply Hpre. lia.
Qed.

(** C3: on a dense matrix the counterpart of node [i] is a column of
    row [i] holding the maximum of that row. *)
Theorem get_counterpart_dense_max rows ta correct d i c :
  get_counterpart (DenseM rows) ta = inr (correct, d) → d !! i = Some c →
  i < length rows ∧ c < length (nth i rows []) ∧
  ∀ j, j < length (nth i rows []) → row_at (nth i rows []) j ≤ₛ row_at (nth i rows []) c.
Proof.
  intros Hgc Hi. apply (get_counterpart_lookup _ _ _ _ _ _ Hgc) in Hi as [Hn Hc].
  unfold counterpart_of in Hc. rewrite dense_candidates in Hc.
  split; [done|]. by apply argsort_last_max.
Qed.

(** The counterpart of a sparse row is the column of a stored non-zero
    entry of largest value. *)
Lemma sparse_counterpart_max m i c :
  counterpart_of (SparseM m) i = Some c →
  ∃ v, (c, v) ∈ sps_find_row m i ∧
       ∀ c' v', (c', v') ∈ sps_find_row m i → v' ≤ₛ v.
Proof.
  intros Hc. unfold counterpart_of, node_candidates in Hc. simpl in Hc.
  set (found := sps_find_row m i) in *. rewrite last_map in Hc.
  destruct (last (argsort found.*2)) as [k|] eqn:Hk; [|discriminate].
  injection Hc as <-. apply argsort_last_max in Hk as [Hk Hmax].
  rewrite length_fmap in Hk. destruct (lookup_lt_is_Some_2 found k Hk) as [[c v] Hkv].
  exists v. rewrite (nth_fmap_lookup _ _ _ _ _ Hkv).
  split; [by eapply list_elem_of_lookup_2|].
  intros c' v' [k' Hk']%list_elem_of_lookup.
  specialize (Hmax k'). unfold row_at in Hmax.
  rewrite (nth_fmap_lookup _ _ _ _ _ Hkv), (nth_fmap_lookup _ _ _ _ _ Hk') in Hmax.
  apply Hmax. rewrite length_fmap. by eapply lookup_lt_Some.
Qed.

(** C4: on a sparse matrix the counterpart of node [i] is the column of
    a stored non-zero entry of row [i] whose value is the largest of
    the stored non-zero values; stored zeros and absent columns are
    never candidates. *)
Theorem get_counterpart_sparse_max m ta correct d i c :
  get_counterpart (SparseM m) ta = inr (correct, d) → d !! i = Some c →
  ∃ v, (c, v) ∈ sps_find_row m i ∧
       ∀ c' v', (c', v') ∈ sps_find_row m i → v' ≤ₛ v.
Proof.
  intros Hgc Hi. apply (get_counterpart_lookup _ _ _ _ _ _ Hgc) in Hi as [_ Hc].
  by apply sparse_counterpart_max.
Qed.

(** C5: [correct_nodes] lists distinct nodes of graph A in increasing
    order. *)
Theorem get_counterpart_correct_nodes am ta correct d :
  get_counterpart am ta = inr (correct, d) →
  StronglySorted lt correct ∧ Forall (λ i, i < am_nrows am) correct.
Proof.
  intros Hgc. apply get_counterpart_inr in Hgc as [-> _]. split.
  - apply StronglySorted_filter, StronglySorted_seq.
  - apply Forall_filter_l, Forall_seq. lia.
Qed.

(** C6 (spec section 8, identity property): without ground truth every
    node is its own target; when the diagonal entry of every row of a
    dense matrix is strictly larger than the other entries of the row,
    every node is correct and is its own counterpart. *)
Theorem get_counterpart_identity rows :
  (∀ i, i < length rows → i < length (nth i rows []) ∧
     ∀ j, j < length (nth i rows []) → j ≠ i →
          ¬ row_at (nth i rows []) i ≤ₛ row_at (nth i rows []) j) →
  ∃ d, get_counterpart (DenseM rows) None = inr (seq 0 (length rows), d) ∧
       ∀ i, i < length rows → d !! i = Some i.
Proof.
  intros Hdiag.
  assert (∀ i, i < length rows → counterpart_of (DenseM rows) i = Some i) as Hcp.
  { intros i Hi. destruct (Hdiag i Hi) as [Hii Hstrict].
    unfold counterpart_of. rewrite dense_candidates.
    destruct (last (argsort (nth i rows []))) as [c|] eqn:Hc.
    - apply argsort_last_max in Hc as [Hc Hmax]. f_equal.
      destruct (decide (c = i)) as [|Hne]; [done|].
      exfalso. by apply (Hstrict c Hc Hne), Hmax.
    - apply last_None, argsort_nil in Hc. rewrite Hc in Hii. simpl in Hii. lia. }
  destruct (get_counterpart_ok_gen (DenseM rows) None) as (d & Hd & Hl).
  { intros i Hi. split; [by eexists|]. unfold counterpart_of in Hcp.
    intros Hnil. specialize (Hcp i Hi). by rewrite Hnil in Hcp. }
  exists d. split.
  - rewrite Hd, filter_all; [done|]. apply Forall_seq. intros i Hi.
    unfold is_correct. simpl. rewrite Hcp by (simpl in Hi; lia).
    by rewrite bool_decide_true.
  - intros i Hi. rewrite Hl, decide_True by done. by apply Hcp.
Qed.
End evaluator_theorems.

From Stdlib Require Import QArith.

(** Line 186: [score = len(correct_nodes) / float(node_num)]. *)
Definition alignment_score (correct_nodes : list nat) (node_num : nat) : res Q :=
  if decide (node_num = 0%nat) then raise ZeroDivisionError
  else inr (inject_Z (Z.of_nat (length correct_nodes)) / inject_Z (Z.of_nat node_num))%Q.

(** A score [len(correct) / n] with at most [n] correct nodes lies in
    [0, 1]. *)
Lemma alignment_score_bounds correct n s :
  length correct ≤ n → alignment_score correct n = inr s → 0 <= s <= 1.
Proof.
  intros Hlen Hs. unfold alignment_score in Hs. case_decide as Hn; [discriminate|].
  injection Hs as <-.
  assert (0 < inject_Z (Z.of_nat n)) as Hpos.
  { change 0 with (inject_Z 0). rewrite <-Zlt_Qlt. lia. }
  split.
  - apply Qle_shift_div_l; [done|]. rewrite Qmult_0_l.
    change 0 with (inject_Z 0). rewrite <-Zle_Qle. lia.
  - apply Qle_shift_div_r; [done|]. rewrite Qmult_1_l, <-Zle_Qle. lia.
Qed.

Lemma get_counterpart_correct_length {K} `{ScalarOrder K} `{!ArgSort K}
    (am : align_matrix K) ta correct d :
  get_counterpart am ta = inr (correct, d) → length correct ≤ am_nrows am.
Proof.
  intros Hgc. apply get_counterpart_inr in Hgc as [-> _].
  pose proof (length_filter (λ i, is_correct am ta i = true) (seq 0 (am_nrows am))) as Hlen.
  by rewrite length_seq in Hlen.
Qed.

(** C7: the score of a successful evaluation lies between 0 and 1. *)
Theorem score_bounds {K} `{ScalarOrder K} `{!ArgSort K}
    (am : align_matrix K) ta correct d s :
  get_counterpart am ta = inr (correct, d) →
  alignment_score correct (am_nrows am) = inr s → 0 <= s <= 1.
Proof.
  intros Hgc. apply alignment_score_bounds. by eapply get_counterpart_correct_length.
Qed.

Local Close Scope Q_scope.

(** ** Witnesses on concrete matrices (stable argsort, integer scores) *)

Definition ex_rows : list (list Z) := [[5; 1; 2]; [0; 7; 7]; [3; 3; 1]]%Z.
Definition ex_dict : gmap nat nat := <[2:=1]> (<[1:=2]> (<[0:=0]> ∅)).
Definition ex_sparse : csr Z := csr_from_dense 3 ex_rows.
Definition ex_sparse_zero_row : csr Z := csr_from_dense 3 [[5; 1; 2]; [0; 0; 0]; [3; 3; 1]]%Z.

Ltac small_nat_cases :=
  repeat match goal with
  | H : (?i < S _)%nat |- _ =>
      destruct i; [clear H|apply Nat.succ_lt_mono in H]
  | H : (_ < 0)%nat |- _ => lia
  end.

Lemma get_counterpart_spec_witness :
  (∀ i, (i < 3)%nat → node_ok (DenseM ex_rows) (Some (TList [0; 2; 1])) i) ∧
  ∃ d, get_counterpart (DenseM ex_rows) (Some (TList [0; 2; 1])) =
         inr (filter (λ i, is_correct (DenseM ex_rows) (Some (TList [0; 2; 1])) i = true)
                (seq 0 3), d) ∧
       ∀ j, d !! j = if decide (j < 3)%nat then counterpart_of (DenseM ex_rows) j else None.
Proof.
  assert (∀ i, (i < 3)%nat → node_ok (DenseM ex_rows) (Some (TList [0; 2; 1])) i) as Hok.
  { intros i Hi. small_nat_cases; (split; [eexists; reflexivity|vm_compute; discriminate]). }
  split; [exact Hok|]. apply (get_counterpart_spec (DenseM ex_rows) (Some (TList [0; 2; 1])) Hok).
Defined.

(** A dict ground truth without node 1. *)
Definition ex_truth_dict : gmap nat nat := <[2 := 1]> {[0 := 0]}.

Lemma get_counterpart_error_witness :
  get_counterpart (DenseM ex_rows) (Some (TDict ex_truth_dict)) = inl KeyError.
Proof.
  apply (proj2 (get_counterpart_error (DenseM ex_rows) (Some (TDict ex_truth_dict)) KeyError)).
  exists 1%nat. split; [vm_compute; lia|]. split.
  - intros j Hj. assert (j = 0) as -> by lia.
    split; [eexists; reflexivity|vm_compute; discriminate].
  - split; [|reflexivity]. intros [[t Ht] _]. vm_compute in Ht. discriminate.
Defined.

Lemma get_counterpart_dense_max_witness :
  get_counterpart (DenseM ex_rows) None = inr ([0%nat], ex_dict) ∧ ex_dict !! 1%nat = Some 2%nat ∧
  (1 < length ex_rows ∧ 2 < length (nth 1 ex_rows []) ∧
   ∀ j, j < length (nth 1 ex_rows []) → row_at (nth 1 ex_rows []) j ≤ₛ row_at (nth 1 ex_rows []) 2)%nat.
Proof.
  assert (get_counterpart (DenseM ex_rows) None = inr ([0%nat], ex_dict)) as Hgc
    by (vm_compute; reflexivity).
  assert (ex_dict !! 1%nat = Some 2%nat) as Hd by (vm_compute; reflexivity).
  split; [exact Hgc|]. split; [exact Hd|].
  apply (get_counterpart_dense_max ex_rows None [0%nat] ex_dict 1 2 Hgc Hd).
Defined.

Lemma get_counterpart_sparse_max_witness :
  get_counterpart (SparseM ex_sparse) None = inr ([0%nat], ex_dict) ∧ ex_dict !! 2%nat = Some 1%nat ∧
  ∃ v, (1%nat, v) ∈ sps_find_row ex_sparse 2 ∧
       ∀ c' v', (c', v') ∈ sps_find_row ex_sparse 2 → v' ≤ₛ v.
Proof.
  assert (get_counterpart (SparseM ex_sparse) None = inr ([0%nat], ex_dict)) as Hgc
    by (vm_compute; reflexivity).
  assert (ex_dict !! 2%nat = Some 1%nat) as Hd by (vm_compute; reflexivity).
  split; [exact Hgc|]. split; [exact Hd|].
  apply (get_counterpart_sparse_max ex_sparse None [0%nat] ex_dict 2 1 Hgc Hd).
Defined.

Lemma get_counterpart_correct_nodes_witness :
  get_counterpart (DenseM ex_rows) (Some (TList [0; 2; 1])) = inr ([0; 1; 2], ex_dict) ∧
  StronglySorted lt [0; 1; 2] ∧ Forall (λ i, i < am_nrows (DenseM ex_rows)) [0; 1; 2].
Proof.
  assert (get_counterpart (DenseM ex_rows) (Some (TList [0; 2; 1])) = inr ([0; 1; 2], ex_dict)) as Hgc
    by (vm_compute; reflexivity).
  split; [exact Hgc|]. apply (get_counterpart_correct_nodes _ _ _ _ Hgc).
Defined.

Definition ex_diag : list (list Z) := [[3; 1]; [0; 2]]%Z.

Lemma get_counterpart_identity_witness :
  ∃ d, get_counterpart (DenseM ex_diag) None = inr (seq 0 (length ex_diag), d) ∧
       ∀ i, i < length ex_diag → d !! i = Some i.
Proof.
  apply get_counterpart_identity. intros i Hi. simpl in Hi. small_nat_cases;
    (split; [simpl; lia|]); intros j Hj Hne; simpl in Hj; small_nat_cases;
    done || (vm_compute; discriminate).
Defined.

Lemma score_bounds_witness :
  get_counterpart (DenseM ex_rows) None = inr ([0%nat], ex_dict) ∧
  alignment_score [0%nat] (am_nrows (DenseM ex_rows)) = inr (1 # 3)%Q ∧
  (0 <= 1 # 3 <= 1)%Q.
Proof.
  assert (get_counterpart (DenseM ex_rows) None = inr ([0%nat], ex_dict)) as Hgc
    by (vm_compute; reflexivity).
  assert (alignment_score [0%nat] (am_nrows (DenseM ex_rows)) = inr (1 # 3)%Q) as Hs
    by (vm_compute; reflexivity).
  split; [exact Hgc|]. split; [exact Hs|]. apply (score_bounds _ _ _ _ _ Hgc Hs).
Defined.

(** ** Ties *)

Section ties.
Context {K : Type} `{ScalarOrder K}.

(** C23: ties.  With a stable argsort (numpy's default sort is an
    insertion sort on short rows), the dense counterpart of node [i] is
    the last column holding the maximum of its row, while [np.argmax],
    which the prior of line 74 uses, returns the first: the two
    coincide exactly when the maximum is held once, so the file follows
    two tie rules, and [get_counterpart] not the lowest-index rule the
    spec asks for (section 9). *)
Theorem get_counterpart_ties rows ta correct d i c :
  get_counterpart (DenseM rows) ta = inr (correct, d) → d !! i = Some c →
  is_last_max (nth i rows []) c ∧
  ∀ a, np_argmax (nth i rows []) = inr a →
       a ≤ c ∧ (a = c ↔ ∀ k, k < length (nth i rows []) → k ≠ c →
                        ¬ row_at (nth i rows []) c ≤ₛ row_at (nth i rows []) k).
Proof.
  intros Hgc Hi. apply (get_counterpart_lookup _ _ _ _ _ _ Hgc) in Hi as [_ Hc].
  unfold counterpart_of in Hc. rewrite dense_candidates in Hc.
  assert (is_last_max (nth i rows []) c) as Hlast by (apply stable_argsort_last; exact Hc).
  split; [done|]. intros a Ha. apply first_last_max; [by apply np_argmax_spec|done].
Qed.
End ties.

Lemma get_counterpart_ties_witness :
  get_counterpart (DenseM [[5; 5]]%Z) None = inr ([], {[0 := 1]}) ∧
  ({[0 := 1]} : gmap nat nat) !! 0 = Some 1 ∧ is_last_max [5; 5]%Z 1.
Proof.
  assert (get_counterpart (DenseM [[5; 5]]%Z) None = inr ([], {[0 := 1]})) as Hgc
    by (vm_compute; reflexivity).
  assert (({[0 := 1]} : gmap nat nat) !! 0 = Some 1) as Hd by (vm_compute; reflexivity).
  split; [exact Hgc|]. split; [exact Hd|].
  exact (proj1 (get_counterpart_ties [[5; 5]]%Z None [] {[0 := 1]} 0 1 Hgc Hd)).
Defined.

(** ** Counterparts are columns *)

(** [n2] columns: every dense row has [n2] entries, a sparse matrix is
    canonical with [n2] columns. *)
Definition am_cols_ok {K} `{Scalar K} (am : align_matrix K) (n2 : nat) : Prop :=
  match am with
  | DenseM rows => Forall (λ r, length r = n2) rows
  | SparseM m => csr_wf m ∧ (csr_shape m).2 = n2
  end.

Section counterpart_cols.
Context {K : Type} `{ScalarOrder K} `{!ArgSort K}.

(** Every counterpart is a column of the matrix. *)
Lemma get_counterpart_col_lt (am : align_matrix K) ta correct d i c n2 :
  get_counterpart am ta = inr (correct, d) → am_cols_ok am n2 → d !! i = Some c → c < n2.
Proof.
  intros Hgc Hok Hi. apply (get_counterpart_lookup _ _ _ _ _ _ Hgc) in Hi as [Hn Hc].
  destruct am as [rows|m]; simpl in Hn, Hok.
  - unfold counterpart_of in Hc. rewrite dense_candidates in Hc.
    apply argsort_last_max in Hc as [Hc _].
    destruct (lookup_lt_is_Some_2 rows i Hn) as [r Hr].
    rewrite (nth_lookup_Some _ _ _ _ Hr) in Hc. rewrite Forall_lookup in Hok.
    by rewrite <-(Hok _ _ Hr).
  - apply sparse_counterpart_max in Hc as (v & Hin & _).
    destruct Hok as [[Hlen Hrows] <-].
    unfold sps_find_row, csr_row in Hin. apply list_elem_of_filter in Hin as [_ Hin].
    destruct (lookup_lt_is_Some_2 (csr_rows m) i) as [r Hr]; [lia|].
    rewrite (nth_lookup_Some _ _ _ _ Hr) in Hin. rewrite Forall_lookup in Hrows.
    destruct (Hrows _ _ Hr) as [_ Hcols]. rewrite Forall_forall in Hcols.
    apply (Hcols _ Hin).
Qed.
(** A successful run maps every node of graph A. *)
Lemma get_counterpart_total (am : align_matrix K) ta correct d j :
  get_counterpart am ta = inr (correct, d) → j < am_nrows am → ∃ c, d !! j = Some c.
Proof.
  intros Hgc Hj. destruct (get_counterpart_inr_ok _ _ _ Hgc j Hj) as [_ Hne].
  apply get_counterpart_inr in Hgc as [_ Hl]. rewrite Hl, decide_True by done.
  unfold counterpart_of. destruct (last _) eqn:E; [eauto|]. by apply last_None in E.
Qed.

(** C24: every value of [counterpart_dict] is a column index of the
    alignment matrix, on both paths: the dict maps nodes of graph A to
    nodes of graph B. *)
Theorem get_counterpart_cols (am : align_matrix K) ta correct d i c n2 :
  get_counterpart am ta = inr (correct, d) → am_cols_ok am n2 → d !! i = Some c → c < n2.
Proof. apply get_counterpart_col_lt. Qed.
End counterpart_cols.

Lemma get_counterpart_cols_witness :
  get_counterpart (DenseM ex_rows) (Some (TList [0; 2; 1])) = inr ([0; 1; 2], ex_dict) ∧
  am_cols_ok (DenseM ex_rows) 3 ∧ ex_dict !! 1 = Some 2 ∧ 2 < 3.
Proof.
  assert (get_counterpart (DenseM ex_rows) (Some (TList [0; 2; 1])) = inr ([0; 1; 2], ex_dict)) as Hgc
    by (vm_compute; reflexivity).
  assert (am_cols_ok (DenseM ex_rows) 3) as Hok by (repeat constructor).
  assert (ex_dict !! 1 = Some 2) as Hd by (vm_compute; reflexivity).
  split; [exact Hgc|]. split; [exact Hok|]. split; [exact Hd|].
  exact (get_counterpart_cols _ _ _ _ _ _ _ Hgc Hok Hd).
Defined.

(** ** The loop reads only the last element of each ranking *)

Section ext_last.
Context {K : Type} `{Scalar K} `{!ArgSort K}.

Lemma counterpart_step_ext_last (am1 am2 : align_matrix K) ta st i :
  counterpart_of am1 i = counterpart_of am2 i →
  counterpart_step am1 (dense_sorted_indices am1) ta st i =
  counterpart_step am2 (dense_sorted_indices am2) ta st i.
Proof.
  unfold counterpart_of, node_candidates. intros Heq. destruct st as [c d].
  unfold counterpart_step, py_last_slice, py_last. cbv zeta. by rewrite Heq.
Qed.

(** [get_counterpart] depends on the matrix only through its number of
    rows and the counterpart of every row. *)
Lemma get_counterpart_ext_last (am1 am2 : align_matrix K) ta :
  am_nrows am1 = am_nrows am2 →
  (∀ i, i < am_nrows am1 → counterpart_of am1 i = counterpart_of am2 i) →
  get_counterpart am1 ta = get_counterpart am2 ta.
Proof.
  intros Hn Heq. unfold get_counterpart. rewrite <-Hn.
  generalize (@nil nat, ∅ : gmap nat nat) as st.
  assert (∀ i, i ∈ seq 0 (am_nrows am1) → counterpart_of am1 i = counterpart_of am2 i) as Hin
    by (intros i Hi%elem_of_seq; apply Heq; lia).
  induction (seq 0 (am_nrows am1)) as [|i nodes IH]; intros st; [done|]. cbn [counterpart_loop].
  rewrite (counterpart_step_ext_last am1 am2) by (apply Hin; set_solver).
  destruct (counterpart_step am2 _ ta st i); res_red; [done|].
  apply IH. intros j Hj. apply Hin. set_solver.
Qed.
End ext_last.

(** ** A dict ground truth against the list it is built from *)

Section truth_ext.
Context {K : Type} `{ScalarOrder K} `{!ArgSort K}.

(** [get_counterpart] reads the ground truth only through the targets
    it yields: two ground truths giving the same targets give the same
    result (their exceptions may differ). *)
Lemma get_counterpart_targets_ext (am : align_matrix K) ta1 ta2 r :
  (∀ i x, target_of ta1 i = inr x ↔ target_of ta2 i = inr x) →
  get_counterpart am ta1 = inr r → get_counterpart am ta2 = inr r.
Proof.
  intros Ht Hgc. destruct r as [correct d].
  assert (∀ i, node_ok am ta1 i → node_ok am ta2 i) as Hok
    by (intros i [[t Hti] Hne]; split; [exists t; by apply Ht|done]).
  assert (∀ i, is_correct am ta1 i = is_correct am ta2 i) as Hc.
  { intros i. unfold is_correct.
    destruct (target_of ta1 i) as [e1|x1] eqn:H1, (target_of ta2 i) as [e2|x2] eqn:H2;
      try done.
    - apply Ht in H2. congruence.
    - apply Ht in H1. congruence.
    - apply Ht in H1. rewrite H1 in H2. by injection H2 as ->. }
  pose proof (get_counterpart_inr_ok _ _ _ Hgc) as Hok1.
  apply get_counterpart_inr in Hgc as [-> Hd].
  destruct (get_counterpart_ok_gen am ta2) as (d2 & -> & Hd2); [intros i Hi; by apply Hok, Hok1|].
  do 2 f_equal.
  - apply list_filter_iff. intros i. by rewrite Hc.
  - apply map_eq. intros j. by rewrite Hd, Hd2.
Qed.

Lemma target_of_dict_list (l : list nat) i x :
  target_of (Some (TDict (map_seq 0 l))) i = inr x ↔ target_of (Some (TList l)) i = inr x.
Proof.
  simpl. unfold py_dict_get, py_get, raise. rewrite lookup_map_seq_0.
  by destruct (l !! i).
Qed.

(** A ground truth pickled as the dict [{i: l[i]}] gives exactly
    the result the list [l] gives, and one gives a result exactly when
    the other does: the two differ only in the exception for a node
    past the end, [KeyError] against [IndexError] (C2). *)
Theorem get_counterpart_dict_list (am : align_matrix K) (l : list nat) r :
  get_counterpart am (Some (TDict (map_seq 0 l))) = inr r ↔ get_counterpart am (Some (TList l)) = inr r.
Proof.
  split; apply get_counterpart_targets_ext; intros i x;
    [|symmetry]; apply target_of_dict_list.
Qed.
End truth_ext.
