(* ===== verification/Matcher.v ===== *)
(** * Matcher: [kd_align] and the dense similarity (src/conealign.py)

    [kd_align] (lines 136-151) builds a KD-tree over the second embedding
    ([KDTree(emb2, metric=distance_metric)]), queries the [num_top]
    nearest rows of [emb2] for every row of [emb1], and assembles a COO
    matrix whose row array is built by the loop of lines 145-147, whose
    column array is the flattened [ind] and whose data is
    [np.exp(-dist)] flattened, converted to CSR.  The dense branch of
    [align_embeddings] (lines 102-106, also lines 66-70) computes
    [cosine_similarity] or [np.exp(-euclidean_distances)].

    sklearn is an external library: [SkLearn] states what the code
    relies on (the pairwise functions, the distance of the tree's
    metric, and a k-nearest-neighbour query with its contract
    [knn_correct]).  [KDTree] construction and [query] add sklearn's
    checks: [check_array] on the data and on the queries (at least one
    row and one column, [sk_check_array]), a metric outside
    [kdtree_valid_metrics], queries of another dimension, or [k] larger
    than the training set raise [ValueError]; the pairwise functions
    raise it through [check_pairwise_arrays] ([pairwise_ok]).  The
    exhaustive search [brute_knn] (through [stable_argsort]) meets
    [knn_correct] ([brute_knn_correct]); on integers it makes the
    instance [Z_sklearn] the witnesses run on.  The main results: the
    errors of [kd_align] (C8), its rows (C9) and shape (C10), and the
    refinement of the dense path by the top-k path with [k = n] (C11). *)

From S2P Require Import Prelude ArgSort Sparse Evaluator.
From stdpp Require Import strings.

(** What a k-nearest-neighbour answer for query [q] over [data] must be:
    [k] distinct row indices with their distances, ascending, and no row
    left out is closer than a row returned. *)
Record knn_correct {K} `{Scalar K} (dist : list K → list K → K) (data : list (list K))
    (q : list K) (k : nat) (res : list (K * nat)) : Prop := {
  knn_length : length res = k;
  knn_nodup : NoDup res.*2;
  knn_entries : Forall (λ dj, dj.2 < length data ∧ dj.1 = dist q (nth dj.2 data [])) res;
  knn_sorted : Sorted (λ a b, a.1 ≤ₛ b.1) res;
  knn_nearest : ∀ j, j < length data → j ∉ res.*2 →
                 Forall (λ dj, dj.1 ≤ₛ dist q (nth j data [])) res
}.

Class SkLearn (K : Type) `{Scalar K} := {
  (** [sklearn.metrics.pairwise.euclidean_distances], one pair *)
  euclidean_dist : list K → list K → K;
  (** [sklearn.metrics.pairwise.cosine_similarity], one pair *)
  cosine_sim : list K → list K → K;
  (** the distance of the KD-tree's [DistanceMetric] of a given name *)
  kd_metric_dist : string → list K → list K → K;
  kd_metric_euclidean : kd_metric_dist "euclidean"%string = euclidean_dist;
  (** [KDTree.query] for one query row: (distance, index) pairs *)
  knn_query : string → list (list K) → list K → nat → list (K * nat);
  knn_query_correct metric data q k :
    k ≤ length data → knn_correct (kd_metric_dist metric) data q k (knn_query metric data q k)
}.

(** [KDTree.valid_metrics]: cosine is not among them. *)
Definition kdtree_valid_metrics : list string :=
  ["euclidean"; "l2"; "minkowski"; "p"; "manhattan"; "cityblock"; "l1";
   "chebyshev"; "infinity"]%string.

Record kdtree (K : Type) := mk_kdtree { kd_data : list (list K); kd_metric : string }.
Arguments mk_kdtree {K}.
Arguments kd_data {K}.
Arguments kd_metric {K}.

Section matcher.
Context {K : Type} `{Scalar K} `{!SkLearn K}.

(** sklearn's [check_array] on a 2-D array: at least one sample and one
    feature, every row as wide as the first (a ragged list is no array). *)
Definition sk_check_array (X : list (list K)) : Prop :=
  X ≠ [] ∧ 0 < length (nth 0 X []) ∧ Forall (λ r, length r = length (nth 0 X [])) X.

#[global] Instance sk_check_array_dec X : Decision (sk_check_array X).
Proof. unfold sk_check_array. apply _. Defined.

(** [KDTree(emb2, metric=distance_metric)] (line 137): [check_array] of
    the data, then the metric. *)
Definition kdtree_build (emb2 : list (list K)) (metric : string) : res (kdtree K) :=
  if decide (sk_check_array emb2) then
    if decide (metric ∈ kdtree_valid_metrics) then inr (mk_kdtree emb2 metric)
    else raise ValueError
  else raise ValueError.

(** [kd_tree.query(emb1, k=num_top)] (line 143): the arrays [dist] and
    [ind], one row per query row. *)
Definition kdtree_query (t : kdtree K) (emb1 : list (list K)) (k : nat)
    : res (list (list K) * list (list nat)) :=
  if decide (sk_check_array emb1) then
    if decide (length (nth 0 emb1 []) = length (nth 0 (kd_data t) [])) then
      if decide (k ≤ length (kd_data t)) then
        let answers := map (λ x, knn_query (kd_metric t) (kd_data t) x k) emb1 in
        inr (map (λ a, a.*1) answers, map (λ a, a.*2) answers)
      else raise ValueError
    else raise ValueError
  else raise ValueError.

(** Lines 145-147: [row = np.concatenate((row, np.ones(num_top) * i))]
    for every query row [i]. *)
Definition kd_rows (n num_top : nat) : list nat :=
  foldl (λ row i, row ++ replicate num_top i) [] (seq 0 n).

(** Lines 136-151. *)
Definition kd_align (emb1 emb2 : list (list K)) (distance_metric : string) (num_top : nat)
    : res (csr K) :=
  kd_tree ← kdtree_build emb2 distance_metric;
  '(dist, ind) ← kdtree_query kd_tree emb1 num_top;
  let row := kd_rows (length emb1) num_top in
  let col := concat ind in
  let data := map sexpn (concat dist) in
  sparse_align_matrix ← coo_matrix data row col (length emb1, length emb2);
  mret (tocsr sparse_align_matrix).

(** sklearn's [check_pairwise_arrays]: both arrays pass [check_array]
    and have the same number of features, else [ValueError]. *)
Definition pairwise_ok (X Y : list (list K)) : Prop :=
  sk_check_array X ∧ sk_check_array Y ∧ length (nth 0 X []) = length (nth 0 Y []).

(** Lines 102-106 (and 66-70): all pairwise similarities, cosine when
    [embsim == "cosine"], [np.exp(-euclidean_distances)] otherwise. *)
Definition pairwise_similarity (is_cosine : bool) (X Y : list (list K)) : res (list (list K)) :=
  if decide (pairwise_ok X Y) then
    inr (if is_cosine then map (λ x, map (cosine_sim x) Y) X
         else map (λ x, map (λ y, sexpn (euclidean_dist x y)) Y) X)
  else raise ValueError.
End matcher.

(** ** An exhaustive k-nearest-neighbour search meets [knn_correct] *)

Section brute.
Context {K : Type} `{ScalarOrder K}.
Variable dist : list K → list K → K.

Definition brute_knn (data : list (list K)) (q : list K) (k : nat) : list (K * nat) :=
  let ds := map (dist q) data in
  take k (map (λ j, (row_at ds j, j)) (stable_argsort ds)).

Lemma row_at_map (data : list (list K)) q j :
  j < length data → row_at (map (dist q) data) j = dist q (nth j data []).
Proof.
  intros Hj. destruct (lookup_lt_is_Some_2 data j Hj) as [x Hx].
  unfold row_at. rewrite !nth_lookup, list_lookup_fmap, Hx. done.
Qed.

Lemma brute_knn_correct data q k :
  k ≤ length data → knn_correct dist data q k (brute_knn data q k).
Proof.
  intros Hk. set (ds := map (dist q) data). set (s := stable_argsort ds).
  assert (s ≡ₚ seq 0 (length data)) as Hperm.
  { unfold s, ds. rewrite stable_argsort_perm. by rewrite length_map. }
  assert (∀ j, j ∈ s ↔ j < length data) as Hin.
  { intros j. rewrite Hperm, elem_of_seq. lia. }
  assert (StronglySorted (idx_le ds) s) as Hss.
  { apply Sorted_StronglySorted; [apply idx_le_trans|apply stable_argsort_sorted]. }
  assert ((brute_knn data q k).*2 = take k s) as Hidx.
  { unfold brute_knn. rewrite fmap_take. f_equal. unfold fmap. rewrite map_map.
    apply map_id. }
  assert (brute_knn data q k = map (λ j, (row_at ds j, j)) (take k s)) as Hbk.
  { unfold brute_knn. by rewrite firstn_map. }
  split.
  - rewrite Hbk, length_map, length_take, (Permutation_length Hperm), length_seq. lia.
  - rewrite Hidx. apply NoDup_take_l. rewrite Hperm. apply NoDup_seq.
  - rewrite Hbk. apply Forall_map, Forall_forall. intros j Hj%elem_of_take_l; simpl.
    apply Hin in Hj. split; [done|]. by apply row_at_map.
  - apply StronglySorted_Sorted. rewrite Hbk.
    apply StronglySorted_map, StronglySorted_take, Hss.
  - intros j Hj Hnot. rewrite Hidx in Hnot. rewrite Hbk. apply Forall_map, Forall_forall.
    intros a Ha. simpl. rewrite <-row_at_map by done.
    assert (j ∈ drop k s) as Hjd.
    { apply Hin in Hj. rewrite <-(take_drop k s) in Hj. set_solver. }
    rewrite <-(take_drop k s) in Hss. apply StronglySorted_app_inv in Hss as (_ & _ & H12).
    by apply H12.
Qed.
End brute.

(** ** The arrays [kd_align] assembles *)

Section kd_facts.
Context {K : Type} `{Scalar K} `{!SkLearn K}.

Lemma kd_rows_concat n k : kd_rows n k = concat (map (λ i, replicate k i) (seq 0 n)).
Proof.
  unfold kd_rows.
  enough (∀ acc s, foldl (λ row i, row ++ replicate k i) acc (seq s n) =
                   acc ++ concat (map (λ i, replicate k i) (seq s n))) as -> by done.
  induction n as [|n IH]; intros acc s; simpl; [by rewrite app_nil_r|].
  by rewrite IH, app_assoc.
Qed.

(** The (indices, scores) block the query of one row contributes. *)
Definition kd_block (metric : string) (emb2 : list (list K)) (k : nat) (x : list K)
    : list nat * list K :=
  ((knn_query metric emb2 x k).*2, map sexpn (knn_query metric emb2 x k).*1).

(** The COO entries of a successful [kd_align]. *)
Definition kd_entries (emb1 emb2 : list (list K)) (metric : string) (k : nat)
    : list (nat * nat * K) :=
  let blocks := map (kd_block metric emb2 k) emb1 in
  zip (zip (concat (map (λ i, replicate k i) (seq 0 (length blocks))))
           (concat (map fst blocks))) (concat (map snd blocks)).

(** What the checks of [KDTree] and [query] require. *)
Definition kd_args_ok (emb1 emb2 : list (list K)) (metric : string) (k : nat) : Prop :=
  metric ∈ kdtree_valid_metrics ∧ sk_check_array emb2 ∧ k ≤ length emb2 ∧
  sk_check_array emb1 ∧ length (nth 0 emb1 []) = length (nth 0 emb2 []).

Lemma kd_blocks_length emb1 emb2 metric k :
  k ≤ length emb2 →
  Forall (λ b, length b.1 = k ∧ length b.2 = k) (map (kd_block metric emb2 k) emb1).
Proof.
  intros Hk. apply Forall_map, Forall_forall. intros x _.
  destruct (knn_query_correct metric emb2 x k Hk) as [Hlen _ _ _ _].
  unfold kd_block. simpl. by rewrite length_map, !length_fmap.
Qed.

Lemma kd_align_ok emb1 emb2 metric k :
  kd_args_ok emb1 emb2 metric k →
  kd_align emb1 emb2 metric k =
    inr (tocsr (mk_coo (length emb1, length emb2) (kd_entries emb1 emb2 metric k))).
Proof.
  intros (Hm & Hc2 & Hk & Hc1 & Hw). unfold kd_align, kdtree_build.
  rewrite !decide_True by done. simpl.
  unfold kdtree_query. simpl. rewrite !decide_True by done. simpl.
  pose proof (kd_blocks_length emb1 emb2 metric k Hk) as Hb.
  assert (concat (map (λ a, a.*2) (map (λ x, knn_query metric emb2 x k) emb1)) =
          concat (map fst (map (kd_block metric emb2 k) emb1))) as Hcol
    by (by rewrite !map_map).
  assert (map sexpn (concat (map (λ a, a.*1) (map (λ x, knn_query metric emb2 x k) emb1))) =
          concat (map snd (map (kd_block metric emb2 k) emb1))) as Hdat
    by (by rewrite concat_map, !map_map).
  assert (length (concat (map (λ i, replicate k i) (seq 0 (length emb1)))) =
          length emb1 * k) as Hlr.
  { rewrite (length_concat_const _ k); [by rewrite length_map, length_seq|].
    apply Forall_map, Forall_seq. intros. apply length_replicate. }
  assert (length (concat (map fst (map (kd_block metric emb2 k) emb1))) =
          length emb1 * k) as Hlc.
  { rewrite (length_concat_const _ k); [by rewrite !length_map|].
    apply Forall_map. eapply Forall_impl; [exact Hb|]. naive_solver. }
  assert (length (concat (map snd (map (kd_block metric emb2 k) emb1))) =
          length emb1 * k) as Hld.
  { rewrite (length_concat_const _ k); [by rewrite !length_map|].
    apply Forall_map. eapply Forall_impl; [exact Hb|]. naive_solver. }
  unfold coo_matrix, kd_entries. rewrite Hcol, Hdat, kd_rows_concat, Hlr, Hlc, Hld, length_map.
  rewrite decide_True by lia. rewrite decide_True; [done|].
  split.
  - apply Forall_concat, Forall_map, Forall_seq. intros i Hi.
    apply Forall_replicate. simpl. lia.
  - apply Forall_concat, Forall_map, Forall_map, Forall_forall. intros x _. simpl.
    destruct (knn_query_correct metric emb2 x k Hk) as [_ _ Hent _ _].
    apply Forall_fmap. eapply Forall_impl; [exact Hent|]. simpl. naive_solver.
Qed.
End kd_facts.

Section kd_theorems.
Context {K : Type} `{Scalar K} `{!SkLearn K}.

#[global] Instance kd_args_ok_dec (emb1 emb2 : list (list K)) metric k :
  Decision (kd_args_ok emb1 emb2 metric k).
Proof. unfold kd_args_ok. apply _. Defined.

Lemma kd_align_fail emb1 emb2 metric k :
  ¬ kd_args_ok emb1 emb2 metric k → kd_align emb1 emb2 metric k = inl ValueError.
Proof.
  intros Hnot. unfold kd_align, kdtree_build.
  destruct (decide (sk_check_array emb2)); [|done].
  destruct (decide (metric ∈ kdtree_valid_metrics)); [|done]. simpl. unfold kdtree_query. simpl.
  destruct (decide (sk_check_array emb1)); [|done].
  destruct (decide (length _ = _)); [|done]. destruct (decide (k ≤ _)); [|done].
  exfalso. apply Hnot. do 4 (split; [done|]). done.
Qed.

Lemma kd_align_inr emb1 emb2 metric k m :
  kd_align emb1 emb2 metric k = inr m →
  kd_args_ok emb1 emb2 metric k ∧
  m = tocsr (mk_coo (length emb1, length emb2) (kd_entries emb1 emb2 metric k)).
Proof.
  intros Hm. destruct (decide (kd_args_ok emb1 emb2 metric k)) as [Hok|Hnot].
  - rewrite kd_align_ok in Hm by done. injection Hm as <-. done.
  - rewrite kd_align_fail in Hm by done. discriminate.
Qed.

Lemma zip_swap_map (f : K → K) (l : list (K * nat)) :
  zip l.*2 (map f l.*1) = (λ dj, (dj.2, f dj.1)) <$> l.
Proof. induction l as [|[d j] l IH]; simpl; f_equal; auto. Qed.

Lemma kd_cols_range emb1 emb2 metric k :
  k ≤ length emb2 →
  Forall (λ e : nat * nat * K, e.1.2 < length emb2) (kd_entries emb1 emb2 metric k).
Proof.
  intros Hk. unfold kd_entries.
  apply (Forall_zip_fst (λ rc : nat * nat, rc.2 < length emb2)),
    (Forall_zip_snd (λ c, c < length emb2)).
  apply Forall_concat, Forall_map, Forall_map, Forall_forall. intros x _. simpl.
  destruct (knn_query_correct metric emb2 x k Hk) as [_ _ Hent _ _].
  apply Forall_fmap. eapply Forall_impl; [exact Hent|]. simpl. naive_solver.
Qed.

(** The matrix of a successful [kd_align] is in canonical CSR format,
    of shape (rows of [emb1], rows of [emb2]). *)
Lemma kd_align_wf emb1 emb2 metric k m :
  kd_align emb1 emb2 metric k = inr m →
  csr_wf m ∧ csr_shape m = (length emb1, length emb2).
Proof.
  intros Hm. apply kd_align_inr in Hm as [(_ & _ & Hk & _) ->]. split; [|done].
  apply tocsr_wf_entries. simpl. by apply kd_cols_range.
Qed.

(** Row [r] of the result is the canonical form of the [num_top]
    answers of the query of [emb1[r]]. *)
Lemma kd_align_row_canon emb1 emb2 metric k m r :
  kd_align emb1 emb2 metric k = inr m → r < length emb1 →
  csr_row m r =
    csr_canon_row ((λ dj, (dj.2, sexpn dj.1)) <$> knn_query metric emb2 (nth r emb1 []) k).
Proof.
  intros Hm Hr. apply kd_align_inr in Hm as [(_ & _ & Hk & _) ->].
  rewrite csr_row_tocsr by done. f_equal. cbn [coo_entries]. unfold kd_entries. cbv zeta.
  rewrite (coo_row_entries_blocks k 0) by (by apply kd_blocks_length).
  rewrite decide_True by lia. rewrite Nat.sub_0_r.
  destruct (lookup_lt_is_Some_2 emb1 r Hr) as [x Hx].
  assert (map (kd_block metric emb2 k) emb1 !! r = Some (kd_block metric emb2 k x)) as Hb
    by (by rewrite <-fmap_is_map, list_lookup_fmap, Hx).
  rewrite Hb. simpl. rewrite (nth_lookup_Some _ _ _ _ Hx). apply zip_swap_map.
Qed.
End kd_theorems.

Section kd_claims.
Context {K : Type} `{Scalar K} `{!SkLearn K}.

Lemma swap_fst (f : K → K) (l : list (K * nat)) :
  ((λ dj, (dj.2, f dj.1)) <$> l).*1 = l.*2.
Proof. induction l; simpl; f_equal; auto. Qed.

Lemma kd_align_row_perm emb1 emb2 metric k m r :
  kd_align emb1 emb2 metric k = inr m → r < length emb1 →
  csr_row m r ≡ₚ (λ dj, (dj.2, sexpn dj.1)) <$> knn_query metric emb2 (nth r emb1 []) k.
Proof.
  intros Hm Hr. pose proof Hm as Hm'. apply kd_align_inr in Hm' as [(_ & _ & Hk & _) _].
  rewrite (kd_align_row_canon _ _ _ _ _ _ Hm Hr). apply csr_canon_row_perm.
  rewrite swap_fst. by destruct (knn_query_correct metric emb2 (nth r emb1 []) k Hk).
Qed.

(** C8: [kd_align] raises, and then [ValueError], exactly when
    sklearn's checks fail: the metric is not one a KD-tree accepts
    (["cosine"] is not), the second embedding is not a 2-D array with a
    sample and a feature, [num_top] exceeds the number of rows of the
    second embedding, the first embedding is not such an array (no
    query row), or the two have another number of features. *)
Theorem kd_align_error emb1 emb2 metric k e :
  kd_align emb1 emb2 metric k = inl e ↔
  e = ValueError ∧
  (metric ∉ kdtree_valid_metrics ∨ ¬ sk_check_array emb2 ∨ length emb2 < k ∨
   ¬ sk_check_array emb1 ∨ length (nth 0 emb1 []) ≠ length (nth 0 emb2 [])).
Proof.
  destruct (decide (kd_args_ok emb1 emb2 metric k)) as [Hok|Hnot].
  - rewrite kd_align_ok by done. split; [discriminate|].
    destruct Hok as (? & ? & ? & ? & ?). intros [_ [|[|[|[|]]]]]; done || lia.
  - rewrite kd_align_fail by done. split; [intros [= <-]; split; [done|]|intros [-> _]; done].
    unfold kd_args_ok in Hnot.
    destruct (decide (metric ∈ kdtree_valid_metrics)); [|by left]. right.
    destruct (decide (sk_check_array emb2)); [|by left]. right.
    destruct (decide (length emb2 < k)); [by left|]. right.
    destruct (decide (sk_check_array emb1)); [|by left]. right.
    intros Hw. apply Hnot. split; [done|]. split; [done|]. split; [lia|]. done.
Qed.

(** C10: a successful [kd_align] returns a matrix in canonical CSR
    format, of shape (rows of [emb1], rows of [emb2]), with exactly
    [num_top] stored entries in every row: the O(n k) bound of the spec
    (section 4.3). *)
Theorem kd_align_shape emb1 emb2 metric k m :
  kd_align emb1 emb2 metric k = inr m →
  csr_wf m ∧ csr_shape m = (length emb1, length emb2) ∧
  Forall (λ row, length row = k) (csr_rows m).
Proof.
  intros Hm. destruct (kd_align_wf _ _ _ _ _ Hm) as [Hwf Hsh].
  pose proof Hm as Hm'. apply kd_align_inr in Hm' as [(_ & _ & Hk & _) _].
  split; [done|]. split; [done|]. apply Forall_lookup. intros r row Hrow.
  assert (r < length emb1) as Hr.
  { destruct Hwf as [Hlen _]. rewrite Hsh in Hlen. simpl in Hlen. rewrite <-Hlen.
    by eapply lookup_lt_Some. }
  assert (csr_row m r = row) as <- by (unfold csr_row; by apply nth_lookup_Some).
  rewrite (Permutation_length (kd_align_row_perm _ _ _ _ _ _ Hm Hr)), length_fmap.
  by destruct (knn_query_correct metric emb2 (nth r emb1 []) k Hk).
Qed.

(** C9: row [r] of [kd_align]'s matrix stores exactly the [num_top]
    nearest rows of [emb2] to [emb1[r]], each at its row index as
    column with [exp(-distance)] as value, sorted by column. *)
Theorem kd_align_row emb1 emb2 metric k m r :
  kd_align emb1 emb2 metric k = inr m → r < length emb1 →
  csr_row m r ≡ₚ (λ dj, (dj.2, sexpn dj.1)) <$> knn_query metric emb2 (nth r emb1 []) k ∧
  StronglySorted col_lt (csr_row m r).
Proof.
  intros Hm Hr. split; [by apply kd_align_row_perm|].
  rewrite (kd_align_row_canon _ _ _ _ _ _ Hm Hr). apply csr_canon_row_sorted.
Qed.
End kd_claims.

(** ** With [num_top] = all rows, the KD-tree path equals the dense path *)

Section full_equiv.
Context {K : Type} `{Scalar K} `{!SkLearn K} `{!ArgSort K}.

(** Asking for as many neighbours as there are rows returns them all. *)
Lemma knn_full_perm dist (data : list (list K)) q res :
  knn_correct dist data q (length data) res → res.*2 ≡ₚ seq 0 (length data).
Proof.
  intros [Hlen Hnd Hent _ _]. apply submseteq_length_Permutation.
  2: { rewrite length_seq, length_fmap. lia. }
  apply NoDup_submseteq; [done|]. intros j Hj. apply elem_of_seq.
  apply list_elem_of_fmap in Hj as ([d j'] & -> & Hin).
  rewrite Forall_forall in Hent. apply Hent in Hin. simpl in *. lia.
Qed.

Lemma swap_determined (f : K → K) (g : nat → K) (l : list (K * nat)) :
  Forall (λ dj, dj.1 = g dj.2) l →
  (λ dj, (dj.2, f dj.1)) <$> l = map (λ j, (j, f (g j))) l.*2.
Proof.
  induction 1 as [|[d j] l Hd Hl IH]; [done|]. simpl in Hd.
  rewrite fmap_cons, IH, Hd. done.
Qed.

(** Row [i] of the KD-tree result with [num_top = len(emb2)]: every
    column, in order, with its score. *)
Lemma kd_align_full_row emb1 emb2 m i :
  kd_align emb1 emb2 "euclidean" (length emb2) = inr m → i < length emb1 →
  csr_row m i =
    map (λ j, (j, sexpn (euclidean_dist (nth i emb1 []) (nth j emb2 []))))
        (seq 0 (length emb2)).
Proof.
  intros Hm Hi. set (x := nth i emb1 []).
  pose proof (knn_query_correct "euclidean" emb2 x (length emb2) (le_n _)) as Hc.
  pose proof (knn_full_perm _ _ _ _ Hc) as Hperm.
  destruct Hc as [_ _ Hent Hsorted _]. rewrite kd_metric_euclidean in Hent.
  apply (StronglySorted_perm_unique col_lt col_lt_asym).
  - rewrite (kd_align_row_canon _ _ _ _ _ _ Hm Hi). apply csr_canon_row_sorted.
  - apply StronglySorted_map. eapply StronglySorted_impl; [|apply StronglySorted_seq].
    unfold col_lt. simpl. lia.
  - rewrite (kd_align_row_perm _ _ _ _ _ _ Hm Hi). fold x.
    rewrite (swap_determined sexpn (λ j, euclidean_dist x (nth j emb2 [])));
      [by rewrite Hperm|].
    eapply Forall_impl; [exact Hent|]. naive_solver.
Qed.

(** C11 (spec section 8, top-k against full computation): with
    [num_top] equal to the number of rows of [emb2], and no score
    [exp(-d)] underflowing to [0.0], [get_counterpart] returns on
    [kd_align]'s sparse matrix exactly what it returns on the dense
    matrix [np.exp(-euclidean_distances(emb1, emb2))] (which sklearn's
    checks then accept): the same correct nodes and the same
    counterparts, ties included. *)
Theorem kd_align_full_equiv emb1 emb2 m ta :
  kd_align emb1 emb2 "euclidean" (length emb2) = inr m →
  (∀ x y, x ∈ emb1 → y ∈ emb2 → seqb (sexpn (euclidean_dist x y)) szero = false) →
  ∃ D, pairwise_similarity false emb1 emb2 = inr D ∧
       get_counterpart (SparseM m) ta = get_counterpart (DenseM D) ta.
Proof.
  intros Hm Hnz. pose proof Hm as Hm'. apply kd_align_inr in Hm' as [(_ & Hc2 & _ & Hc1 & Hw) Heq].
  unfold pairwise_similarity. rewrite decide_True by done. eexists. split; [reflexivity|].
  assert (am_nrows (SparseM m) = length emb1) as Hn by (by rewrite Heq).
  apply get_counterpart_ext; [rewrite Hn; simpl; by rewrite length_map|].
  intros i Hi. rewrite Hn in Hi. rewrite dense_candidates.
  unfold node_candidates. cbn [node_sorted_indices]. set (x := nth i emb1 []).
  assert (sps_find_row m i =
          map (λ j, (j, sexpn (euclidean_dist x (nth j emb2 [])))) (seq 0 (length emb2)))
    as ->.
  { unfold sps_find_row. rewrite (kd_align_full_row _ _ _ _ Hm Hi). apply filter_all.
    apply Forall_map, Forall_seq. intros j Hj. unfold nonzero. simpl.
    rewrite Hnz; [done|apply list_elem_of_In, nth_In; lia|apply list_elem_of_In, nth_In; lia]. }
  rewrite (fmap_is_map fst), (fmap_is_map snd), !map_map. simpl.
  rewrite (map_seq_nth (λ y, sexpn (euclidean_dist x y))), map_id.
  simpl. rewrite (nth_map_lt _ _ _ _ []) by done. fold x.
  rewrite <-(map_id (argsort _)) at 2. apply map_ext_in.
  intros k Hk%list_elem_of_In%elem_of_argsort. rewrite length_map in Hk.
  by rewrite seq_nth.
Qed.
End full_equiv.

(** ** The top-k matrix can always be evaluated, unless scores underflow *)

Section kd_evaluates.
Context {K : Type} `{Scalar K} `{!SkLearn K} `{!ArgSort K}.

(** Row [i] of [kd_align]'s matrix holds [num_top] entries, each the
    score [exp(-d)] of [emb1[i]] and a row of [emb2]. *)
Lemma kd_align_row_entries emb1 emb2 metric k m i :
  kd_align emb1 emb2 metric k = inr m → i < length emb1 →
  length (csr_row m i) = k ∧
  Forall (λ cv, ∃ y, y ∈ emb2 ∧ cv.2 = sexpn (kd_metric_dist metric (nth i emb1 []) y))
    (csr_row m i).
Proof.
  intros Hm Hi. pose proof (kd_align_row_perm _ _ _ _ _ _ Hm Hi) as Hp.
  pose proof Hm as Hm'. apply kd_align_inr in Hm' as [(_ & _ & Hk & _) _].
  destruct (knn_query_correct metric emb2 (nth i emb1 []) k Hk) as [Hlen _ Hent _ _].
  split; [by rewrite (Permutation_length Hp), length_fmap|].
  rewrite Hp. apply Forall_fmap. eapply Forall_impl; [exact Hent|].
  intros [d j] [Hj Hd]. simpl in *. exists (nth j emb2 []).
  split; [apply list_elem_of_In, nth_In; lia|]. by rewrite Hd.
Qed.

(** Without underflow, [sps_find_row] keeps every stored entry of a row. *)
Lemma kd_align_find_row emb1 emb2 metric k m i :
  kd_align emb1 emb2 metric k = inr m → i < length emb1 →
  (∀ y, y ∈ emb2 → nonzero (sexpn (kd_metric_dist metric (nth i emb1 []) y)) = true) →
  sps_find_row m i = csr_row m i.
Proof.
  intros Hm Hi Hnz. destruct (kd_align_row_entries _ _ _ _ _ _ Hm Hi) as [_ Hent].
  apply filter_all. eapply Forall_impl; [exact Hent|]. intros cv (y & Hy & ->). by apply Hnz.
Qed.

(** C22: [get_counterpart] on the matrix of [kd_align] never raises
    when [num_top] is positive, no score [exp(-d)] underflows to [0.0]
    and the ground truth gives every node a target: the [IndexError]
    of an empty ranking (C2) comes only from underflow (or
    [num_top = 0]). *)
Theorem kd_align_evaluates emb1 emb2 metric k m ta :
  kd_align emb1 emb2 metric k = inr m → 0 < k →
  (∀ x y, x ∈ emb1 → y ∈ emb2 → nonzero (sexpn (kd_metric_dist metric x y)) = true) →
  (∀ i, i < length emb1 → ∃ x, target_of ta i = inr x) →
  ∃ r, get_counterpart (SparseM m) ta = inr r.
Proof.
  intros Hm Hk Hnz Hta.
  destruct (get_counterpart (SparseM m) ta) as [e|r] eqn:Hgc; [|by eexists]. exfalso.
  pose proof Hm as Hm'. apply kd_align_inr in Hm' as [_ Heq].
  unfold get_counterpart in Hgc. apply counterpart_loop_err in Hgc as (pre & i & post & Hs & _ & Hbad & _).
  assert (i < length emb1) as Hi1.
  { apply seq_split_at in Hs as [_ Hi]. rewrite Heq in Hi. done. }
  apply Hbad. split; [by apply Hta|].
  destruct (kd_align_row_entries _ _ _ _ _ _ Hm Hi1) as [Hlen Hent].
  assert (sps_find_row m i = csr_row m i) as Hfind.
  { apply (kd_align_find_row emb1 emb2 metric k); [done|done|].
    intros y Hy. apply Hnz; [apply list_elem_of_In, nth_In; lia|done]. }
  unfold node_candidates. simpl. rewrite Hfind. intros Hnil.
  apply map_eq_nil, argsort_nil in Hnil. apply (f_equal length) in Hnil.
  rewrite length_fmap in Hnil. simpl in Hnil. lia.
Qed.
End kd_evaluates.

(** ** With any positive [num_top], the KD-tree path agrees with the dense path *)

Section topk_equiv.
Context {K : Type} `{ScalarOrder K} `{!ScalarLaws K} `{!SkLearn K} `{!ArgSort K}.

(** Column [j] holds the only maximum of the row [r]: every other column
    is strictly smaller. *)
Definition row_strict_max (r : list K) (j : nat) : Prop :=
  j < length r ∧ ∀ j', j' < length r → j' ≠ j → ¬ row_at r j ≤ₛ row_at r j'.

Lemma row_strict_max_eq r j c :
  row_strict_max r j → c < length r → row_at r j ≤ₛ row_at r c → c = j.
Proof. intros [_ Hj] Hc Hle. destruct (decide (c = j)); [done|]. by destruct (Hj c). Qed.

Lemma row_at_scores x (emb2 : list (list K)) c :
  c < length emb2 →
  row_at (map (λ y, sexpn (euclidean_dist x y)) emb2) c = sexpn (euclidean_dist x (nth c emb2 [])).
Proof. apply (row_at_map (λ q y, sexpn (euclidean_dist q y))). Qed.

(** A stored entry of row [i] is a row of [emb2] with its score. *)
Lemma kd_align_row_in emb1 emb2 metric k m i c v :
  kd_align emb1 emb2 metric k = inr m → i < length emb1 → (c, v) ∈ csr_row m i →
  c < length emb2 ∧ v = sexpn (kd_metric_dist metric (nth i emb1 []) (nth c emb2 [])).
Proof.
  intros Hm Hi Hin. rewrite (kd_align_row_perm _ _ _ _ _ _ Hm Hi) in Hin.
  pose proof Hm as Hm'. apply kd_align_inr in Hm' as [(_ & _ & Hk & _) _].
  destruct (knn_query_correct metric emb2 (nth i emb1 []) k Hk) as [_ _ Hent _ _].
  apply list_elem_of_fmap in Hin as ([d j] & [= -> ->] & Hdj).
  rewrite Forall_forall in Hent. destruct (Hent _ Hdj) as [Hj Hd]. simpl in *. by subst d.
Qed.

(** A row of [emb2] left out of row [i] is no nearer than a stored one. *)
Lemma kd_align_row_nearest emb1 emb2 metric k m i j c v :
  kd_align emb1 emb2 metric k = inr m → i < length emb1 → j < length emb2 →
  j ∉ (csr_row m i).*1 → (c, v) ∈ csr_row m i →
  kd_metric_dist metric (nth i emb1 []) (nth c emb2 []) ≤ₛ
  kd_metric_dist metric (nth i emb1 []) (nth j emb2 []).
Proof.
  intros Hm Hi Hj Hnot Hin. pose proof (kd_align_row_perm _ _ _ _ _ _ Hm Hi) as Hp.
  rewrite Hp, swap_fst in Hnot. rewrite Hp in Hin.
  pose proof Hm as Hm'. apply kd_align_inr in Hm' as [(_ & _ & Hk & _) _].
  destruct (knn_query_correct metric emb2 (nth i emb1 []) k Hk) as [_ _ Hent _ Hnear].
  apply list_elem_of_fmap in Hin as ([d c'] & [= -> ->] & Hdj).
  specialize (Hnear j Hj Hnot). rewrite Forall_forall in Hent, Hnear.
  destruct (Hent _ Hdj) as [_ Hd]. simpl in Hd. rewrite <-Hd. apply (Hnear _ Hdj).
Qed.

(** On the dense matrix the counterpart is the strict maximum. *)
Lemma dense_counterpart_strict (rows : list (list K)) i j :
  row_strict_max (nth i rows []) j → counterpart_of (DenseM rows) i = Some j.
Proof.
  intros Hj. unfold counterpart_of. rewrite dense_candidates.
  destruct (last (argsort (nth i rows []))) as [c|] eqn:Hc.
  - apply argsort_last_max in Hc as [Hc Hmax]. f_equal.
    apply (row_strict_max_eq _ _ _ Hj Hc), Hmax, Hj.
  - apply last_None, argsort_nil in Hc. destruct Hj as [Hj _]. rewrite Hc in Hj. simpl in Hj. lia.
Qed.

(** On [kd_align]'s matrix with [num_top > 0] the nearest row, which
    is the strict maximum of the dense row, is stored, and it is the
    counterpart. *)
Lemma kd_counterpart_strict emb1 emb2 k m i j :
  kd_align emb1 emb2 "euclidean" k = inr m → 0 < k → i < length emb1 →
  (∀ y, y ∈ emb2 → nonzero (sexpn (euclidean_dist (nth i emb1 []) y)) = true) →
  row_strict_max (map (λ y, sexpn (euclidean_dist (nth i emb1 []) y)) emb2) j →
  counterpart_of (SparseM m) i = Some j.
Proof.
  intros Hm Hk Hi Hnz Hj. set (x := nth i emb1 []) in *.
  pose proof (λ c v, kd_align_row_in emb1 emb2 "euclidean" k m i c v Hm Hi) as Hin.
  rewrite kd_metric_euclidean in Hin.
  assert (j < length emb2) as Hj2 by (destruct Hj as [Hj _]; by rewrite length_map in Hj).
  assert (∀ c v, (c, v) ∈ csr_row m i → v = row_at (map (λ y, sexpn (euclidean_dist x y)) emb2) c ∧
                 c < length (map (λ y, sexpn (euclidean_dist x y)) emb2)) as Hval.
  { intros c v Hcv. destruct (Hin c v Hcv) as [Hc ->]. rewrite length_map, row_at_scores; done. }
  assert (j ∈ (csr_row m i).*1) as Hstored.
  { destruct (decide (j ∈ (csr_row m i).*1)) as [|Hnot]; [done|exfalso].
    destruct (kd_align_row_entries _ _ _ _ _ _ Hm Hi) as [Hlen _].
    destruct (csr_row m i) as [|[c0 v0] r] eqn:Hr; [simpl in Hlen; lia|].
    assert ((c0, v0) ∈ (c0, v0) :: r) as Hc0in by (apply elem_of_cons; by left).
    destruct (Hval _ _ Hc0in) as [_ Hc0]. apply Hnot.
    replace j with c0; [simpl; apply elem_of_cons; by left|].
    apply (row_strict_max_eq _ _ _ Hj Hc0). rewrite length_map in Hc0. rewrite !row_at_scores by lia.
    apply sexpn_antitone. rewrite <-kd_metric_euclidean.
    apply (kd_align_row_nearest _ _ _ _ _ _ _ _ v0 Hm Hi Hj2); by rewrite Hr. }
  apply list_elem_of_fmap in Hstored as ([j' vj] & Hjj & Hjv). simpl in Hjj. subst j'.
  pose proof (kd_align_find_row emb1 emb2 "euclidean" k m i Hm Hi) as Hfind.
  rewrite kd_metric_euclidean in Hfind. specialize (Hfind Hnz).
  destruct (counterpart_of (SparseM m) i) as [c|] eqn:Hc.
  - apply sparse_counterpart_max in Hc as (v & Hcv & Hmax). rewrite Hfind in Hcv, Hmax.
    f_equal. destruct (Hval _ _ Hcv) as [-> Hclt]. destruct (Hval _ _ Hjv) as [Hvj _].
    apply (row_strict_max_eq _ _ _ Hj Hclt). rewrite <-Hvj. by apply (Hmax j).
  - unfold counterpart_of, node_candidates in Hc. simpl in Hc. rewrite Hfind in Hc.
    apply last_None, map_eq_nil, argsort_nil in Hc. apply (f_equal length) in Hc.
    rewrite length_fmap in Hc. simpl in Hc. apply length_zero_iff_nil in Hc.
    rewrite Hc in Hjv. by apply elem_of_nil in Hjv.
Qed.

(** C28 (spec section 8, top-k against full computation, for every
    [num_top]): when each row of the dense matrix
    [np.exp(-euclidean_distances(emb1, emb2))] has a single maximum and
    no score underflows to [0.0], [get_counterpart] returns on the
    sparse matrix of [kd_align] with any [num_top ≥ 1] exactly what it
    returns on the dense matrix: the same correct nodes and the same
    counterparts. *)
Theorem kd_align_topk_equiv emb1 emb2 k m D ta :
  kd_align emb1 emb2 "euclidean" k = inr m → 0 < k →
  (∀ x y, x ∈ emb1 → y ∈ emb2 → nonzero (sexpn (euclidean_dist x y)) = true) →
  pairwise_similarity false emb1 emb2 = inr D →
  (∀ i, i < length emb1 → ∃ j, row_strict_max (nth i D []) j) →
  get_counterpart (SparseM m) ta = get_counterpart (DenseM D) ta.
Proof.
  intros Hm Hk Hnz HD Hmax. pose proof Hm as Hm'. apply kd_align_inr in Hm' as [_ Heq].
  unfold pairwise_similarity in HD. case_decide; [|discriminate]. injection HD as <-.
  assert (am_nrows (SparseM m) = length emb1) as Hn by (by rewrite Heq).
  apply get_counterpart_ext_last; [rewrite Hn; simpl; by rewrite length_map|].
  intros i Hi. rewrite Hn in Hi. destruct (Hmax i Hi) as [j Hj].
  rewrite (dense_counterpart_strict _ _ _ Hj). apply (kd_counterpart_strict emb1 emb2 k); [done..| |].
  - intros y Hy. apply Hnz; [apply list_elem_of_In, nth_In; lia|done].
  - by rewrite (nth_map_lt _ _ _ _ []) in Hj by done.
Qed.
End topk_equiv.

(** ** An executable instance and witnesses *)

(** Integer stand-ins for the pairwise functions: the squared euclidean
    distance (ordered as the distance) and the dot product. *)
Definition Z_sqdist (x y : list Z) : Z :=
  foldr Z.add 0%Z (zip_with (λ a b, (a - b) * (a - b))%Z x y).
Definition Z_dot (x y : list Z) : Z := foldr Z.add 0%Z (zip_with Z.mul x y).

#[export] Instance Z_sklearn : SkLearn Z := {|
  euclidean_dist := Z_sqdist;
  cosine_sim := Z_dot;
  kd_metric_dist _ := Z_sqdist;
  kd_metric_euclidean := eq_refl;
  knn_query _ := brute_knn Z_sqdist;
  knn_query_correct _ data q k Hk := brute_knn_correct Z_sqdist data q k Hk
|}.

Definition ex_emb1 : list (list Z) := [[0; 0]; [5; 5]; [9; 0]]%Z.
Definition ex_emb2 : list (list Z) := [[1; 0]; [9; 1]; [5; 4]]%Z.
Definition ex_kd (k : nat) : csr Z :=
  match kd_align ex_emb1 ex_emb2 "euclidean" k with inr m => m | inl _ => mk_csr (0, 0) [] end.

Definition ex_dense : list (list Z) :=
  match pairwise_similarity false ex_emb1 ex_emb2 with inr D => D | inl _ => [] end.

(** No score of the example underflows. *)
Lemma ex_scores_nonzero x y :
  x ∈ ex_emb1 → y ∈ ex_emb2 → nonzero (sexpn (euclidean_dist x y)) = true.
Proof.
  intros Hx Hy. unfold ex_emb1, ex_emb2 in *.
  repeat (apply elem_of_cons in Hx as [->|Hx]); [..|by apply elem_of_nil in Hx];
  repeat (apply elem_of_cons in Hy as [->|Hy]); try (by apply elem_of_nil in Hy);
  vm_compute; reflexivity.
Qed.

Lemma kd_align_error_witness :
  kd_align ex_emb1 ex_emb2 "cosine" 1 = inl ValueError.
Proof.
  apply (proj2 (kd_align_error ex_emb1 ex_emb2 "cosine" 1 ValueError)).
  split; [done|]. left. vm_compute. intros Hin. repeat (inversion Hin as [|? ? ? Hin']; subst; clear Hin; rename Hin' into Hin).
Defined.

Lemma kd_align_row_witness :
  kd_align ex_emb1 ex_emb2 "euclidean" 2 = inr (ex_kd 2) ∧ 1 < length ex_emb1 ∧
  csr_row (ex_kd 2) 1 ≡ₚ
    (λ dj, (dj.2, sexpn dj.1)) <$> knn_query "euclidean" ex_emb2 (nth 1 ex_emb1 []) 2 ∧
  StronglySorted col_lt (csr_row (ex_kd 2) 1).
Proof.
  assert (kd_align ex_emb1 ex_emb2 "euclidean" 2 = inr (ex_kd 2)) as Hm
    by (vm_compute; reflexivity).
  assert (1 < length ex_emb1) as Hr by (vm_compute; lia).
  split; [exact Hm|]. split; [exact Hr|]. exact (kd_align_row _ _ _ _ _ _ Hm Hr).
Defined.

Lemma kd_align_shape_witness :
  kd_align ex_emb1 ex_emb2 "euclidean" 2 = inr (ex_kd 2) ∧
  csr_wf (ex_kd 2) ∧ csr_shape (ex_kd 2) = (length ex_emb1, length ex_emb2) ∧
  Forall (λ row, length row = 2) (csr_rows (ex_kd 2)).
Proof.
  assert (kd_align ex_emb1 ex_emb2 "euclidean" 2 = inr (ex_kd 2)) as Hm
    by (vm_compute; reflexivity).
  split; [exact Hm|]. exact (kd_align_shape _ _ _ _ _ Hm).
Defined.

Lemma kd_align_full_equiv_witness :
  kd_align ex_emb1 ex_emb2 "euclidean" (length ex_emb2) = inr (ex_kd 3) ∧
  ∃ D, pairwise_similarity false ex_emb1 ex_emb2 = inr D ∧
       get_counterpart (SparseM (ex_kd 3)) (Some (TList [0; 2; 1])) = get_counterpart (DenseM D) (Some (TList [0; 2; 1])).
Proof.
  assert (kd_align ex_emb1 ex_emb2 "euclidean" (length ex_emb2) = inr (ex_kd 3)) as Hm
    by (vm_compute; reflexivity).
  split; [exact Hm|]. apply (kd_align_full_equiv _ _ _ _ Hm).
  intros x y Hx Hy. apply negb_true_iff, (ex_scores_nonzero x y Hx Hy).
Defined.

Lemma kd_align_evaluates_witness :
  kd_align ex_emb1 ex_emb2 "euclidean" 2 = inr (ex_kd 2) ∧
  ∃ r, get_counterpart (SparseM (ex_kd 2)) (Some (TList [0; 2; 1])) = inr r.
Proof.
  assert (kd_align ex_emb1 ex_emb2 "euclidean" 2 = inr (ex_kd 2)) as Hm
    by (vm_compute; reflexivity).
  split; [exact Hm|]. apply (kd_align_evaluates _ _ _ _ _ _ Hm); [lia|apply ex_scores_nonzero|].
  intros i Hi. vm_compute in Hi. destruct i as [|[|[|i]]]; [..|lia]; eexists; reflexivity.
Defined.

Lemma kd_align_topk_equiv_witness :
  kd_align ex_emb1 ex_emb2 "euclidean" 1 = inr (ex_kd 1) ∧
  pairwise_similarity false ex_emb1 ex_emb2 = inr ex_dense ∧
  get_counterpart (SparseM (ex_kd 1)) (Some (TList [0; 2; 1])) =
  get_counterpart (DenseM ex_dense) (Some (TList [0; 2; 1])).
Proof.
  assert (kd_align ex_emb1 ex_emb2 "euclidean" 1 = inr (ex_kd 1)) as Hm
    by (vm_compute; reflexivity).
  assert (pairwise_similarity false ex_emb1 ex_emb2 = inr ex_dense) as HD
    by (vm_compute; reflexivity).
  split; [exact Hm|]. split; [exact HD|].
  apply (kd_align_topk_equiv _ _ _ _ _ _ Hm); [lia|apply ex_scores_nonzero|exact HD|].
  intros i Hi. vm_compute in Hi.
  destruct i as [|[|[|i]]]; [exists 0|exists 2|exists 1|lia];
    (split; [vm_compute; lia|]); intros j' Hj' Hne; vm_compute in Hj';
    (destruct j' as [|[|[|j']]]; [..|lia]); try congruence; vm_compute; intros Hf; discriminate Hf.
Defined.
