(* ===== verification/UnsupAlign.v ===== *)
(** * UnsupAlign: the collaborators of conealign.py that are not under src/

    [unsup_align.convex_init], [unsup_align.convex_init_sparse],
    [unsup_align.align] and [embedding.netmf] are imported by
    src/conealign.py (lines 13-14, called at 81-83, 89, 169-170) but their
    code is not part of src/.  They are modelled from the spec as the
    class [UnsupAlign]: one operation per function, with the arguments
    the call sites pass, and as laws only the contract the spec states
    and the pipeline relies on:
    - section 4.2: the alignment map of embeddings of width [d] is
      [d] x [d], and embeddings of different widths make [align] fail;
    - section 6: [netmf] of an [n] x [n] adjacency is [n] x [dim];
    - section 8 (sparse/dense equivalence): [convex_init_sparse] reads
      its CSR adjacencies only through their shape and the dense
      matrices they stand for ([todense]), so two CSR forms of one
      matrix (explicit zeros, another storage) give the same result.
      The spec allows a tolerance of 1e-6; the law asks for equality.
    What the optimisers compute (Sinkhorn iterations, stochastic
    gradient steps) is not modelled: the pipeline's theorems hold for
    every implementation of the class.  [Z_unsup] is an instance on
    integers (identity map, padded embedding) showing the laws can be
    met, and runs the witnesses. *)

From S2P Require Import Prelude Sparse.
From Stdlib Require Import QArith.
Local Close Scope Q_scope.

Class UnsupAlign (K : Type) `{Scalar K} := {
  (** [convex_init(embed1, embed2, apply_sqrt=False, niter, reg, P)]:
      (initial similarity, correspondence) *)
  convex_init : list (list K) → list (list K) → Z → Q → option (list (list K)) →
                res (list (list K) * list (list K));
  (** [convex_init_sparse(embed1, embed2, K_X, K_Y, apply_sqrt=False,
      niter, reg, P)] with CSR adjacencies *)
  convex_init_sparse : list (list K) → list (list K) → csr K → csr K → Z → Q →
                       option (list (list K)) → res (list (list K) * list (list K));
  (** [align(embed1, embed2, init_sim, lr, bsz, nepoch, niter, reg)]:
      (alignment map, correspondence) *)
  ua_align : list (list K) → list (list K) → list (list K) → Q → Z → Z → Z → Q →
             res (list (list K) * list (list K));
  (** [embedding.netmf(adj, dim, window, b, normalize)] *)
  netmf : list (list K) → Z → Z → Q → bool → list (list K);
  ua_align_shape X Y R lr bsz nepoch niter reg W P d :
    X ≠ [] → Forall (λ x, length x = d) X → Forall (λ y, length y = d) Y →
    ua_align X Y R lr bsz nepoch niter reg = inr (W, P) → has_shape W d d;
  ua_align_mismatch X Y R lr bsz nepoch niter reg x y :
    x ∈ X → y ∈ Y → length x ≠ length y →
    ∃ e, ua_align X Y R lr bsz nepoch niter reg = inl e;
  netmf_shape A dim window b normalize :
    has_shape (netmf A dim window b normalize) (length A) (Z.to_nat dim);
  convex_init_sparse_dense X Y KX KY KX' KY' niter reg P :
    csr_shape KX = csr_shape KX' → todense KX = todense KX' →
    csr_shape KY = csr_shape KY' → todense KY = todense KY' →
    convex_init_sparse X Y KX KY niter reg P = convex_init_sparse X Y KX' KY' niter reg P
}.

(** [np.eye(d)]. *)
Definition np_eye {K} `{Scalar K} (d : nat) : list (list K) :=
  map (λ i, map (λ j, if decide (i = j) then sone else szero) (seq 0 d)) (seq 0 d).

Lemma np_eye_shape {K} `{Scalar K} d : has_shape (np_eye (K:=K) d) d d.
Proof.
  unfold np_eye. split; [by rewrite length_map, length_seq|].
  apply Forall_map, Forall_forall. intros i _. by rewrite length_map, length_seq.
Qed.

(** ** An integer instance *)

Definition Z_align (X Y R : list (list Z)) : res (list (list Z) * list (list Z)) :=
  match X with
  | [] => raise ValueError
  | x :: _ =>
      if decide (Forall (λ r, length r = length x) (X ++ Y))
      then inr (np_eye (length x), R) else raise ValueError
  end.

Lemma Z_align_shape X Y R W P d :
  X ≠ [] → Forall (λ x, length x = d) X → Forall (λ y, length y = d) Y →
  Z_align X Y R = inr (W, P) → has_shape W d d.
Proof.
  intros HX Hd _ Ha. destruct X as [|x X]; [done|]. simpl in Ha.
  case_decide; [|discriminate]. injection Ha as <- _.
  apply Forall_cons in Hd as [<- _]. apply np_eye_shape.
Qed.

Lemma Z_align_mismatch X Y R x y :
  x ∈ X → y ∈ Y → length x ≠ length y → ∃ e, Z_align X Y R = inl e.
Proof.
  intros Hx Hy Hne. destruct X as [|x0 X]; [by eexists|]. simpl.
  case_decide as Hall; [|by eexists]. exfalso. apply Hne.
  rewrite Forall_forall in Hall.
  rewrite (Hall x), (Hall y); set_solver.
Qed.

Lemma Z_netmf_shape (A : list (list Z)) (dim : Z) :
  has_shape (map (resize (Z.to_nat dim) 0%Z) A) (length A) (Z.to_nat dim).
Proof.
  split; [by rewrite length_map|]. apply Forall_map, Forall_forall.
  intros r _. apply length_resize.
Qed.

(** The uniform [n_A] x [n_B] similarity, as the seed without a prior. *)
Definition Z_ones (X Y : list (list Z)) : list (list Z) := map (λ _, map (λ _, 1%Z) Y) X.

#[export] Instance Z_unsup : UnsupAlign Z := {|
  convex_init X Y _ _ P := let S := default (Z_ones X Y) P in inr (S, S);
  convex_init_sparse X Y _ _ _ _ P := let S := default (Z_ones X Y) P in inr (S, S);
  ua_align X Y R _ _ _ _ _ := Z_align X Y R;
  netmf A dim _ _ _ := map (resize (Z.to_nat dim) 0%Z) A;
  ua_align_shape X Y R _ _ _ _ _ W P d := Z_align_shape X Y R W P d;
  ua_align_mismatch X Y R _ _ _ _ _ x y := Z_align_mismatch X Y R x y;
  netmf_shape A dim _ _ _ := Z_netmf_shape A dim;
  convex_init_sparse_dense _ _ _ _ _ _ _ _ _ _ _ _ _ := eq_refl
|}.
