(* ===== verification/Pipeline.v ===== *)
(** * Pipeline: [align_embeddings] (src/conealign.py, lines 62-107)

    The function reads the module-global [args] (the [Namespace] of
    [parse_args]); here it is the Section variable [args], so that every
    definition takes it as its first argument once the Section is closed.
    [args.name] is [py_getattr (args !! name)]: an option the parser does
    not declare raises [AttributeError] (after [parse_args] every
    declared option is present with a value of its kind, C12, and an
    option holding a value of another kind is reported the same way).

    The body is split at the code's own comments: step 2 ([align_spaces],
    lines 62-94) computes the optional one-hot prior ([struc_prior],
    lines 64-75), the convex initialisation (lines 78-83, sparse when
    both adjacencies are given, converting a dense one with
    [sps.csr_matrix]), evaluates the diagnostics of lines 84-86 (whose
    [np.max] along each axis raises [ValueError] on an empty
    correspondence), the alternating optimisation (line 89) and the
    product [embed1.dot(dim_align_matrix)] (line 94); step 3
    ([greedy_match], lines 96-107) matches the aligned embeddings with
    [kd_align] when [args.numtop] is not [None] and with all pairwise
    similarities otherwise, and reads an unbound [alignment_matrix]
    ([UnboundLocalError]) when [args.alignmethod] is not ["greedy"].
    The printing itself is output and is not modelled. *)

From S2P Require Import Prelude ArgSort Sparse Config Evaluator Matcher UnsupAlign.
From stdpp Require Import strings.
From Stdlib Require Import QArith.
Local Close Scope Q_scope.
Local Open Scope string_scope.

Section pipeline.
Context {K : Type} `{ScalarOrder K} `{!SkLearn K} `{!UnsupAlign K}.
Variable args : namespace.

(** [args.name == v]. *)
Definition args_eq (name : string) (v : arg_value) : res bool :=
  x ← py_getattr (args !! name); mret (bool_decide (x = v)).

(** Row [i] of [matches] after [matches[i, j] = 1] on [np.zeros]. *)
Definition one_hot_row (w j : nat) : list K :=
  map (λ k, if decide (k = j) then sone else szero) (seq 0 w).

(** Lines 72-75: [np.argmax(corr, axis = 1)] (a [ValueError] when the
    rows are empty) and the one-hot matrix of the maxima. *)
Definition top_matches (corr : list (list K)) (w : nat) : res (list (list K)) :=
  if decide (w = 0) then raise ValueError
  else js ← mapM np_argmax corr; mret (map (one_hot_row w) js).

(** Lines 64-75: a prior only when both structural embeddings are
    given; the similarity is computed on [embed1] and [embed2]. *)
Definition struc_prior (embed1 embed2 : list (list K))
    (struc_embed struc_embed2 : option (list (list K))) : res (option (list (list K))) :=
  match struc_embed, struc_embed2 with
  | Some _, Some _ =>
      cosine ← args_eq "embsim" (AStr "cosine");
      corr ← pairwise_similarity cosine embed1 embed2;
      matches ← top_matches corr (length embed2);
      mret (Some matches)
  | _, _ => mret None
  end.

(** Lines 79-80: [sps.csr_matrix(adj)] unless [sps.issparse(adj)]. *)
Definition as_csr (a : align_matrix K) : csr K :=
  match a with
  | DenseM rows => csr_from_dense (length (nth 0 rows [])) rows
  | SparseM m => m
  end.

(** Lines 78-83. *)
Definition convex_initialize (embed1 embed2 : list (list K))
    (adj1 adj2 : option (align_matrix K)) (corr : option (list (list K)))
    : res (list (list K) * list (list K)) :=
  match adj1, adj2 with
  | Some a1, Some a2 =>
      niter ← py_getattr (arg_int args "niter_init");
      reg ← py_getattr (arg_float args "reg_init");
      convex_init_sparse embed1 embed2 (as_csr a1) (as_csr a2) niter reg corr
  | _, _ =>
      niter ← py_getattr (arg_int args "niter_init");
      reg ← py_getattr (arg_float args "reg_init");
      convex_init embed1 embed2 niter reg corr
  end.

(** Lines 85-86: [np.max(corr_mat, axis = 0)] and [axis = 1] reduce
    along an empty axis, a [ValueError], when the matrix has no row or
    no column. *)
Definition np_max_axes (M : list (list K)) : res unit :=
  if decide (M ≠ [] ∧ 0 < length (nth 0 M [])) then mret () else raise ValueError.

(** Line 89: the options passed to [unsup_align.align], [lr = args.lr,
    bsz = args.bsz, nepoch = args.nepoch, niter = args.niter_align,
    reg = args.reg_align]. *)
Definition align_options : res (Q * Z * Z * Z * Q) :=
  lr ← py_getattr (arg_float args "lr");
  bsz ← py_getattr (arg_int args "bsz");
  nepoch ← py_getattr (arg_int args "nepoch");
  niter ← py_getattr (arg_int args "niter_align");
  reg ← py_getattr (arg_float args "reg_align");
  mret (lr, bsz, nepoch, niter, reg).

(** Line 89. *)
Definition alternating_align (embed1 embed2 init_sim : list (list K))
    : res (list (list K) * list (list K)) :=
  '(lr, bsz, nepoch, niter, reg) ← align_options;
  ua_align embed1 embed2 init_sim lr bsz nepoch niter reg.

(** Line 94: [A.dot(B)] on 2-D arrays, a [ValueError] unless the rows
    of [A] are as long as [B] has rows. *)
Definition mat_dot (A B : list (list K)) : res (list (list K)) :=
  if decide (Forall (λ r, length r = length B) A) then
    mret (map (λ r, map (λ j, foldr sadd szero (zip_with smul r (map (λ b, nth j b szero) B)))
                        (seq 0 (length (nth 0 B [])))) A)
  else raise ValueError.

(** Step 2, lines 62-94: the aligned embedding [embed1.dot(W)]. *)
Definition align_spaces (embed1 embed2 : list (list K)) (adj1 adj2 : option (align_matrix K))
    (struc_embed struc_embed2 : option (list (list K))) : res (list (list K)) :=
  corr ← struc_prior embed1 embed2 struc_embed struc_embed2;
  '(init_sim, corr_mat) ← convex_initialize embed1 embed2 adj1 adj2 corr;
  np_max_axes corr_mat;;
  '(dim_align_matrix, _) ← alternating_align embed1 embed2 init_sim;
  mat_dot embed1 dim_align_matrix.

(** Step 3, lines 96-107. *)
Definition greedy_match (aligned_embed1 embed2 : list (list K)) : res (align_matrix K) :=
  args_eq "alignmethod" (AStr "greedy") ≫= λ greedy : bool,
  if greedy then
    numtop ← py_getattr (args !! "numtop");
    match numtop with
    | ANone =>
        cosine ← args_eq "embsim" (AStr "cosine");
        sim ← pairwise_similarity cosine aligned_embed1 embed2;
        mret (DenseM sim)
    | AInt k =>
        metric ← py_getattr (args !! "embsim");
        match metric with
        | AStr name =>
            (* a negative [k]: [np.ones(num_top)] and the query refuse it *)
            if decide (k < 0)%Z then raise ValueError
            else m ← kd_align aligned_embed1 embed2 name (Z.to_nat k); mret (SparseM m)
        | _ => raise ValueError
        end
    | _ => raise ValueError
    end
  else raise UnboundLocalError.

(** Lines 62-107. *)
Definition align_embeddings (embed1 embed2 : list (list K))
    (adj1 adj2 : option (align_matrix K)) (struc_embed struc_embed2 : option (list (list K)))
    : res (align_matrix K) :=
  aligned_embed1 ← align_spaces embed1 embed2 adj1 adj2 struc_embed struc_embed2;
  greedy_match aligned_embed1 embed2.
End pipeline.

(** The shape [(r, c)] of a dense or a sparse matrix. *)
Definition am_has_shape {K} (am : align_matrix K) (r c : nat) : Prop :=
  match am with DenseM rows => has_shape rows r c | SparseM m => csr_shape m = (r, c) end.

Section pipeline_facts.
Context {K : Type} `{ScalarOrder K} `{!ScalarLaws K} `{!SkLearn K} `{!UnsupAlign K}.
Implicit Types (args : namespace) (A E : list (list K)).

Lemma args_eq_some args name v x :
  args !! name = Some x → args_eq args name v = inr (bool_decide (x = v)).
Proof. intros Hx. unfold args_eq. by rewrite Hx. Qed.

Lemma pairwise_similarity_shape c A E sim :
  pairwise_similarity c A E = inr sim → has_shape sim (length A) (length E).
Proof.
  unfold pairwise_similarity. case_decide; [|discriminate]. intros [= <-].
  split; [destruct c; apply length_map|].
  destruct c; apply Forall_map, Forall_forall; intros; apply length_map.
Qed.

Lemma mat_dot_shape A B C :
  mat_dot A B = inr C → has_shape C (length A) (length (nth 0 B [])).
Proof.
  unfold mat_dot. case_decide; [|discriminate]. intros [= <-].
  split; [apply length_map|]. apply Forall_map, Forall_forall. intros r _.
  by rewrite length_map, length_seq.
Qed.

Lemma align_spaces_rows args e1 e2 a1 a2 s1 s2 A :
  align_spaces args e1 e2 a1 a2 s1 s2 = inr A → length A = length e1.
Proof.
  unfold align_spaces.
  destruct (struc_prior _ _ _ _ _) as [|corr]; [discriminate|]. simpl.
  destruct (convex_initialize _ _ _ _ _ _) as [|[init corr_mat]]; [discriminate|]. simpl.
  destruct (np_max_axes _) as [|[]]; [discriminate|]. simpl.
  destruct (alternating_align _ _ _ _) as [|[W P]]; [discriminate|]. simpl.
  intros Hd. by apply mat_dot_shape in Hd as [-> _].
Qed.

(** Step 3 returns a matrix with a row per aligned row and a column per
    row of [embed2], canonical when sparse. *)
Lemma greedy_match_out args A E m :
  greedy_match args A E = inr m → am_has_shape m (length A) (length E) ∧ am_cols_ok m (length E).
Proof.
  unfold greedy_match.
  destruct (args_eq args "alignmethod" _) as [|[]]; res_red; [discriminate| |discriminate].
  destruct (args !! "numtop") as [[]|]; res_red; try discriminate.
  - destruct (args !! "embsim") as [[]|]; res_red; try discriminate.
    case_decide; [discriminate|].
    destruct (kd_align _ _ _ _) as [|m'] eqn:Hkd; res_red; [discriminate|]. intros [= <-].
    apply kd_align_wf in Hkd as [Hwf Hsh]. simpl. by rewrite Hsh.
  - destruct (args_eq args "embsim" _) as [|c]; res_red; [discriminate|].
    destruct (pairwise_similarity _ _ _) as [|sim] eqn:Hs; res_red; [discriminate|].
    intros [= <-]. apply pairwise_similarity_shape in Hs. split; [done|]. apply Hs.
Qed.

(** A matrix of [align_embeddings] comes from step 3 applied to an
    aligned embedding with the rows of [embed1]. *)
Lemma align_embeddings_inv args e1 e2 a1 a2 s1 s2 m :
  align_embeddings args e1 e2 a1 a2 s1 s2 = inr m →
  ∃ A, align_spaces args e1 e2 a1 a2 s1 s2 = inr A ∧ length A = length e1 ∧
       greedy_match args A e2 = inr m.
Proof.
  unfold align_embeddings.
  destruct (align_spaces args e1 e2 a1 a2 s1 s2) as [|A] eqn:Hs; res_red; [discriminate|].
  intros Hm. exists A. split; [done|]. split; [by eapply align_spaces_rows|done].
Qed.

(** With [--embsim cosine] and an integer [numtop], step 3 raises: the
    KD-tree refuses the metric. *)
Lemma greedy_match_cosine args A E k :
  args !! "embsim" = Some (AStr "cosine") → args !! "numtop" = Some (AInt k) →
  ∃ e, greedy_match args A E = inl e.
Proof.
  intros Hs Hk. unfold greedy_match.
  destruct (args_eq args "alignmethod" _) as [e|[]]; res_red; [by eexists| |by eexists].
  rewrite Hk, Hs. res_red. case_decide; [by eexists|].
  rewrite kd_align_fail; [by eexists|]. intros [Hm _].
  unfold kdtree_valid_metrics in Hm. repeat (apply elem_of_cons in Hm as [Hm|Hm]; [discriminate|]).
  by apply elem_of_nil in Hm.
Qed.

Lemma one_hot_rows_spec corr js w :
  Forall2 (λ x y, np_argmax x = inr y) corr js →
  ∀ i r, corr !! i = Some r → ∃ j, is_first_max r j ∧ map (one_hot_row w) js !! i = Some (one_hot_row w j).
Proof.
  intros Hall i r Hr. destruct (Forall2_lookup_l _ _ _ _ _ Hall Hr) as (j & Hj & Hrj).
  exists j. split; [by apply np_argmax_spec|]. by rewrite <-fmap_is_map, list_lookup_fmap, Hj.
Qed.
(** [am_nrows] of a matrix of a known shape. *)
Lemma am_has_shape_nrows (m : align_matrix K) r c : am_has_shape m r c → am_nrows m = r.
Proof. destruct m; simpl; [by intros [? _]|by intros ->]. Qed.

(** What the evaluation relies on: the rows of [embed1], and the
    columns of [embed2]. *)
Lemma align_embeddings_out args e1 e2 a1 a2 s1 s2 m :
  align_embeddings args e1 e2 a1 a2 s1 s2 = inr m →
  am_nrows m = length e1 ∧ am_cols_ok m (length e2).
Proof.
  intros (A & _ & <- & Hm)%align_embeddings_inv.
  apply greedy_match_out in Hm as [Hsh Hc]. split; [by eapply am_has_shape_nrows|done].
Qed.
(** Lines 79-80: a dense square block converted by [sps.csr_matrix]
    keeps its shape and stands for the same matrix. *)
Lemma as_csr_dense A n :
  has_shape A n n → csr_shape (as_csr (DenseM A)) = (n, n) ∧ todense (as_csr (DenseM A)) = A.
Proof.
  intros [Hlen Hrows]. unfold as_csr. destruct A as [|r A']; [simpl in *; by subst n|].
  pose proof Hrows as [Hr _]%Forall_cons. cbn [nth]. rewrite Hr.
  split; [by rewrite <-Hlen|]. by apply csr_from_dense_todense.
Qed.

(** Lines 78-83: a dense adjacency and any CSR matrix standing for it
    reach [convex_init_sparse] as the same matrix. *)
Lemma convex_initialize_dense_sparse args e1 e2 A1 A2 m1 m2 n1 n2 corr :
  has_shape A1 n1 n1 → has_shape A2 n2 n2 →
  csr_shape m1 = (n1, n1) → todense m1 = A1 → csr_shape m2 = (n2, n2) → todense m2 = A2 →
  convex_initialize args e1 e2 (Some (DenseM A1)) (Some (DenseM A2)) corr =
  convex_initialize args e1 e2 (Some (SparseM m1)) (Some (SparseM m2)) corr.
Proof.
  intros HA1 HA2 Hs1 Hd1 Hs2 Hd2.
  destruct (as_csr_dense A1 n1 HA1) as [Hc1 Ht1], (as_csr_dense A2 n2 HA2) as [Hc2 Ht2].
  unfold convex_initialize.
  destruct (py_getattr (arg_int args "niter_init")) as [e|niter]; res_red; [done|].
  destruct (py_getattr (arg_float args "reg_init")) as [e|reg]; res_red; [done|].
  apply convex_init_sparse_dense; cbn [as_csr] in *; congruence.
Qed.
End pipeline_facts.

Section pipeline_theorems.
Context {K : Type} `{ScalarOrder K} `{!ScalarLaws K} `{!SkLearn K} `{!UnsupAlign K}.
Implicit Types (args : namespace) (A E : list (list K)).

(** C15 (spec section 8, first property): a matrix returned by
    [align_embeddings] has shape (rows of [embed1], rows of [embed2]),
    on the sparse [kd_align] path as on the dense path. *)
Theorem align_embeddings_shape args e1 e2 a1 a2 s1 s2 m :
  align_embeddings args e1 e2 a1 a2 s1 s2 = inr m → am_has_shape m (length e1) (length e2).
Proof.
  intros (A & _ & <- & Hm)%align_embeddings_inv. by eapply greedy_match_out.
Qed.

(** C16: when [args.alignmethod] is not ["greedy"], [align_embeddings]
    never returns a matrix: once step 2 has run, [return
    alignment_matrix] reads a variable no branch assigned and raises
    [UnboundLocalError], whereas the spec (section 9) asks for a closed
    choice of method made at configuration time. *)
Theorem align_embeddings_not_greedy args e1 e2 a1 a2 s1 s2 aligned v :
  align_spaces args e1 e2 a1 a2 s1 s2 = inr aligned →
  args !! "alignmethod" = Some v → v ≠ AStr "greedy" →
  align_embeddings args e1 e2 a1 a2 s1 s2 = inl UnboundLocalError.
Proof.
  intros Hs Hv Hne. unfold align_embeddings. rewrite Hs. res_red.
  unfold greedy_match. rewrite (args_eq_some args "alignmethod" (AStr "greedy") v Hv).
  rewrite bool_decide_false by done.
  done.
Qed.

(** C17: the prior of lines 72-75 has one row per row of the
    similarity matrix, and row [i] is the one-hot vector of the first
    column where row [i] of the similarity is maximal ([np.argmax]
    breaks ties by the lowest index). *)
Theorem top_matches_one_hot corr w M :
  top_matches corr w = inr M →
  length M = length corr ∧
  ∀ i r, corr !! i = Some r → ∃ j, is_first_max r j ∧ M !! i = Some (one_hot_row w j).
Proof.
  unfold top_matches. case_decide; [discriminate|].
  destruct (mapM np_argmax corr) as [|js] eqn:Hjs; res_red; [discriminate|]. intros [= <-].
  apply res_mapM_inr in Hjs. split.
  - rewrite length_map. symmetry. by eapply Forall2_length.
  - by apply one_hot_rows_spec.
Qed.

(** C29 (spec section 8, sparse/dense equivalence): [align_embeddings]
    given the adjacency blocks as dense square matrices returns exactly
    what it returns given any CSR matrices standing for them (same
    shape, same [todense]), because lines 79-80 convert a dense block
    with [sps.csr_matrix] before [convex_init_sparse]; this rests on the
    law [convex_init_sparse_dense] of the relaxation alone. *)
Theorem align_embeddings_dense_sparse args e1 e2 A1 A2 m1 m2 n1 n2 s1 s2 :
  has_shape A1 n1 n1 → has_shape A2 n2 n2 →
  csr_shape m1 = (n1, n1) → todense m1 = A1 → csr_shape m2 = (n2, n2) → todense m2 = A2 →
  align_embeddings args e1 e2 (Some (DenseM A1)) (Some (DenseM A2)) s1 s2 =
  align_embeddings args e1 e2 (Some (SparseM m1)) (Some (SparseM m2)) s1 s2.
Proof.
  intros HA1 HA2 Hs1 Hd1 Hs2 Hd2. unfold align_embeddings, align_spaces.
  destruct (struc_prior args e1 e2 s1 s2) as [e|corr]; res_red; [done|].
  by rewrite (convex_initialize_dense_sparse args e1 e2 A1 A2 m1 m2 n1 n2 corr).
Qed.
End pipeline_theorems.

(** ** Witnesses *)

(** The options of a command line [--numtop 2]. *)
Definition ex_args : namespace := <["numtop" := AInt 2]> default_namespace.

Definition ex_aligned : align_matrix Z :=
  match align_embeddings ex_args ex_emb1 ex_emb2 None None None None with
  | inr m => m | inl _ => DenseM []
  end.

Lemma align_embeddings_shape_witness :
  align_embeddings ex_args ex_emb1 ex_emb2 None None None None = inr ex_aligned ∧
  am_has_shape ex_aligned (length ex_emb1) (length ex_emb2).
Proof.
  assert (align_embeddings ex_args ex_emb1 ex_emb2 None None None None = inr ex_aligned) as Hm
    by (vm_compute; reflexivity).
  split; [exact Hm|]. exact (align_embeddings_shape _ _ _ _ _ _ _ _ Hm).
Defined.

Lemma align_embeddings_not_greedy_witness :
  align_spaces (<["alignmethod" := AStr "optimal"]> ex_args) ex_emb1 ex_emb2 None None None None
    = inr ex_emb1 ∧
  align_embeddings (<["alignmethod" := AStr "optimal"]> ex_args) ex_emb1 ex_emb2 None None None None
    = inl UnboundLocalError.
Proof.
  assert (align_spaces (<["alignmethod" := AStr "optimal"]> ex_args) ex_emb1 ex_emb2
            None None None None = inr ex_emb1) as Hs by (vm_compute; reflexivity).
  split; [exact Hs|]. apply (align_embeddings_not_greedy _ _ _ _ _ _ _ _ (AStr "optimal") Hs).
  - vm_compute. reflexivity.
  - discriminate.
Defined.

Definition ex_corr : list (list Z) := [[1; 3; 3]; [5; 0; 2]]%Z.

Lemma top_matches_one_hot_witness :
  top_matches ex_corr 3 = inr [[0; 1; 0]; [1; 0; 0]]%Z ∧
  length [[0; 1; 0]; [1; 0; 0]]%Z = length ex_corr ∧
  ∀ i r, ex_corr !! i = Some r →
    ∃ j, is_first_max r j ∧ [[0; 1; 0]; [1; 0; 0]]%Z !! i = Some (one_hot_row 3 j).
Proof.
  assert (top_matches ex_corr 3 = inr [[0; 1; 0]; [1; 0; 0]]%Z) as Hp
    by (vm_compute; reflexivity).
  split; [exact Hp|]. exact (top_matches_one_hot _ _ _ Hp).
Defined.

(** A 2-node adjacency block and a CSR form of it that stores an
    explicit zero on the diagonal, which [csr_matrix] would not. *)
Definition ex_adj : list (list Z) := [[0; 1]; [1; 0]]%Z.
Definition ex_adj_csr : csr Z := mk_csr (2, 2) [[(0, 0%Z); (1, 1%Z)]; [(0, 1%Z)]].

Lemma align_embeddings_dense_sparse_witness :
  has_shape ex_adj 2 2 ∧ csr_shape ex_adj_csr = (2, 2) ∧ todense ex_adj_csr = ex_adj ∧
  align_embeddings ex_args ex_emb1 ex_emb2 (Some (DenseM ex_adj)) (Some (DenseM ex_adj)) None None =
  align_embeddings ex_args ex_emb1 ex_emb2 (Some (SparseM ex_adj_csr)) (Some (SparseM ex_adj_csr))
    None None.
Proof.
  assert (has_shape ex_adj 2 2) as HA by (split; [reflexivity|repeat constructor]).
  assert (csr_shape ex_adj_csr = (2, 2)) as Hs by reflexivity.
  assert (todense ex_adj_csr = ex_adj) as Hd by (vm_compute; reflexivity).
  split; [exact HA|]. split; [exact Hs|]. split; [exact Hd|].
  exact (align_embeddings_dense_sparse _ _ _ _ _ _ _ _ _ _ _ HA HA Hs Hd Hs Hd).
Defined.
