(* ===== verification/Aligner.v ===== *)
(** * Aligner: the loop structure of [unsup_align.align] (from the spec)

    [unsup_align.align] (called at line 89 of src/conealign.py) is not
    under src/.  Its loops are modelled from the spec (section 4.2):
    every epoch partitions the node indices [0 .. n-1] into mini-batches
    of [bsz] indices, the last one smaller ([minibatches]); for every
    batch it takes [niter] gradient steps on the alignment map and then
    re-estimates the correspondence ([batch_update]); it runs [nepoch]
    epochs ([align_schedule]).  The state and the two update steps are
    Section variables: what a step computes is not modelled, only how
    often and on which batches it runs.

    [minibatches] recurses on [start + bsz], not a subterm, so it is
    defined with Equations by well-founded recursion on [n - start];
    its lemmas go by [funelim].  The batches partition the indices in
    order with sizes in [1, bsz] ([minibatches_partition]); the loops
    terminate after exactly [nepoch * ceil(n / bsz) * niter] gradient
    steps ([align_schedule_steps]); a batch size of 0 gives no batch
    ([align_schedule_zero_bsz]).  These are facts of the loops as the
    spec states them, not of code under src/, and no claim of the
    development rests on them. *)

From S2P Require Import Prelude.
From Equations Require Import Equations.

(** The batches [start .. start+bsz-1], [start+bsz .. ], ..., up to [n]. *)
Equations? minibatches (start n bsz : nat) : list (list nat) by wf (n - start) lt :=
  minibatches start n bsz with decide (start < n ∧ 0 < bsz) => {
    | left H := seq start (min bsz (n - start)) :: minibatches (start + bsz) n bsz;
    | right _ := [] }.
Proof. lia. Qed.

Section schedule.
Context {St : Type}.
(** One gradient step of the map on a batch. *)
Variable grad_step : St → list nat → St.
(** Re-estimating the correspondence on a batch. *)
Variable reestimate : St → list nat → St.

(** One batch: [niter] gradient steps, then the re-estimation. *)
Definition batch_update (niter : nat) (st : St) (batch : list nat) : St :=
  reestimate (Nat.iter niter (λ s, grad_step s batch) st) batch.

(** One epoch: every batch in order. *)
Definition align_epoch (n bsz niter : nat) (st : St) : St :=
  foldl (batch_update niter) st (minibatches 0 n bsz).

(** [nepoch] epochs. *)
Definition align_schedule (n bsz nepoch niter : nat) (st : St) : St :=
  Nat.iter nepoch (align_epoch n bsz niter) st.
End schedule.

(** A gradient step that also counts itself. *)
Definition counted {St} (step : St → list nat → St) (st : St * nat) (b : list nat) : St * nat :=
  (step st.1 b, S st.2).

(** A step that leaves the count alone. *)
Definition uncounted {St} (step : St → list nat → St) (st : St * nat) (b : list nat) : St * nat :=
  (step st.1 b, st.2).

(** ** The batches *)

Lemma minibatches_concat start n bsz :
  0 < bsz → concat (minibatches start n bsz) = seq start (n - start).
Proof.
  funelim (minibatches start n bsz); intros Hb; simpl.
  - match goal with IH : 0 < bsz → _ |- _ => rewrite IH by done end.
    destruct (decide (bsz ≤ n - start)).
    + rewrite Nat.min_l by done. rewrite <-seq_app. f_equal; lia.
    + rewrite Nat.min_r by lia. replace (n - (start + bsz)) with 0 by lia.
      by rewrite app_nil_r.
  - assert (¬ start < n) by (intros ?; match goal with Hn : ¬ (_ ∧ _) |- _ => by apply Hn end).
    by replace (n - start) with 0 by lia.
Qed.

Lemma minibatches_sizes start n bsz :
  Forall (λ b, 0 < length b ≤ bsz) (minibatches start n bsz).
Proof.
  funelim (minibatches start n bsz); [|constructor].
  constructor; [rewrite length_seq; lia|done].
Qed.

(** Only the last batch may be smaller than [bsz]. *)
Lemma minibatches_full start n bsz :
  Forall (λ b, length b = bsz) (removelast (minibatches start n bsz)).
Proof.
  funelim (minibatches start n bsz); [|constructor]. simpl.
  destruct (minibatches (start + bsz) n bsz) eqn:Hrest; [constructor|].
  constructor; [|done]. rewrite length_seq. apply Nat.min_l.
  rewrite minibatches_equation_1 in Hrest.
  destruct (decide (start + bsz < n ∧ 0 < bsz)); [lia|discriminate].
Qed.

Lemma minibatches_length start n bsz :
  0 < bsz → length (minibatches start n bsz) = (n - start + bsz - 1) / bsz.
Proof.
  funelim (minibatches start n bsz); intros Hb; simpl.
  - match goal with IH : 0 < bsz → _ |- _ => rewrite IH by done end.
    replace (n - start + bsz - 1) with ((n - start - 1) + 1 * bsz) by lia.
    rewrite Nat.div_add by lia.
    assert ((n - (start + bsz) + bsz - 1) / bsz = (n - start - 1) / bsz) as ->; [|lia].
    destruct (decide (bsz ≤ n - start)); [f_equal; lia|].
    rewrite !Nat.div_small; lia.
  - assert (¬ start < n) by (intros ?; match goal with Hn : ¬ (_ ∧ _) |- _ => by apply Hn end).
    rewrite Nat.div_small; lia.
Qed.

(** ** Counting the gradient steps *)

Section counting.
Context {St : Type} (grad_step reestimate : St → list nat → St).

Lemma iter_counted niter b (st : St * nat) :
  (Nat.iter niter (λ s, counted grad_step s b) st).2 = st.2 + niter.
Proof. induction niter as [|niter IH]; simpl; [lia|]. rewrite IH. lia. Qed.

Lemma epoch_counted n bsz niter (st : St * nat) :
  (align_epoch (counted grad_step) (uncounted reestimate) n bsz niter st).2 =
  st.2 + length (minibatches 0 n bsz) * niter.
Proof.
  unfold align_epoch. generalize (minibatches 0 n bsz) as bs. intros bs. revert st.
  induction bs as [|b bs IH]; intros st; simpl; [lia|].
  rewrite IH. unfold batch_update, uncounted. simpl. rewrite iter_counted. lia.
Qed.
End counting.

(** With a batch size of at most 0 there is no batch. *)
Lemma minibatches_nonpos start n : minibatches start n 0 = [].
Proof.
  rewrite minibatches_equation_1.
  destruct (decide (start < n ∧ 0 < 0)) as [[Hs Hz]|]; [lia|done].
Qed.

(** With a positive batch size the optimiser's loops as the spec
    describes them terminate after exactly [nepoch * ceil(n / bsz) *
    niter] gradient steps, whatever a step computes; the spec's
    "exactly [epochs * iters_per_epoch] steps" holds only when one
    batch holds every node ([n <= bsz]). *)
Lemma align_schedule_steps {St} (grad_step reestimate : St → list nat → St)
    n bsz nepoch niter st :
  0 < bsz →
  (align_schedule (counted grad_step) (uncounted reestimate) n bsz nepoch niter (st, 0)).2 =
  nepoch * ((n + bsz - 1) / bsz) * niter.
Proof.
  intros Hb. unfold align_schedule. induction nepoch as [|e IH]; simpl; [done|].
  rewrite epoch_counted, IH, minibatches_length, Nat.sub_0_r by lia. lia.
Qed.

(** With a positive batch size every epoch visits each node index
    exactly once, in order, in batches of [bsz] indices but the last,
    which holds between 1 and [bsz]. *)
Lemma minibatches_partition n bsz :
  0 < bsz →
  concat (minibatches 0 n bsz) = seq 0 n ∧
  Forall (λ b, 0 < length b ≤ bsz) (minibatches 0 n bsz) ∧
  Forall (λ b, length b = bsz) (removelast (minibatches 0 n bsz)).
Proof.
  intros Hb. split; [rewrite minibatches_concat, Nat.sub_0_r by lia; done|].
  split; [apply minibatches_sizes|apply minibatches_full].
Qed.

(** With a batch size of 0 there is no batch and the loops leave the
    state unchanged. *)
Lemma align_schedule_zero_bsz {St} (grad_step reestimate : St → list nat → St)
    n nepoch niter st :
  align_schedule grad_step reestimate n 0 nepoch niter st = st.
Proof.
  unfold align_schedule. induction nepoch as [|e IH]; simpl; [done|].
  rewrite IH. unfold align_epoch. by rewrite minibatches_nonpos.
Qed.
