(* ===== verification/Main.v ===== *)
(** * Main: [main] (src/conealign.py, lines 154-199)

    [main] reads the combined graph with [nx.read_edgelist] (line 163),
    takes its dense adjacency matrix (line 164; networkx raises
    [NetworkXError] for a graph without nodes), splits it into the two
    diagonal blocks [adjA] and [adjB] of [node_num = int(n / 2)] rows
    (lines 165-167), embeds each block with [netmf] when
    [args.embmethod == "netMF"] (lines 170-172), aligns (line 180),
    evaluates with [get_counterpart] and the score (lines 185-186) and,
    with [--store_align], builds the one-hot matrix of the counterparts
    (lines 195-198).

    networkx is modelled by what the code relies on: a graph read from
    an edge list has as nodes the ids in the order they first occur in
    the file ([nx_nodes]: [add_edge(u, v)] adds [u] then [v]), an
    undirected edge set, and [adjacency_matrix] indexes rows and
    columns by that node order with 1 for an edge (self-loops included)
    and 0 otherwise.  [main] takes the edge list and [main_adj] the
    adjacency matrix; reading the file itself is [EdgeList].  Pickle,
    timing, printing, the log file and [np.save] are I/O and are not
    modelled: the ground truth is an argument, and [main] returns the
    score and the matrix it would save. *)

From S2P Require Import Prelude ArgSort Sparse Config Evaluator Matcher UnsupAlign Pipeline.
From stdpp Require Import strings.
From Stdlib Require Import QArith.
Local Close Scope Q_scope.
Local Open Scope string_scope.

(** ** networkx *)

(** Nodes are the Python ints of the file: any type with decidable
    equality, [nat] in the theorems below, [Z] for a parsed file
    ([EdgeList]). *)
Section nx.
Context {N : Type} `{EqDecision N}.

(** [G.add_node(u)]: a node is appended the first time it occurs. *)
Definition nx_add_node (nodes : list N) (u : N) : list N :=
  if decide (u ∈ nodes) then nodes else nodes ++ [u].

(** The nodes of [nx.read_edgelist(...)], in [G.nodes()] order. *)
Definition nx_nodes (edges : list (N * N)) : list N :=
  foldl (λ ns '(u, v), nx_add_node (nx_add_node ns u) v) [] edges.

(** [G.has_edge(u, v)] of the undirected graph. *)
Definition nx_has_edge (edges : list (N * N)) (u v : N) : bool :=
  bool_decide ((u, v) ∈ edges ∨ (v, u) ∈ edges).
End nx.

Section main.
Context {K : Type} `{ScalarOrder K} `{!ArgSort K} `{!SkLearn K} `{!UnsupAlign K}.
Context {N : Type} `{EqDecision N}.

(** The value of an adjacency entry. *)
Definition edge_val (edges : list (N * N)) (u v : N) : K :=
  if nx_has_edge edges u v then sone else szero.

(** Line 164: [nx.adjacency_matrix(graph).todense().astype(float)]. *)
Definition nx_adjacency (edges : list (N * N)) : list (list K) :=
  let nodes := nx_nodes edges in
  map (λ u, map (edge_val edges u) nodes) nodes.

(** Line 164: [nx.adjacency_matrix(graph)] calls networkx's
    [to_scipy_sparse_array], which raises [NetworkXError("Graph has no
    nodes or edges")] when [len(G) == 0] before building the matrix. *)
Definition nx_adjacency_matrix (edges : list (N * N)) : res (list (list K)) :=
  match nx_nodes edges with
  | [] => raise NetworkXError
  | _ => mret (nx_adjacency edges)
  end.

(** Lines 165-167: [node_num], [adj[:node_num, :node_num]] and
    [adj[node_num:, node_num:]]. *)
Definition split_blocks (adj : list (list K)) : nat * list (list K) * list (list K) :=
  let node_num := length adj / 2 in
  (node_num, map (take node_num) (take node_num adj), map (drop node_num) (drop node_num adj)).

(** Lines 170-172: both embeddings when [args.embmethod == "netMF"];
    otherwise [emb_matrixA] is unbound when line 180 reads it. *)
Definition embed_graphs (args : namespace) (adjA adjB : list (list K))
    : res (list (list K) * list (list K)) :=
  args_eq args "embmethod" (AStr "netMF") ≫= λ is_netmf : bool,
  if is_netmf then
    dim ← py_getattr (arg_int args "dim");
    window ← py_getattr (arg_int args "window");
    b ← py_getattr (arg_float args "negative");
    mret (netmf adjA dim window b true, netmf adjB dim window b true)
  else raise UnboundLocalError.

(** Line 198: [binary_sim[j, counter_dict[j]] = 1]. *)
Definition binary_sim_step (node_num : nat) (counter_dict : gmap nat nat)
    (binary_sim : list (list K)) (j : nat) : res (list (list K)) :=
  c ← py_dict_get counter_dict j;
  if decide (c < node_num) then mret (<[j := <[c := sone]> (nth j binary_sim [])]> binary_sim)
  else raise IndexError.

(** Lines 196-198: [np.zeros((node_num, node_num))] and the loop. *)
Definition store_alignment (node_num : nat) (counter_dict : gmap nat nat)
    : res (list (list K)) :=
  foldl (λ acc j, binary_sim ← acc; binary_sim_step node_num counter_dict binary_sim j)
    (inr (replicate node_num (replicate node_num szero))) (seq 0 node_num).

(** Lines 165-186: from the adjacency matrix to [node_num], the score
    and [counter_dict]. *)
Definition evaluate_adj (args : namespace) (true_align : py_truth) (adj : list (list K))
    : res (nat * Q * gmap nat nat) :=
  let '(node_num, adjA, adjB) := split_blocks adj in
  '(emb_matrixA, emb_matrixB) ← embed_graphs args adjA adjB;
  alignment_matrix ← align_embeddings args emb_matrixA emb_matrixB
    (Some (SparseM (csr_from_dense (length adjA) adjA)))
    (Some (SparseM (csr_from_dense (length adjB) adjB))) None None;
  '(correct_nodes, counter_dict) ← get_counterpart alignment_matrix (Some true_align);
  score ← alignment_score correct_nodes node_num;
  mret (node_num, score, counter_dict).

(** Lines 163-186: the same from the edge list. *)
Definition evaluate (args : namespace) (true_align : py_truth) (edges : list (N * N))
    : res (nat * Q * gmap nat nat) :=
  adj ← nx_adjacency_matrix edges; evaluate_adj args true_align adj.

(** Lines 165-198: from the adjacency matrix to the score and, with
    [--store_align], the one-hot alignment matrix. *)
Definition main_adj (args : namespace) (true_align : py_truth) (adj : list (list K))
    : res (Q * option (list (list K))) :=
  '(node_num, score, counter_dict) ← evaluate_adj args true_align adj;
  args_eq args "store_align" (ABool true) ≫= λ store : bool,
  if store then
    binary_sim ← store_alignment node_num counter_dict; mret (score, Some binary_sim)
  else mret (score, None).

(** Lines 154-199: [main] on the edge list of the combined graph. *)
Definition main (args : namespace) (true_align : py_truth) (edges : list (N * N))
    : res (Q * option (list (list K))) :=
  adj ← nx_adjacency_matrix edges; main_adj args true_align adj.
End main.

Local Close Scope string_scope.

(** ** What the spec asks of the split and of the saved matrix *)

(** The adjacency of the nodes with ids [off], ..., [off + n - 1] in
    id order: the block the spec (section 6) assigns to one graph of
    the combined edge list. *)
Definition graph_block {K} `{Scalar K} (edges : list (nat * nat)) (off n : nat)
    : list (list K) :=
  map (λ u, map (edge_val edges u) (seq off n)) (seq off n).

(** [counter_dict[j]] when it is a column of the [node_num] x
    [node_num] matrix. *)
Definition valid_col (node_num : nat) (counter_dict : gmap nat nat) (j : nat) : res nat :=
  c ← py_dict_get counter_dict j;
  if decide (c < node_num) then mret c else raise IndexError.

(** Spec section 6: an [n] x [n] matrix with one 1-entry per row, at
    the counterpart's column. *)
Definition one_hot_alignment {K} `{Scalar K} (node_num : nat) (counter_dict : gmap nat nat)
    : res (list (list K)) :=
  cs ← mapM (valid_col node_num counter_dict) (seq 0 node_num);
  mret (map (one_hot_row node_num) cs).

Section main_facts.
Context {K : Type} `{ScalarOrder K}.
Context {N : Type} `{EqDecision N}.

Lemma one_hot_row_insert n c :
  c < n → one_hot_row (K:=K) n c = <[c := sone]> (replicate n szero).
Proof.
  intros Hc. apply list_eq. intros i. unfold one_hot_row.
  rewrite <-fmap_is_map, list_lookup_fmap.
  destruct (decide (i < n)) as [Hi|Hi].
  - rewrite lookup_seq_lt by done. simpl. destruct (decide (i = c)) as [->|Hne].
    + by rewrite list_lookup_insert_eq by (by rewrite length_replicate).
    + rewrite list_lookup_insert_ne by done. by rewrite lookup_replicate_2.
  - rewrite lookup_seq_ge by lia. symmetry. apply lookup_ge_None_2.
    rewrite length_insert, length_replicate. lia.
Qed.

(** One iteration of the loop of lines 197-198 on the matrix whose
    first [s] rows are done. *)
Lemma binary_sim_step_prefix n d cs c :
  length cs < n → d !! length cs = Some c → c < n →
  binary_sim_step n d (map (one_hot_row n) cs ++ replicate (n - length cs) (replicate n szero))
    (length cs) =
  inr (map (one_hot_row (K:=K) n) (cs ++ [c]) ++ replicate (n - S (length cs)) (replicate n szero)).
Proof.
  intros Hs Hd Hc. unfold binary_sim_step, py_dict_get. rewrite Hd. res_red.
  rewrite decide_True by done.
  replace (n - length cs) with (S (n - S (length cs))) by lia. simpl replicate.
  rewrite app_nth2 by (rewrite length_map; lia). rewrite length_map, Nat.sub_diag. simpl.
  rewrite insert_app_r_alt by (by rewrite length_map). rewrite length_map, Nat.sub_diag.
  simpl. rewrite map_app, <-app_assoc. simpl. by rewrite <-one_hot_row_insert.
Qed.

Lemma binary_sim_step_valid n d (M : list (list K)) j :
  binary_sim_step n d M j = (c ← valid_col n d j; mret (<[j := <[c := sone]> (nth j M [])]> M)).
Proof.
  unfold binary_sim_step, valid_col. destruct (py_dict_get d j); res_red; [done|].
  by case_decide.
Qed.

Lemma store_loop n d k cs :
  length cs + k ≤ n →
  foldl (λ acc j, M ← acc; binary_sim_step n d M j)
    (inr (map (one_hot_row n) cs ++ replicate (n - length cs) (replicate n szero)))
    (seq (length cs) k) =
  (cs' ← mapM (valid_col n d) (seq (length cs) k);
   mret (map (one_hot_row (K:=K) n) (cs ++ cs') ++
         replicate (n - length cs - k) (replicate n szero))).
Proof.
  revert cs. induction k as [|k IH]; intros cs Hk; cbn [seq foldl mapM]; res_red.
  { by rewrite !app_nil_r, Nat.sub_0_r. }
  destruct (valid_col n d (length cs)) as [e|c] eqn:Hv; res_red.
  { rewrite (binary_sim_step_valid n d _ (length cs)), Hv. res_red. apply foldl_res_inl. }
  unfold valid_col, py_dict_get in Hv.
  destruct (d !! length cs) as [c'|] eqn:Hd; res_red; [|discriminate].
  case_decide as Hc; res_red; [|discriminate]. injection Hv as <-.
  rewrite (binary_sim_step_prefix n d cs c') by (done || lia). res_red.
  replace (S (length cs)) with (length (cs ++ [c'])) by (rewrite length_app; simpl; lia).
  rewrite IH by (rewrite length_app; simpl; lia).
  destruct (mapM _ _) as [e|cs']; res_red; [done|].
  rewrite <-app_assoc, length_app. simpl. do 3 f_equal. lia.
Qed.
Lemma store_alignment_eq n d : store_alignment (K:=K) n d = one_hot_alignment n d.
Proof.
  unfold store_alignment, one_hot_alignment.
  pose proof (store_loop n d n [] (le_n _)) as Hl. simpl in Hl.
  rewrite Nat.sub_0_r, Nat.sub_diag in Hl. rewrite Hl.
  destruct (mapM _ _); res_red; [done|]. by rewrite app_nil_r.
Qed.

(** The one-hot matrix exists when every node has a counterpart among
    the columns. *)
Lemma one_hot_alignment_ok n d :
  (∀ j, j < n → ∃ c, d !! j = Some c ∧ c < n) → ∃ M, one_hot_alignment (K:=K) n d = inr M.
Proof.
  intros Hall. unfold one_hot_alignment.
  destruct (res_mapM_ok (valid_col n d) (seq 0 n)) as [cs ->]; [|by eexists].
  intros j Hj%elem_of_seq. destruct (Hall j) as (c & Hc & Hlt); [lia|].
  exists c. unfold valid_col, py_dict_get. rewrite Hc. res_red. by rewrite decide_True.
Qed.

Lemma nx_add_node_ne (ns : list N) u : nx_add_node ns u ≠ [].
Proof.
  unfold nx_add_node. case_decide as Hu; [by intros ->; set_solver|].
  by intros [_ ?]%app_eq_nil.
Qed.

Lemma nx_nodes_foldl_ne (ns : list N) (es : list (N * N)) :
  ns ≠ [] → foldl (λ ns '(u, v), nx_add_node (nx_add_node ns u) v) ns es ≠ [].
Proof.
  revert ns. induction es as [|[u v] es IH]; intros ns Hns; simpl; [done|].
  apply IH, nx_add_node_ne.
Qed.

(** A graph read from an edge list has a node exactly when the list
    has an edge. *)
Lemma nx_nodes_nil (edges : list (N * N)) : nx_nodes edges = [] ↔ edges = [].
Proof.
  split; [|by intros ->]. destruct edges as [|[u v] es]; [done|].
  unfold nx_nodes. simpl. intros Hn. exfalso. revert Hn.
  apply nx_nodes_foldl_ne, nx_add_node_ne.
Qed.

Lemma nx_adjacency_matrix_ok (edges : list (N * N)) :
  edges ≠ [] → nx_adjacency_matrix (K:=K) edges = inr (nx_adjacency edges).
Proof.
  intros He. unfold nx_adjacency_matrix.
  destruct (nx_nodes edges) eqn:Hn; [by apply nx_nodes_nil in Hn|done].
Qed.

Lemma nx_adjacency_matrix_inr (edges : list (N * N)) adj :
  nx_adjacency_matrix (K:=K) edges = inr adj → adj = nx_adjacency edges.
Proof. unfold nx_adjacency_matrix, raise. by destruct (nx_nodes edges); intros [= <-]. Qed.

(** [binary_sim[j, c]] out of range is the only failure once [j] has a
    counterpart. *)
Lemma valid_col_err n d j c e :
  d !! j = Some c → valid_col n d j = inl e → e = IndexError ∧ n ≤ c.
Proof.
  intros Hc. unfold valid_col, py_dict_get. rewrite Hc. res_red.
  case_decide; [discriminate|]. intros [= <-]. split; [done|lia].
Qed.

(** When every counterpart is a column of an [n] x [n + 1] matrix, the
    loop of lines 197-198 raises exactly when one of them is the extra
    column [n], and raises [IndexError]. *)
Lemma one_hot_alignment_extra n d :
  (∀ j, j < n → ∃ c, d !! j = Some c ∧ c ≤ n) →
  (one_hot_alignment (K:=K) n d = inl IndexError ↔ ∃ j, j < n ∧ d !! j = Some n) ∧
  ((¬ ∃ j, j < n ∧ d !! j = Some n) → ∃ M, one_hot_alignment (K:=K) n d = inr M).
Proof.
  intros Hall. split; [split|].
  - unfold one_hot_alignment. destruct (mapM _ _) as [e|cs] eqn:Hm; res_red; [|discriminate].
    intros [= ->]. apply res_mapM_inl in Hm as (j & Hj%elem_of_seq & Hv).
    destruct (Hall j) as (c & Hc & Hle); [lia|]. destruct (valid_col_err n d j c _ Hc Hv) as [_ ?].
    exists j. split; [lia|]. rewrite Hc. f_equal. lia.
  - intros (j & Hj & Hd). unfold one_hot_alignment.
    destruct (mapM _ _) as [e|cs] eqn:Hm; res_red.
    + apply res_mapM_inl in Hm as (j' & Hj'%elem_of_seq & Hv).
      destruct (Hall j') as (c & Hc & _); [lia|]. by destruct (valid_col_err n d j' c _ Hc Hv) as [-> _].
    + destruct (res_mapM_elem_inr _ _ _ j Hm) as [c Hv]; [apply elem_of_seq; lia|].
      unfold valid_col, py_dict_get in Hv. rewrite Hd in Hv. res_red. by rewrite decide_False in Hv by lia.
  - intros Hno. apply one_hot_alignment_ok. intros j Hj.
    destruct (Hall j Hj) as (c & Hc & Hle). exists c. split; [done|].
    destruct (decide (c = n)) as [->|]; [|lia]. exfalso. eauto.
Qed.

(** The split of an adjacency of [N] nodes: [N / 2] rows in [adjA],
    the other [N - N / 2] in [adjB]. *)
Lemma split_blocks_shape (edges : list (N * N)) nn (A B : list (list K)) :
  split_blocks (nx_adjacency edges) = (nn, A, B) →
  nn = length (nx_nodes edges) / 2 ∧ length A = nn ∧ length B = length (nx_nodes edges) - nn.
Proof.
  unfold split_blocks, nx_adjacency. cbv zeta. rewrite length_map. intros [= <- <- <-].
  rewrite !length_map, length_take, length_drop, length_map. split; [done|]. split; [|done].
  assert (∀ N, N / 2 ≤ N) as Hd by (intros; apply Nat.Div0.div_le_upper_bound; lia).
  apply Nat.min_l, Hd.
Qed.
End main_facts.

Section main_theorems.
Context {K : Type} `{ScalarOrder K} `{!ArgSort K} `{!SkLearn K} `{!UnsupAlign K}.
Context {N : Type} `{EqDecision N}.

(** C18: the loop of lines 195-198 computes the matrix the spec
    describes (section 6): row [j] is the one-hot vector of
    [counter_dict[j]]; it raises [KeyError] or [IndexError] at the first
    node without a counterpart or whose counterpart is not a column of
    the [node_num] x [node_num] matrix. *)
Theorem store_alignment_equiv n d : store_alignment (K:=K) n d = one_hot_alignment n d.
Proof. apply store_alignment_eq. Qed.

(** C19: when networkx lists the nodes in id order [0 .. 2n-1] (every
    id occurs, and in increasing order of first occurrence), the split
    of lines 165-167 gives [node_num = n] and the adjacency blocks of
    the ids [0 .. n-1] and [n .. 2n-1], as the spec (section 6) says. *)
Theorem split_blocks_ordered (edges : list (nat * nat)) n :
  nx_nodes edges = seq 0 (2 * n) →
  split_blocks (nx_adjacency (K:=K) edges) = (n, graph_block edges 0 n, graph_block edges n n).
Proof.
  intros Hn. unfold split_blocks, nx_adjacency, graph_block. cbv zeta.
  rewrite Hn, length_map, length_seq.
  replace (2 * n / 2) with n by (rewrite Nat.mul_comm, Nat.div_mul; lia).
  replace (2 * n) with (n + n) by lia. rewrite seq_app. simpl (0 + n).
  rewrite !map_app, take_app_length', drop_app_length' by (by rewrite length_map, length_seq).
  rewrite !map_map. f_equal; [f_equal|]; apply map_ext; intros u; rewrite map_app;
    [apply take_app_length'|apply drop_app_length']; by rewrite length_map, length_seq.
Qed.

(** C20: on a graph with at least one edge and [--embmethod] other
    than ["netMF"], [main] raises [UnboundLocalError] ([emb_matrixA] is
    read at line 180 but only assigned under the [if] of line 170); on
    a graph with no edge networkx raises [NetworkXError] at line 164
    first. *)
Theorem main_not_netmf args ta (edges : list (N * N)) v :
  args !! "embmethod"%string = Some v → v ≠ AStr "netMF" →
  main (K:=K) args ta edges = if decide (edges = []) then inl NetworkXError else inl UnboundLocalError.
Proof.
  intros Hv Hne. case_decide as He; [by subst|].
  unfold main. rewrite nx_adjacency_matrix_ok by done. res_red.
  unfold main_adj, evaluate_adj. cbv zeta. destruct (split_blocks _) as [[nn adjA] adjB].
  unfold embed_graphs. rewrite (args_eq_some args "embmethod" (AStr "netMF") v Hv).
  by rewrite bool_decide_false.
Qed.

(** C21: for every command line with [--embsim cosine], [main]
    produces no score: [args.numtop] is an integer (C13), so the
    KD-tree path is taken and sklearn's [KDTree] refuses the metric
    (C8), unless an earlier step has raised already. *)
Theorem main_cosine_fails argv args ta (edges : list (N * N)) :
  parse_args argv = inr args → args !! "embsim"%string = Some (AStr "cosine") →
  ∃ e, main (K:=K) args ta edges = inl e.
Proof.
  intros Hp Hs. destruct (ns_wf_numtop args (parse_args_wf_gen _ _ Hp)) as [k Hk].
  unfold main. destruct (nx_adjacency_matrix edges) as [e|adj]; res_red; [by eexists|].
  unfold main_adj, evaluate_adj. cbv zeta. destruct (split_blocks _) as [[nn adjA] adjB].
  destruct (embed_graphs args adjA adjB) as [e|[eA eB]]; res_red; [by eexists|].
  unfold align_embeddings.
  destruct (align_spaces _ _ _ _ _ _ _) as [e|A]; res_red; [by eexists|].
  destruct (greedy_match_cosine args A eB k Hs Hk) as [e He]. rewrite He. res_red.
  by eexists.
Qed.
End main_theorems.

(** ** [main] end to end *)

Section main_composition.
Context {K : Type} `{ScalarOrder K} `{!ArgSort K} `{!SkLearn K} `{!UnsupAlign K}.
Context {N : Type} `{EqDecision N}.

Lemma embed_graphs_rows args (A B eA eB : list (list K)) :
  embed_graphs args A B = inr (eA, eB) → length eA = length A ∧ length eB = length B.
Proof.
  unfold embed_graphs.
  destruct (args_eq args "embmethod" _) as [|[]]; res_red; [discriminate| |discriminate].
  destruct (py_getattr (arg_int args "dim")) as [|dim]; res_red; [discriminate|].
  destruct (py_getattr (arg_int args "window")) as [|w]; res_red; [discriminate|].
  destruct (py_getattr (arg_float args "negative")) as [|b]; res_red; [discriminate|].
  intros [= <- <-]. split; apply netmf_shape.
Qed.

(** What a successful evaluation went through: [get_counterpart] on a
    matrix of [node_num] rows and [N - node_num] columns. *)
Lemma evaluate_inv args ta (edges : list (N * N)) nn score d :
  evaluate (K:=K) args ta edges = inr (nn, score, d) →
  nn = length (nx_nodes edges) / 2 ∧
  ∃ (am : align_matrix K) correct,
    get_counterpart am (Some ta) = inr (correct, d) ∧ am_nrows am = nn ∧
    am_cols_ok am (length (nx_nodes edges) - nn) ∧ alignment_score correct nn = inr score.
Proof.
  unfold evaluate. destruct (nx_adjacency_matrix edges) as [|adj] eqn:Hadj; res_red; [discriminate|].
  apply nx_adjacency_matrix_inr in Hadj as ->.
  unfold evaluate_adj. cbv zeta. destruct (split_blocks _) as [[nn' A] B] eqn:Hsb.
  apply split_blocks_shape in Hsb as (Hnn & HA & HB).
  destruct (embed_graphs args A B) as [|[eA eB]] eqn:He; res_red; [discriminate|].
  apply embed_graphs_rows in He as [HeA HeB].
  destruct (align_embeddings _ _ _ _ _ _ _) as [|am] eqn:Hal; res_red; [discriminate|].
  apply align_embeddings_out in Hal as [Hn Hc].
  destruct (get_counterpart am (Some ta)) as [|[correct d']] eqn:Hgc; res_red; [discriminate|].
  destruct (alignment_score correct nn') as [|sc] eqn:Hs; res_red; [discriminate|].
  intros [= <- <- <-]. split; [done|]. exists am, correct.
  split; [done|]. split; [lia|]. split; [by rewrite <-HB, <-HeB|done].
Qed.

(** [main] is [evaluate] followed by the block of lines 195-198. *)
Lemma main_store args ta (edges : list (N * N)) nn score d :
  evaluate (K:=K) args ta edges = inr (nn, score, d) →
  args !! "store_align"%string = Some (ABool true) →
  main args ta edges = (M ← one_hot_alignment nn d; mret (score, Some M)).
Proof.
  intros He Hst. unfold evaluate in He. unfold main.
  destruct (nx_adjacency_matrix edges) as [|adj]; res_red; [discriminate|].
  unfold main_adj. rewrite He. res_red.
  rewrite (args_eq_some args "store_align" (ABool true) (ABool true) Hst), bool_decide_true
    by done.
  res_red. by rewrite store_alignment_eq.
Qed.

(** The counterparts of a successful evaluation are columns of its
    [node_num] x [N - node_num] matrix. *)
Lemma evaluate_counterparts args ta (edges : list (N * N)) nn score d :
  evaluate (K:=K) args ta edges = inr (nn, score, d) →
  ∀ j, j < nn → ∃ c, d !! j = Some c ∧ c < length (nx_nodes edges) - nn.
Proof.
  intros (_ & am & correct & Hgc & Hrows & Hcols & _)%evaluate_inv j Hj.
  destruct (get_counterpart_total am _ _ _ j Hgc) as [c Hc]; [lia|].
  exists c. split; [done|]. by eapply get_counterpart_col_lt.
Qed.

(** C25: the score [main] reports lies in [0, 1]: the alignment matrix
    has [node_num] rows, so at most [node_num] nodes are correct. *)
Theorem evaluate_score_bounds args ta (edges : list (N * N)) nn score d :
  evaluate (K:=K) args ta edges = inr (nn, score, d) → (0 <= score <= 1)%Q.
Proof.
  intros (_ & am & correct & Hgc & Hrows & _ & Hs)%evaluate_inv.
  apply (alignment_score_bounds correct nn); [|done].
  rewrite <-Hrows. by eapply get_counterpart_correct_length.
Qed.

(** C26: with an even number of nodes in the combined graph, a
    successful evaluation followed by [--store_align] saves the
    one-hot matrix of the counterparts: [adjB] then has [node_num]
    rows, so every counterpart is a column of the [node_num] x
    [node_num] matrix and the loop of lines 196-198 cannot raise. *)
Theorem main_store_even args ta (edges : list (N * N)) nn score d :
  Nat.Even (length (nx_nodes edges)) →
  evaluate (K:=K) args ta edges = inr (nn, score, d) →
  args !! "store_align"%string = Some (ABool true) →
  ∃ M, main args ta edges = inr (score, Some M) ∧ one_hot_alignment nn d = inr M.
Proof.
  intros [h Hev] He Hst. pose proof (proj1 (evaluate_inv _ _ _ _ _ _ He)) as Hnn.
  assert (length (nx_nodes edges) - nn = nn) as Hsq.
  { rewrite Hnn, Hev, Nat.mul_comm, Nat.div_mul; lia. }
  destruct (one_hot_alignment_ok (K:=K) nn d) as [M HM].
  { intros j Hj. rewrite <-Hsq. by apply (evaluate_counterparts args ta edges nn score d). }
  exists M. split; [|done]. by rewrite (main_store _ _ _ _ _ _ He Hst), HM.
Qed.

(** C27: with an odd number of nodes, [adjB] has one row more than
    [adjA], so the alignment matrix has [node_num + 1] columns while
    [binary_sim] has [node_num]: after a successful evaluation,
    [--store_align] raises [IndexError] (after the score is computed)
    exactly when some node's counterpart is the extra column
    [node_num], and saves the one-hot matrix of the counterparts
    otherwise. *)
Theorem main_store_odd args ta (edges : list (N * N)) nn score d :
  Nat.Odd (length (nx_nodes edges)) →
  evaluate (K:=K) args ta edges = inr (nn, score, d) →
  args !! "store_align"%string = Some (ABool true) →
  (main args ta edges = inl IndexError ↔ ∃ j, j < nn ∧ d !! j = Some nn) ∧
  ((¬ ∃ j, j < nn ∧ d !! j = Some nn) →
   ∃ M, main args ta edges = inr (score, Some M) ∧ one_hot_alignment nn d = inr M).
Proof.
  intros [h Hodd] He Hst. pose proof (proj1 (evaluate_inv _ _ _ _ _ _ He)) as Hnn.
  assert (length (nx_nodes edges) - nn = S nn) as Hsq.
  { rewrite Hnn, Hodd. replace (2 * h + 1) with (1 + h * 2) by lia.
    rewrite Nat.div_add by lia. simpl. lia. }
  destruct (one_hot_alignment_extra (K:=K) nn d) as [Herr Hok].
  { intros j Hj. destruct (evaluate_counterparts args ta edges nn score d He j Hj) as (c & ? & ?).
    exists c. split; [done|lia]. }
  rewrite (main_store _ _ _ _ _ _ He Hst). split.
  - rewrite <-Herr. destruct (one_hot_alignment nn d); res_red; naive_solver.
  - intros Hno. destruct (Hok Hno) as [M HM]. exists M. by rewrite HM.
Qed.
End main_composition.

(** A combined edge list: graph A is the path 0-1-2, graph B the path
    3-5-4, the lines of the two graphs interleaved. *)
Definition ex_edges : list (nat * nat) := [(0, 1); (3, 5); (1, 2); (5, 4)].

(** networkx orders nodes by first occurrence in the file, not by id,
    so the blocks of lines 166-167 are not the graphs of the spec in
    general: on [ex_edges] the node order is 0, 1, 3, 5, 2, 4 and
    [adjA] is the adjacency of the nodes 0, 1, 3 instead of 0, 1, 2. *)
Example split_blocks_not_by_id :
  nx_nodes ex_edges = [0; 1; 3; 5; 2; 4] ∧
  split_blocks (nx_adjacency (K:=Z) ex_edges) ≠ (3, graph_block ex_edges 0 3, graph_block ex_edges 3 3).
Proof. split; [vm_compute; reflexivity|]. vm_compute. congruence. Qed.

(** ** Witnesses *)

Definition ex_edges_sorted : list (nat * nat) := [(0, 1); (1, 2); (3, 4); (4, 5)].

Lemma split_blocks_ordered_witness :
  nx_nodes ex_edges_sorted = seq 0 (2 * 3) ∧
  split_blocks (nx_adjacency (K:=Z) ex_edges_sorted) =
    (3, graph_block ex_edges_sorted 0 3, graph_block ex_edges_sorted 3 3).
Proof.
  assert (nx_nodes ex_edges_sorted = seq 0 (2 * 3)) as Hn by (vm_compute; reflexivity).
  split; [exact Hn|]. exact (split_blocks_ordered ex_edges_sorted 3 Hn).
Defined.

Definition ex_args_deepwalk : namespace := <["embmethod" := AStr "deepwalk"]> default_namespace.

Lemma main_not_netmf_witness :
  ex_args_deepwalk !! "embmethod"%string = Some (AStr "deepwalk") ∧
  main (K:=Z) ex_args_deepwalk [0; 1; 2] ex_edges_sorted = inl UnboundLocalError.
Proof.
  assert (ex_args_deepwalk !! "embmethod"%string = Some (AStr "deepwalk")) as Hv
    by (vm_compute; reflexivity).
  split; [exact Hv|]. rewrite (main_not_netmf _ _ _ _ Hv) by discriminate.
  by rewrite decide_False.
Defined.

Definition ex_argv_cosine : list (string * option arg_value) := [("embsim"%string, Some (AStr "cosine"))].
Definition ex_args_cosine : namespace := <["embsim" := AStr "cosine"]> default_namespace.

Lemma main_cosine_fails_witness :
  parse_args ex_argv_cosine = inr ex_args_cosine ∧
  ex_args_cosine !! "embsim"%string = Some (AStr "cosine") ∧
  ∃ e, main (K:=Z) ex_args_cosine [0; 1; 2] ex_edges_sorted = inl e.
Proof.
  assert (parse_args ex_argv_cosine = inr ex_args_cosine) as Hp by (vm_compute; reflexivity).
  assert (ex_args_cosine !! "embsim"%string = Some (AStr "cosine")) as Hs
    by (vm_compute; reflexivity).
  split; [exact Hp|]. split; [exact Hs|]. exact (main_cosine_fails _ _ _ _ Hp Hs).
Defined.

(** The options of [--numtop 2 --store_align]. *)
Definition ex_args_store : namespace :=
  <["store_align" := ABool true]> (<["numtop" := AInt 2]> default_namespace).

(** A combined graph of three nodes: graph A is node 0, graph B the
    nodes 1 and 2. *)
Definition ex_odd_edges : list (nat * nat) := [(0, 1); (1, 2)].

(** On [ex_odd_edges], [node_num = 1], [adjB] has two rows and the
    counterpart of node 0 is column 1, the extra column: [main] raises
    [IndexError] after scoring. *)
Lemma main_store_odd_witness :
  Nat.Odd (length (nx_nodes ex_odd_edges)) ∧
  evaluate (K:=Z) ex_args_store [0] ex_odd_edges = inr (1, 0%Q, {[0 := 1]}) ∧
  ex_args_store !! "store_align"%string = Some (ABool true) ∧
  main (K:=Z) ex_args_store [0] ex_odd_edges = inl IndexError.
Proof.
  assert (Nat.Odd (length (nx_nodes ex_odd_edges))) as Ho by (exists 1; vm_compute; reflexivity).
  assert (evaluate (K:=Z) ex_args_store [0] ex_odd_edges = inr (1, 0%Q, {[0 := 1]}))
    as He by (vm_compute; reflexivity).
  assert (ex_args_store !! "store_align"%string = Some (ABool true)) as Hs
    by (vm_compute; reflexivity).
  split; [exact Ho|]. split; [exact He|]. split; [exact Hs|].
  apply (proj1 (main_store_odd _ _ _ _ _ _ Ho He Hs)). exists 0. split; [lia|reflexivity].
Defined.

(** The counterparts on [ex_edges_sorted]: 0 and 2 go to column 2. *)
Definition ex_main_dict : gmap nat nat := <[2:=2]> (<[1:=1]> (<[0:=2]> ∅)).

Lemma evaluate_score_bounds_witness :
  evaluate (K:=Z) ex_args_store [0; 1; 2] ex_edges_sorted = inr (3, (2 # 3)%Q, ex_main_dict) ∧
  (0 <= 2 # 3 <= 1)%Q.
Proof.
  assert (evaluate (K:=Z) ex_args_store [0; 1; 2] ex_edges_sorted = inr (3, (2 # 3)%Q, ex_main_dict))
    as He by (vm_compute; reflexivity).
  split; [exact He|]. exact (evaluate_score_bounds _ _ _ _ _ _ He).
Defined.

Lemma main_store_even_witness :
  Nat.Even (length (nx_nodes ex_edges_sorted)) ∧
  evaluate (K:=Z) ex_args_store [0; 1; 2] ex_edges_sorted = inr (3, (2 # 3)%Q, ex_main_dict) ∧
  ex_args_store !! "store_align"%string = Some (ABool true) ∧
  ∃ M, main (K:=Z) ex_args_store [0; 1; 2] ex_edges_sorted = inr ((2 # 3)%Q, Some M) ∧
       one_hot_alignment 3 ex_main_dict = inr M.
Proof.
  assert (Nat.Even (length (nx_nodes ex_edges_sorted))) as Hev by (exists 3; vm_compute; reflexivity).
  assert (evaluate (K:=Z) ex_args_store [0; 1; 2] ex_edges_sorted = inr (3, (2 # 3)%Q, ex_main_dict))
    as He by (vm_compute; reflexivity).
  assert (ex_args_store !! "store_align"%string = Some (ABool true)) as Hs
    by (vm_compute; reflexivity).
  split; [exact Hev|]. split; [exact He|]. split; [exact Hs|].
  exact (main_store_even _ _ _ _ _ _ Hev He Hs).
Defined.
