(* ===== verification/EdgeList.v ===== *)
(** * EdgeList: reading the combined graph (src/conealign.py, line 163)

    [nx.read_edgelist(combined_graph_name, nodetype=int, comments="%")]
    as networkx implements it ([read_edgelist], [parse_edgelist]):
    - the file is opened in binary mode and iterated line by line, each
      line ending at (and keeping) its b"\n" ([py_lines]);
    - the text from the first ["%"] on is cut off ([strip_comment]) and
      a line left empty is skipped;
    - the line, [rstrip("\n")]ed ([py_rstrip]), is split on whitespace
      ([py_split], Python's [str.split()]); a line of fewer than two
      fields is skipped;
    - the first two fields go through [int()] ([py_int]); a failure
      raises [TypeError];
    - further fields are joined by spaces, [strip()]ed ([py_strip]) and
      read with [dict(ast.literal_eval(...))]: the class [PyLiteral]
      gives the ["weight"] entry this dict sets (the only attribute the
      adjacency matrix reads) or the [TypeError] raised for anything but
      a dict literal with string keys;
    - [G.add_edge(u, v, **edgedata)] for every line kept.
    [nx_weight] is the weight networkx keeps for an edge: the last one a
    line gave it, 1 when none did; [nx_adjacency_w] is then line 164 on
    the parsed graph, [main_text] is [main] on the text of the file and
    [program] the script of lines 202-204.

    The text is taken to be ASCII: a byte of 128 or more is read as a
    character that is neither a digit nor whitespace, whereas Python
    decodes UTF-8 first (and would split on U+0085 or U+00A0). *)

From S2P Require Import Prelude ArgSort Sparse Config Evaluator Matcher UnsupAlign Pipeline Main.
From stdpp Require Import strings pretty.
From Stdlib Require Import Ascii QArith.
Local Close Scope Q_scope.

(** ** Python's string methods on ASCII text *)

(** [str.isspace()]: tab, newline, vertical tab, form feed, carriage
    return, the separators 0x1c-0x1f and space. *)
Definition py_isspace (c : ascii) : bool :=
  let n := nat_of_ascii c in bool_decide (9 ≤ n ≤ 13 ∨ 28 ≤ n ≤ 32).

(** Iterating over a file opened with ["rb"]: chunks ending at each
    ["\n"], which they keep; the last one may lack it. *)
Fixpoint py_lines (s : string) : list string :=
  match s with
  | EmptyString => []
  | String c s' =>
      if decide (c = "010"%char) then String c EmptyString :: py_lines s'
      else match py_lines s' with
           | [] => [String c EmptyString]
           | l :: ls => String c l :: ls
           end
  end.

(** [line[:line.find("%")]] when ["%"] occurs, [line] otherwise. *)
Fixpoint strip_comment (s : string) : string :=
  match s with
  | EmptyString => EmptyString
  | String c s' => if decide (c = "%"%char) then EmptyString else String c (strip_comment s')
  end.

(** [s.rstrip(chars)]: the trailing characters satisfying [p] removed. *)
Fixpoint py_rstrip (p : ascii → bool) (s : string) : string :=
  match s with
  | EmptyString => EmptyString
  | String c s' =>
      match py_rstrip p s' with
      | EmptyString => if p c then EmptyString else String c EmptyString
      | r => String c r
      end
  end.

(** [s.lstrip(chars)]. *)
Fixpoint py_lstrip (p : ascii → bool) (s : string) : string :=
  match s with
  | EmptyString => EmptyString
  | String c s' => if p c then py_lstrip p s' else s
  end.

(** [s.strip()]. *)
Definition py_strip (s : string) : string := py_lstrip py_isspace (py_rstrip py_isspace s).

(** A field is added only when it is not empty. *)
Definition field_cons (w : string) (ws : list string) : list string :=
  match w with EmptyString => ws | _ => w :: ws end.

(** The leading run of non-whitespace characters of [s], and the fields
    of what follows it. *)
Fixpoint py_split_aux (s : string) : string * list string :=
  match s with
  | EmptyString => (EmptyString, [])
  | String c s' =>
      let '(w, ws) := py_split_aux s' in
      if py_isspace c then (EmptyString, field_cons w ws) else (String c w, ws)
  end.

(** [s.split()]: the maximal runs of non-whitespace characters. *)
Definition py_split (s : string) : list string :=
  let '(w, ws) := py_split_aux s in field_cons w ws.

(** [sep.join(ws)]. *)
Fixpoint py_join (sep : string) (ws : list string) : string :=
  match ws with
  | [] => EmptyString
  | [w] => w
  | w :: ws' => w +:+ sep +:+ py_join sep ws'
  end.

(** An ASCII decimal digit. *)
Definition py_digit (c : ascii) : option Z :=
  let n := nat_of_ascii c in
  if decide (48 ≤ n ≤ 57) then Some (Z.of_nat n - 48)%Z else None.

(** The digits of [int()]: decimal digits with single underscores
    between them; [need] says a digit must come next. *)
Fixpoint py_digits (acc : Z) (need : bool) (s : string) : option Z :=
  match s with
  | EmptyString => if need then None else Some acc
  | String c s' =>
      if decide (c = "_"%char) then (if need then None else py_digits acc true s')
      else d ← py_digit c; py_digits (acc * 10 + d)%Z false s'
  end.

(** [int(s)] for a field (no whitespace): an optional sign and digits;
    [None] where Python raises [ValueError]. *)
Definition py_int (s : string) : option Z :=
  match s with
  | String c s' =>
      if decide (c = "-"%char) then Z.opp <$> py_digits 0 true s'
      else if decide (c = "+"%char) then py_digits 0 true s'
      else py_digits 0 true s
  | EmptyString => None
  end.

(** ** networkx's [parse_edgelist] *)

Class PyLiteral (K : Type) := {
  (** the ["weight"] entry of [dict(ast.literal_eval(s))] as
      [G.add_edge(u, v, **edgedata)] stores it, [None] without one; an
      error where Python raises *)
  literal_weight : string → res (option K)
}.

Section parse.
Context {K : Type} `{!PyLiteral K}.

(** The body of the loop of [parse_edgelist] once the line is split:
    [None] for a line skipped. *)
Definition parse_fields (s : list string) : res (option (Z * Z * option K)) :=
  match s with
  | u :: v :: d =>
      match py_int u, py_int v with
      | Some u, Some v =>
          w ← match d with
              | [] => mret None
              | _ => literal_weight (py_strip (py_join " " d))
              end;
          mret (Some (u, v, w))
      | _, _ => raise TypeError
      end
  | _ => mret None
  end.

(** The body of the loop on one line. *)
Definition parse_line (line : string) : res (option (Z * Z * option K)) :=
  match strip_comment line with
  | EmptyString => mret None
  | line => parse_fields (py_split (py_rstrip (λ c, bool_decide (c = "010"%char)) line))
  end.

(** [parse_edgelist(lines, comments="%", nodetype=int)]: the edges in
    the order of their lines. *)
Definition parse_edgelist (lines : list string) : res (list (Z * Z * option K)) :=
  parsed ← mapM parse_line lines; mret (omap id parsed).

(** [nx.read_edgelist(path, comments="%", nodetype=int)] on the text of
    the file. *)
Definition read_edgelist (content : string) : res (list (Z * Z * option K)) :=
  parse_edgelist (py_lines content).
End parse.

(** ** The weighted graph and [main] on the file *)

Section graph.
Context {K : Type} `{ScalarOrder K} `{!ArgSort K} `{!SkLearn K} `{!UnsupAlign K} `{!PyLiteral K}.

(** The ["weight"] of edge [{u, v}] after the [add_edge] calls of [g]:
    a call without a weight keeps the edge's weight, 1 for a new edge. *)
Definition nx_weight (g : list (Z * Z * option K)) (u v : Z) : option K :=
  foldl (λ acc '(a, b, w),
           if decide ((a, b) = (u, v) ∨ (a, b) = (v, u))
           then Some (default (default sone acc) w) else acc) None g.

(** Line 164 on the parsed graph: [nx.adjacency_matrix(graph)] reads
    the ["weight"] of every edge, 0 where there is none. *)
Definition nx_adjacency_w (g : list (Z * Z * option K)) : list (list K) :=
  let nodes := nx_nodes g.*1 in
  map (λ u, map (λ v, default szero (nx_weight g u v)) nodes) nodes.

(** Line 164: [nx.adjacency_matrix(graph)], with networkx's
    [NetworkXError] for a graph without nodes ([nx_adjacency_matrix]). *)
Definition nx_adjacency_matrix_w (g : list (Z * Z * option K)) : res (list (list K)) :=
  match nx_nodes g.*1 with
  | [] => raise NetworkXError
  | _ => mret (nx_adjacency_w g)
  end.

(** Lines 163-199: [main] reading the combined graph from [content]. *)
Definition main_text (args : namespace) (true_align : py_truth) (content : string)
    : res (Q * option (list (list K))) :=
  g ← read_edgelist content;
  adj ← nx_adjacency_matrix_w g;
  main_adj args true_align adj.

(** Lines 202-204: [args = parse_args(); main(args)]. *)
Definition program (argv : list (string * option arg_value)) (true_align : py_truth)
    (content : string) : res (Q * option (list (list K))) :=
  args ← parse_args argv;
  main_text args true_align content.
End graph.

(** ** Files of plain fields, as [nx.write_edgelist] writes them *)

(** Every character of [s] satisfies [p]. *)
Fixpoint str_forall (p : ascii → bool) (s : string) : bool :=
  match s with EmptyString => true | String c s' => p c && str_forall p s' end.

(** A character a field holds as it is: no whitespace (so no newline)
    and no comment sign. *)
Definition plain_char (c : ascii) : bool := negb (py_isspace c) && bool_decide (c ≠ "%"%char).

(** A field of a line: not empty, of plain characters. *)
Definition plain_field (w : string) : Prop := w ≠ EmptyString ∧ str_forall plain_char w = true.

(** A file whose lines hold the rows of fields [rows], separated by one
    space and ended by ["\n"], followed by the text [rest]. *)
Fixpoint text_of (rows : list (list string)) (rest : string) : string :=
  match rows with
  | [] => rest
  | ws :: rows' => py_join " " ws +:+ String "010" (text_of rows' rest)
  end.

(** The line of an edge without data. *)
Definition edge_row (e : Z * Z) : list string := [pretty e.1; pretty e.2].

(** [nx.write_edgelist(G, path, data=False)] of the edges [E]. *)
Definition write_edgelist (E : list (Z * Z)) : string := text_of (edge_row <$> E) EmptyString.

(** ** Facts on the string functions *)

Lemma append_cons c s t : String c s +:+ t = String c (s +:+ t).
Proof. done. Qed.

Lemma append_nil_r s : s +:+ EmptyString = s.
Proof. induction s as [|c s IH]; [done|]. by rewrite append_cons, IH. Qed.

Lemma str_forall_app p s t : str_forall p (s +:+ t) = str_forall p s && str_forall p t.
Proof.
  induction s as [|c s IH]; [done|]. rewrite append_cons. simpl. rewrite IH.
  by destruct (p c).
Qed.

Lemma str_forall_impl (p q : ascii → bool) s :
  (∀ c, p c = true → q c = true) → str_forall p s = true → str_forall q s = true.
Proof.
  intros Hpq. induction s as [|c s IH]; simpl; [done|].
  intros [Hc Hs]%andb_prop. by rewrite Hpq, IH.
Qed.

Lemma strip_comment_id s :
  str_forall (λ c, bool_decide (c ≠ "%"%char)) s = true → strip_comment s = s.
Proof.
  induction s as [|c s IH]; simpl; [done|]. intros [Hc Hs]%andb_prop.
  apply bool_decide_eq_true in Hc. rewrite decide_False by done. by rewrite IH.
Qed.

Lemma py_rstrip_app p s t :
  str_forall (λ c, negb (p c)) s = true → py_rstrip p (s +:+ t) = s +:+ py_rstrip p t.
Proof.
  induction s as [|c s IH]; [done|]. rewrite !append_cons. simpl.
  intros [Hc Hs]%andb_prop. apply negb_true_iff in Hc. rewrite IH by done.
  by destruct (s +:+ py_rstrip p t); rewrite ?Hc.
Qed.

Lemma py_lines_line s t :
  str_forall (λ c, bool_decide (c ≠ "010"%char)) s = true →
  py_lines (s +:+ String "010" t) = (s +:+ String "010" EmptyString) :: py_lines t.
Proof.
  induction s as [|c s IH]; intros Hs; [reflexivity|].
  rewrite !append_cons. simpl in Hs |- *. apply andb_prop in Hs as [Hc Hs].
  apply bool_decide_eq_true in Hc. rewrite decide_False by done. by rewrite IH.
Qed.

Lemma py_split_aux_word w s :
  str_forall (λ c, negb (py_isspace c)) w = true →
  py_split_aux (w +:+ s) = (w +:+ (py_split_aux s).1, (py_split_aux s).2).
Proof.
  induction w as [|c w IH]; intros Hw; [cbv [String.append]; by destruct (py_split_aux s)|].
  simpl in Hw. apply andb_prop in Hw as [Hc Hw]. apply negb_true_iff in Hc.
  rewrite append_cons. simpl. rewrite IH by done. simpl. by rewrite Hc.
Qed.

Lemma plain_char_nospace s :
  str_forall plain_char s = true → str_forall (λ c, negb (py_isspace c)) s = true.
Proof. apply str_forall_impl. intros c [? _]%andb_prop. done. Qed.

Lemma py_split_aux_join w ws :
  Forall plain_field (w :: ws) → py_split_aux (py_join " " (w :: ws)) = (w, ws).
Proof.
  revert w. induction ws as [|w' ws IH]; intros w Hall;
    apply Forall_cons in Hall as [[Hne Hw] Hrest].
  - simpl. rewrite <-(append_nil_r w) at 1.
    rewrite py_split_aux_word by (by apply plain_char_nospace). simpl. by rewrite append_nil_r.
  - change (py_join " " (w :: w' :: ws)) with (w +:+ " " +:+ py_join " " (w' :: ws)).
    rewrite py_split_aux_word by (by apply plain_char_nospace).
    change (" " +:+ py_join " " (w' :: ws)) with (String " " (py_join " " (w' :: ws))).
    cbn [py_split_aux]. rewrite IH by done.
    assert (py_isspace " " = true) as -> by reflexivity. simpl.
    rewrite append_nil_r. destruct w'; [|done]. by apply Forall_cons in Hrest as [[] _].
Qed.

(** [" ".join(ws).split()] gives the fields back. *)
Lemma py_split_join ws : Forall plain_field ws → py_split (py_join " " ws) = ws.
Proof.
  destruct ws as [|w ws]; [done|]. intros Hall. unfold py_split.
  rewrite py_split_aux_join by done. destruct w; [|done].
  by apply Forall_cons in Hall as [[] _].
Qed.

(** ** [int()] reads back what [str()] writes *)

Lemma py_digits_char acc b d s :
  (d < 10)%N → py_digits acc b (String (pretty_N_char d) s) = py_digits (acc * 10 + Z.of_N d)%Z false s.
Proof.
  intros Hd. assert (d = 0 ∨ d = 1 ∨ d = 2 ∨ d = 3 ∨ d = 4 ∨ d = 5 ∨ d = 6 ∨ d = 7 ∨ d = 8 ∨ d = 9)%N
    as Hd' by lia.
  destruct_or! Hd'; subst d; reflexivity.
Qed.

Lemma py_digits_pretty_N_go x s acc b :
  (0 < x)%N → ∃ k : nat, py_digits acc b (pretty_N_go x s) =
                         py_digits (acc * 10 ^ Z.of_nat k + Z.of_N x)%Z false s.
Proof.
  revert s acc b. induction (N.lt_wf_0 x) as [x _ IH]. intros s acc b Hx.
  rewrite pretty_N_go_step by done.
  assert (Z.of_N x = 10 * Z.of_N (x `div` 10) + Z.of_N (x `mod` 10))%Z as Hdm
    by (rewrite (N.div_mod x 10) at 1 by lia; lia).
  destruct (decide (x < 10)%N) as [Hlt|Hge].
  - rewrite N.div_small, pretty_N_go_0 by done. exists 1.
    rewrite py_digits_char by (apply N.mod_lt; lia). rewrite N.mod_small by done.
    f_equal; lia.
  - destruct (IH (x `div` 10)%N) with (s := String (pretty_N_char (x `mod` 10)) s)
      (acc := acc) (b := b) as [k Hk]; [apply N.div_lt; lia|apply N.div_str_pos; lia|].
    rewrite Hk, py_digits_char by (apply N.mod_lt; lia). exists (S k).
    f_equal. rewrite Nat2Z.inj_succ, Z.pow_succ_r, Hdm by lia. ring.
Qed.

Lemma pretty_N_go_head x s :
  (0 < x)%N → ∃ d s', (d < 10)%N ∧ pretty_N_go x s = String (pretty_N_char d) s'.
Proof.
  revert s. induction (N.lt_wf_0 x) as [x _ IH]. intros s Hx.
  rewrite pretty_N_go_step by done.
  destruct (decide (x < 10)%N) as [Hlt|Hge].
  - rewrite N.div_small, pretty_N_go_0 by done. exists (x `mod` 10)%N, s.
    split; [apply N.mod_lt; lia|done].
  - apply IH; [apply N.div_lt; lia|apply N.div_str_pos; lia].
Qed.

Lemma pretty_N_go_forall p x s :
  (∀ d, (d < 10)%N → p (pretty_N_char d) = true) →
  str_forall p s = true → str_forall p (pretty_N_go x s) = true.
Proof.
  intros Hd. revert s. induction (N.lt_wf_0 x) as [x _ IH]. intros s Hs.
  destruct (decide (x = 0)%N) as [->|Hx]; [by rewrite pretty_N_go_0|].
  rewrite pretty_N_go_step by lia. apply IH; [apply N.div_lt; lia|].
  simpl. rewrite Hd by (apply N.mod_lt; lia). done.
Qed.

Lemma py_int_pretty_pos (p : positive) : py_int (pretty_N_go (N.pos p) "") = Some (Z.pos p).
Proof.
  destruct (pretty_N_go_head (N.pos p) "") as (d & s' & Hd & Hs); [lia|].
  destruct (py_digits_pretty_N_go (N.pos p) "" 0 true) as [k Hk]; [lia|].
  rewrite Hs in Hk |- *. unfold py_int.
  assert (pretty_N_char d ≠ "-"%char ∧ pretty_N_char d ≠ "+"%char) as [Hm Hp]
    by (unfold pretty_N_char; split; by repeat case_match).
  rewrite !decide_False by done. rewrite Hk. done.
Qed.

(** [int(str(z))] is [z]. *)
Lemma py_int_pretty (z : Z) : py_int (pretty z) = Some z.
Proof.
  destruct z as [|p|p]; [reflexivity| |].
  - exact (py_int_pretty_pos p).
  - change (pretty (Z.neg p)) with (String "-" (pretty_N_go (N.pos p) "")).
    unfold py_int at 1. rewrite decide_True by done.
    pose proof (py_int_pretty_pos p) as Hp. unfold py_int in Hp.
    destruct (pretty_N_go_head (N.pos p) "") as (d & s' & Hd & Hs); [lia|].
    rewrite Hs in Hp |- *.
    assert (pretty_N_char d ≠ "-"%char ∧ pretty_N_char d ≠ "+"%char) as [Hm Hpl]
      by (unfold pretty_N_char; split; by repeat case_match).
    rewrite !decide_False in Hp by done. by rewrite Hp.
Qed.

(** [str(z)] is a field. *)
Lemma pretty_plain (z : Z) : plain_field (pretty z).
Proof.
  split.
  - intros Hnil. pose proof (py_int_pretty z) as Hz. by rewrite Hnil in Hz.
  - assert (∀ d, (d < 10)%N → plain_char (pretty_N_char d) = true) as Hd.
    { intros d Hd. assert (d = 0 ∨ d = 1 ∨ d = 2 ∨ d = 3 ∨ d = 4 ∨ d = 5 ∨ d = 6 ∨ d = 7
        ∨ d = 8 ∨ d = 9)%N as Hd' by lia. destruct_or! Hd'; subst d; reflexivity. }
    destruct z as [|p|p]; [reflexivity| |].
    + by apply pretty_N_go_forall.
    + change (pretty (Z.neg p)) with (String "-" (pretty_N_go (N.pos p) "")).
      simpl. by apply pretty_N_go_forall.
Qed.

(** ** Reading a file of plain fields *)

Lemma str_forall_join (p : ascii → bool) ws :
  p " "%char = true → Forall (λ w, str_forall p w = true) ws → str_forall p (py_join " " ws) = true.
Proof.
  intros Hsp. induction 1 as [|w ws Hw Hws IH]; [done|]. destruct ws as [|w' ws']; [done|].
  change (py_join " " (w :: w' :: ws')) with (w +:+ " " +:+ py_join " " (w' :: ws')).
  rewrite !str_forall_app, Hw, IH. simpl. by rewrite Hsp.
Qed.

(** The text of a row of plain fields has no comment sign and no newline. *)
Lemma join_plain ws :
  Forall plain_field ws →
  str_forall (λ c, bool_decide (c ≠ "%"%char) && bool_decide (c ≠ "010"%char)) (py_join " " ws) = true.
Proof.
  intros Hws. apply str_forall_join; [done|]. eapply Forall_impl; [exact Hws|].
  intros w [_ Hw]. eapply str_forall_impl; [|exact Hw].
  intros c [Hs Hp]%andb_prop. rewrite Hp. simpl. apply bool_decide_eq_true.
  intros ->. discriminate Hs.
Qed.

Section read_facts.
Context {K : Type} `{!PyLiteral K}.

Lemma parse_line_kept l :
  strip_comment l = l → l ≠ EmptyString →
  parse_line (K:=K) l = parse_fields (py_split (py_rstrip (λ c, bool_decide (c = "010"%char)) l)).
Proof. unfold parse_line. intros -> Hne. by destruct l. Qed.

(** A line of plain fields is parsed as its fields. *)
Lemma parse_line_row ws :
  Forall plain_field ws → parse_line (K:=K) (py_join " " ws +:+ String "010" EmptyString) = parse_fields ws.
Proof.
  intros Hws. pose proof (join_plain ws Hws) as HJ.
  rewrite parse_line_kept; [|apply strip_comment_id|by destruct (py_join " " ws)].
  - rewrite py_rstrip_app, append_nil_r.
    + by rewrite py_split_join.
    + eapply str_forall_impl; [|exact HJ]. intros c [_ Hc]%andb_prop.
      apply bool_decide_eq_true in Hc. by rewrite bool_decide_false.
  - rewrite str_forall_app. eapply str_forall_impl in HJ; [rewrite HJ; done|].
    by intros c [? _]%andb_prop.
Qed.

Lemma py_lines_text rows rest :
  Forall (Forall plain_field) rows →
  py_lines (text_of rows rest) =
  map (λ ws, py_join " " ws +:+ String "010" EmptyString) rows ++ py_lines rest.
Proof.
  induction 1 as [|ws rows Hws Hrows IH]; [done|]. cbn [text_of map].
  rewrite py_lines_line, IH; [done|]. eapply str_forall_impl; [|apply (join_plain ws Hws)].
  by intros c [_ ?]%andb_prop.
Qed.

(** A file of rows of plain fields followed by [rest]: each row parsed
    as its fields, then the lines of [rest]. *)
Lemma read_edgelist_text rows rest :
  Forall (Forall plain_field) rows →
  read_edgelist (K:=K) (text_of rows rest) =
  (p1 ← mapM parse_fields rows; p2 ← mapM parse_line (py_lines rest); mret (omap id (p1 ++ p2))).
Proof.
  intros Hrows. unfold read_edgelist, parse_edgelist. rewrite py_lines_text, res_mapM_app by done.
  rewrite (res_mapM_map_ext parse_line _ parse_fields).
  - by destruct (mapM parse_fields rows), (mapM parse_line (py_lines rest)).
  - intros ws Hws. apply parse_line_row. rewrite Forall_forall in Hrows. by apply Hrows.
Qed.

Lemma edge_rows_plain E : Forall (Forall plain_field) (edge_row <$> E).
Proof. apply Forall_fmap, Forall_forall. intros e _. repeat constructor; apply pretty_plain. Qed.

Lemma mapM_edge_rows E :
  mapM (parse_fields (K:=K)) (edge_row <$> E) = inr ((λ e, Some (e.1, e.2, None)) <$> E).
Proof.
  induction E as [|e E IH]; [done|]. cbn [fmap list_fmap mapM].
  cbn [parse_fields edge_row]. rewrite !py_int_pretty. res_red. by rewrite IH.
Qed.

Lemma omap_edges (E : list (Z * Z)) : omap id ((λ e, Some (e.1, e.2, None)) <$> E) = (λ e, (e, @None K)) <$> E.
Proof. induction E as [|[u v] E IH]; [done|]. simpl. f_equal. exact IH. Qed.

Lemma read_edgelist_write E : read_edgelist (K:=K) (write_edgelist E) = inr ((λ e, (e, None)) <$> E).
Proof.
  unfold write_edgelist. rewrite read_edgelist_text by apply edge_rows_plain.
  rewrite mapM_edge_rows. cbn [py_lines mapM]. res_red. by rewrite app_nil_r, omap_edges.
Qed.

Lemma py_strip_plain w : plain_field w → py_strip w = w.
Proof.
  intros [Hne Hw]. apply plain_char_nospace in Hw. unfold py_strip.
  rewrite <-(append_nil_r w) at 1. rewrite py_rstrip_app by done. rewrite append_nil_r.
  destruct w as [|c w]; [done|]. simpl in Hw |- *. apply andb_prop in Hw as [Hc _].
  apply negb_true_iff in Hc. by rewrite Hc.
Qed.
End read_facts.

(** ** The graph of a file *)

Section graph_facts.
Context {K : Type} `{ScalarOrder K}.

(** [add_edge] without weights: an edge that occurs gets weight 1. *)
Lemma nx_weight_go (E : list (Z * Z)) (u v : Z) (acc : option K) :
  foldl (λ acc '(a, b, w),
           if decide ((a, b) = (u, v) ∨ (a, b) = (v, u))
           then Some (default (default sone acc) w) else acc) acc ((λ e, (e, @None K)) <$> E) =
  if bool_decide ((u, v) ∈ E ∨ (v, u) ∈ E) then Some (default sone acc) else acc.
Proof.
  revert acc. induction E as [|[a b] E IH]; intros acc; [done|]. cbn [fmap list_fmap foldl].
  rewrite IH. destruct (decide ((a, b) = (u, v) ∨ (a, b) = (v, u))) as [Hab|Hab].
  - rewrite (bool_decide_true ((u, v) ∈ (a, b) :: E ∨ (v, u) ∈ (a, b) :: E))
      by (destruct Hab as [Hab|Hab]; simplify_eq; [left|right]; apply elem_of_cons; by left).
    by case_bool_decide.
  - rewrite (bool_decide_ext ((u, v) ∈ (a, b) :: E ∨ (v, u) ∈ (a, b) :: E)
      ((u, v) ∈ E ∨ (v, u) ∈ E)); [done|]. rewrite !elem_of_cons. naive_solver.
Qed.

(** Without weights the graph of a file is the unweighted graph of its
    edges. *)
Lemma nx_adjacency_w_unweighted (E : list (Z * Z)) :
  nx_adjacency_w ((λ e, (e, @None K)) <$> E) = nx_adjacency E.
Proof.
  unfold nx_adjacency_w, nx_adjacency, edge_val, nx_has_edge, nx_weight.
  assert (((λ e, (e, @None K)) <$> E).*1 = E) as ->
    by (induction E; simpl; f_equal; auto).
  apply map_ext. intros u. apply map_ext. intros v. rewrite nx_weight_go.
  by case_bool_decide.
Qed.

Lemma nx_adjacency_matrix_w_unweighted (E : list (Z * Z)) :
  nx_adjacency_matrix_w ((λ e, (e, @None K)) <$> E) = nx_adjacency_matrix E.
Proof.
  unfold nx_adjacency_matrix_w, nx_adjacency_matrix. rewrite nx_adjacency_w_unweighted.
  assert (((λ e, (e, @None K)) <$> E).*1 = E) as -> by (induction E; simpl; f_equal; auto).
  done.
Qed.


(** Two lines giving edge [{u, v}] the weights [w1] then [w2]. *)
Lemma nx_adjacency_w_conflict (u v : Z) (w1 w2 : K) :
  u ≠ v → nx_adjacency_w [(u, v, Some w1); (u, v, Some w2)] = [[szero; w2]; [w2; szero]].
Proof.
  intros Huv. unfold nx_adjacency_w, nx_weight, nx_nodes, nx_add_node. simpl.
  repeat (case_decide; simplify_eq/=; try set_solver).
Qed.
End graph_facts.

#[export] Instance plain_field_dec w : Decision (plain_field w).
Proof. unfold plain_field. apply _. Defined.

(** ** What reading the combined graph does *)

Section edgelist_claims.
Context {K : Type} `{ScalarOrder K} `{!ArgSort K} `{!SkLearn K} `{!UnsupAlign K} `{!PyLiteral K}.

(** C30: reading back an edge list written as ["u v\n"] lines (what
    [nx.write_edgelist(G, data=False)] writes) gives its edges, in
    order, negative ids included, with no weight: [int()] reads back
    [str()] and [str.split()] the space-joined fields. *)
Theorem read_edgelist_roundtrip (E : list (Z * Z)) :
  read_edgelist (K:=K) (write_edgelist E) = inr ((λ e, (e, None)) <$> E).
Proof. apply read_edgelist_write. Qed.

(** C31 (spec sections 6-7, malformed input): a line whose first or
    second field is no integer makes the whole read raise [TypeError],
    whatever comes after it. *)
Theorem read_edgelist_bad_int E a b d rest :
  Forall plain_field (a :: b :: d) → py_int a = None ∨ py_int b = None →
  read_edgelist (K:=K) (text_of ((edge_row <$> E) ++ [a :: b :: d]) rest) = inl TypeError.
Proof.
  intros Hf Hab.
  rewrite read_edgelist_text by (apply Forall_app; split; [apply edge_rows_plain|by constructor]).
  rewrite res_mapM_app, mapM_edge_rows. cbn [mapM parse_fields]. res_red.
  destruct Hab as [-> | ->]; [done|]. by destruct (py_int a).
Qed.

(** C32: a line with a single field is skipped without an error, even
    when the field is no integer, whereas the spec (section 6) asks the
    parser to reject non-integer input and not to drop lines silently. *)
Theorem read_edgelist_single_field E1 E2 a :
  plain_field a →
  read_edgelist (K:=K) (text_of ((edge_row <$> E1) ++ [a] :: (edge_row <$> E2)) EmptyString) =
  inr ((λ e, (e, None)) <$> (E1 ++ E2)).
Proof.
  intros Ha. rewrite read_edgelist_text
    by (apply Forall_app; split; [apply edge_rows_plain|constructor; [by constructor|apply edge_rows_plain]]).
  rewrite res_mapM_app, mapM_edge_rows. cbn [mapM parse_fields py_lines]. rewrite mapM_edge_rows.
  res_red. rewrite app_nil_r, omap_app, fmap_app. simpl. by rewrite !omap_edges.
Qed.

(** The script run on a command line and the text of an edge list
    written as ["u v\n"] lines does what [parse_args] then [main] on
    those edges do (every edge of weight 1). *)
Lemma program_write_edgelist argv ta (E : list (Z * Z)) :
  program (K:=K) argv ta (write_edgelist E) = (args ← parse_args argv; main args ta E).
Proof.
  unfold program. destruct (parse_args argv) as [e|args]; res_red; [done|].
  unfold main_text. rewrite read_edgelist_write. res_red. unfold main.
  by rewrite nx_adjacency_matrix_w_unweighted.
Qed.


(** C34: two lines that give one edge conflicting weights are read
    without an error and the adjacency matrix holds the last weight,
    whereas the spec (section 6) asks the parser to reject
    duplicate-with-weight-conflict edges. *)
Theorem read_edgelist_weight_conflict (u v : Z) d1 d2 (w1 w2 : K) :
  u ≠ v → plain_field d1 → plain_field d2 →
  literal_weight d1 = inr (Some w1) → literal_weight d2 = inr (Some w2) →
  read_edgelist (text_of [[pretty u; pretty v; d1]; [pretty u; pretty v; d2]] EmptyString) =
    inr [(u, v, Some w1); (u, v, Some w2)] ∧
  nx_adjacency_w [(u, v, Some w1); (u, v, Some w2)] = [[szero; w2]; [w2; szero]].
Proof.
  intros Huv Hd1 Hd2 Hw1 Hw2. split; [|by apply nx_adjacency_w_conflict].
  rewrite read_edgelist_text
    by repeat (apply Forall_cons_2 || apply Forall_nil_2 || apply pretty_plain || assumption).
  cbn [mapM parse_fields py_join]. rewrite !py_int_pretty, !py_strip_plain by done.
  rewrite Hw1, Hw2. res_red. reflexivity.
Qed.
End edgelist_claims.

(** ** An integer instance and witnesses *)

(** Reads the dict literals ["{}"] and ["{'weight':n}"], enough to run
    the witnesses; anything else raises. *)
Definition Z_literal_weight (s : string) : res (option Z) :=
  if decide (s = "{}") then inr None
  else if String.prefix "{'weight':" s &&
          bool_decide (String.get (String.length s - 1) s = Some "}"%char)
  then match py_int (String.substring 10 (String.length s - 11) s) with
       | Some n => inr (Some n)
       | None => raise TypeError
       end
  else raise TypeError.

#[export] Instance Z_pyliteral : PyLiteral Z := {| literal_weight := Z_literal_weight |}.

Lemma read_edgelist_bad_int_witness :
  Forall plain_field ["x"; "2"] ∧ (py_int "x" = None ∨ py_int "2" = None) ∧
  read_edgelist (K:=Z) (text_of ((edge_row <$> [(0, 1)%Z]) ++ [["x"; "2"]]) "3 4") = inl TypeError.
Proof.
  assert (Forall plain_field ["x"; "2"]) as Hf by (apply (bool_decide_eq_true_1 _); vm_compute; reflexivity).
  assert (py_int "x" = None ∨ py_int "2" = None) as Hn by (left; reflexivity).
  split; [exact Hf|]. split; [exact Hn|].
  exact (read_edgelist_bad_int [(0, 1)%Z] "x" "2" [] "3 4" Hf Hn).
Defined.

Lemma read_edgelist_single_field_witness :
  plain_field "x" ∧
  read_edgelist (K:=Z) (text_of ((edge_row <$> [(0, 1)%Z]) ++ ["x"] :: (edge_row <$> [(2, -3)%Z])) "")
    = inr [((0, 1)%Z, None); ((2, -3)%Z, None)].
Proof.
  assert (plain_field "x") as Ha by (apply (bool_decide_eq_true_1 _); vm_compute; reflexivity).
  split; [exact Ha|]. exact (read_edgelist_single_field [(0, 1)%Z] [(2, -3)%Z] "x" Ha).
Defined.

Lemma read_edgelist_weight_conflict_witness :
  (0 ≠ 1)%Z ∧ plain_field "{'weight':2}" ∧ plain_field "{'weight':5}" ∧
  literal_weight "{'weight':2}" = inr (Some 2%Z) ∧ literal_weight "{'weight':5}" = inr (Some 5%Z) ∧
  read_edgelist (text_of [[pretty 0%Z; pretty 1%Z; "{'weight':2}"]; [pretty 0%Z; pretty 1%Z; "{'weight':5}"]] "")
    = inr [(0%Z, 1%Z, Some 2%Z); (0%Z, 1%Z, Some 5%Z)] ∧
  nx_adjacency_w [(0%Z, 1%Z, Some 2%Z); (0%Z, 1%Z, Some 5%Z)] = [[0; 5]; [5; 0]]%Z.
Proof.
  assert (0 ≠ 1)%Z as Huv by lia.
  assert (plain_field "{'weight':2}") as H1 by (apply (bool_decide_eq_true_1 _); vm_compute; reflexivity).
  assert (plain_field "{'weight':5}") as H2 by (apply (bool_decide_eq_true_1 _); vm_compute; reflexivity).
  assert (literal_weight "{'weight':2}" = inr (Some 2%Z)) as Hw1 by (vm_compute; reflexivity).
  assert (literal_weight "{'weight':5}" = inr (Some 5%Z)) as Hw2 by (vm_compute; reflexivity).
  do 5 (split; [assumption|]).
  exact (read_edgelist_weight_conflict 0%Z 1%Z _ _ 2%Z 5%Z Huv H1 H2 Hw1 Hw2).
Defined.


